(** * potion-node: the client engine of [src/base.ts]

    A shallow embedding of [PotionBase] (URI resolver, request dispatcher,
    JSON hydrator) and of the [Item.id] getter, together with the part of
    the ECMAScript runtime the engine relies on: strings, ordinary objects
    with their property enumeration order, promises and the microtask
    queue. *)

From stdpp Require Import gmap strings list pretty.
From Stdlib Require Import ZArith Ascii.

Local Open Scope string_scope.
Local Open Scope list_scope.
Local Open Scope nat_scope.
Set Warnings "-register-all".

(** ** ECMAScript strings

    A string is a sequence of characters; [indexOf], [substring] and
    [split] are the methods of [String.prototype] that [base.ts] calls. *)

Module JsString.

(** [s.indexOf(x)]; [None] stands for [-1]. *)
Definition indexOf (s x : string) : option nat := String.index 0 x s.

(** [s.substring(n)]. *)
Fixpoint substring (n : nat) (s : string) : string :=
  match n, s with
  | 0, _ => s
  | S n', String _ s' => substring n' s'
  | S _, EmptyString => EmptyString
  end.

(** [s.split(c)] for a one-character separator: the pieces between the
    occurrences of [c], [cur] being the piece read so far (reversed). *)
Fixpoint split_go (c : ascii) (cur : string) (s : string) : list string :=
  match s with
  | EmptyString => [String.rev cur]
  | String a s' =>
      if Ascii.eqb a c then String.rev cur :: split_go c EmptyString s'
      else split_go c (String a cur) s'
  end.

Definition split (c : ascii) (s : string) : list string :=
  split_go c EmptyString s.

Definition hex_digit (a : ascii) : option N :=
  let n := N_of_ascii a in
  if ((48 <=? n) && (n <=? 57))%N then Some (n - 48)%N
  else if ((65 <=? n) && (n <=? 70))%N then Some (n - 55)%N
  else if ((97 <=? n) && (n <=? 102))%N then Some (n - 87)%N
  else None.

(** First pass of [decodeURIComponent]: a [%XX] escape becomes the octet
    it denotes ([inr]), any other character stands for itself ([inl]); a
    [%] that is not followed by two hexadecimal digits is a [URIError]. *)
Fixpoint unescape (s : string) : option (list (ascii + N)) :=
  match s with
  | EmptyString => Some []
  | String "%" (String h1 (String h2 rest)) =>
      match hex_digit h1, hex_digit h2, unescape rest with
      | Some a, Some b, Some ts => Some (inr (16 * a + b)%N :: ts)
      | _, _, _ => None
      end
  | String "%" _ => None
  | String c rest =>
      match unescape rest with
      | Some ts => Some (inl c :: ts)
      | None => None
      end
  end.

(** Second pass: escaped octets of 128 and above must spell well-formed
    UTF-8.  [k] continuation octets are still expected, the next one in
    the range [lo..hi]. *)
Fixpoint utf8 (k : nat) (lo hi : N) (ts : list (ascii + N)) : option string :=
  match ts with
  | [] => match k with 0 => Some EmptyString | S _ => None end
  | inl c :: ts' =>
      match k with
      | 0 => String c <$> utf8 0 128%N 191%N ts'
      | S _ => None
      end
  | inr b :: ts' =>
      match k with
      | S k' =>
          if ((lo <=? b) && (b <=? hi))%N
          then String (ascii_of_N b) <$> utf8 k' 128%N 191%N ts'
          else None
      | 0 =>
          let emit n l h := String (ascii_of_N b) <$> utf8 n l h ts' in
          if (b <? 128)%N then emit 0 128%N 191%N
          else if (b <? 194)%N then None
          else if (b <? 224)%N then emit 1 128%N 191%N
          else if (b =? 224)%N then emit 2 160%N 191%N
          else if (b =? 237)%N then emit 2 128%N 159%N
          else if (b <? 240)%N then emit 2 128%N 191%N
          else if (b =? 240)%N then emit 3 144%N 191%N
          else if (b <? 244)%N then emit 3 128%N 191%N
          else if (b =? 244)%N then emit 3 128%N 143%N
          else None
      end
  end.

(** [decodeURIComponent(s)]; [None] is the [URIError] it throws. *)
Definition decodeURIComponent (s : string) : option string :=
  unescape s ≫= utf8 0 128%N 191%N.

Definition is_digit (a : ascii) : bool :=
  let n := N_of_ascii a in ((48 <=? n) && (n <=? 57))%N.

Fixpoint digits_value (acc : N) (s : string) : option N :=
  match s with
  | EmptyString => Some acc
  | String a s' =>
      if is_digit a then digits_value (10 * acc + (N_of_ascii a - 48))%N s'
      else None
  end.

(** A property name that is an array index: the canonical decimal form
    of an integer below [2^32 - 1]. *)
Definition array_index (k : string) : option N :=
  match k with
  | EmptyString => None
  | String "0" EmptyString => Some 0%N
  | String "0" _ => None
  | _ =>
      match digits_value 0 k with
      | Some n => if (n <? 4294967295)%N then Some n else None
      | None => None
      end
  end.

Definition is_space (a : ascii) : bool :=
  let n := N_of_ascii a in ((9 <=? n) && (n <=? 13) || (n =? 32))%N.

Fixpoint skip_spaces (s : string) : string :=
  match s with
  | String a s' => if is_space a then skip_spaces s' else s
  | EmptyString => s
  end.

(** The longest prefix of decimal digits, as a number; [None] when the
    string does not start with a digit. *)
Fixpoint leading_digits (acc : option Z) (s : string) : option Z :=
  match s with
  | String a s' =>
      if is_digit a
      then leading_digits
             (Some (10 * default 0%Z acc + (Z.of_N (N_of_ascii a) - 48))%Z) s'
      else acc
  | EmptyString => acc
  end.

(** [parseInt(s, 10)]: white space is skipped, a sign is read, then the
    longest run of decimal digits; [None] is [NaN]. *)
Definition parseInt10 (s : string) : option Z :=
  match skip_spaces s with
  | String "-" s' => Z.opp <$> leading_digits None s'
  | String "+" s' => leading_digits None s'
  | s' => leading_digits None s'
  end.

End JsString.

(** ** Ordinary objects

    An object is the list of its own properties in the order in which
    [Object.keys] and [Object.entries] enumerate them: array indices in
    ascending order first, then the other names in order of creation. *)

Module JsObject.
Section Obj.
Context {V : Type}.

Definition t := list (string * V).

Fixpoint get (k : string) (o : list (string * V)) : option V :=
  match o with
  | [] => None
  | (k', v) :: o' => if String.eqb k k' then Some v else get k o'
  end.

Definition keys (o : list (string * V)) : list string := o.*1.

Fixpoint replace (k : string) (v : V) (o : list (string * V)) : list (string * V) :=
  match o with
  | [] => []
  | (k', v') :: o' =>
      if String.eqb k k' then (k', v) :: o' else (k', v') :: replace k v o'
  end.

Fixpoint insert_index (i : N) (k : string) (v : V) (o : list (string * V))
  : list (string * V) :=
  match o with
  | [] => [(k, v)]
  | (k', v') :: o' =>
      match JsString.array_index k' with
      | Some j => if (j <? i)%N then (k', v') :: insert_index i k v o'
                  else (k, v) :: o
      | None => (k, v) :: o
      end
  end.

(** [o[k] = v] *)
Definition set (k : string) (v : V) (o : list (string * V)) : list (string * V) :=
  match get k o with
  | Some _ => replace k v o
  | None =>
      match JsString.array_index k with
      | Some i => insert_index i k v o
      | None => o ++ [(k, v)]
      end
  end.

(** [Object.entries(o)] *)
Definition entries (o : list (string * V)) : list (string * V) := o.

End Obj.
End JsObject.

(** ** Values

    [json] is a decoded JSON document as the transport hands it over;
    [value] is what hydration yields.  Numbers pass through the engine
    untouched and are kept as integers.  A date is [new Date(x)] for the
    document [x] of its [$date] marker; an instance is a reference into
    the heap of constructed entities. *)

Inductive json :=
| JNull
| JBool (b : bool)
| JNum (n : Z)
| JStr (s : string)
| JArr (items : list json)
| JObj (props : list (string * json)).

Inductive value :=
| VUndefined
| VNull
| VBool (b : bool)
| VNum (n : Z)
| VStr (s : string)
| VArr (items : list value)
| VObj (props : list (string * value))
| VDate (arg : json)
| VInst (ref : nat).

(** A registered resource class, known to the engine by identity only. *)
Definition ItemConstructor := string.

(** An entity as [Reflect.construct(resource, [obj])] makes it: its class
    and the property bag handed to the constructor. *)
Record Item := {
  Item_constructor : ItemConstructor;
  Item_properties : list (string * value)
}.

Inductive Method := GET | PUT | DELETE | POST.

Record PotionRequestOptions := {
  method : option Method;
  cache_option : option json;
  data : option json
}.

Definition no_options : PotionRequestOptions :=
  {| method := None; cache_option := None; data := None |}.

(** [Object.assign({}, options, {method: m})] *)
Definition with_method (m : Method) (o : PotionRequestOptions) : PotionRequestOptions :=
  {| method := Some m; cache_option := cache_option o; data := data o |}.

Inductive error :=
| Error (message : string)
| URIError
| TypeError
| Failure (reason : string).

(** ** Promises and the microtask queue

    [callback] lists the functions the engine passes to [then] on promises
    of hydrated values, [fcallback] those it passes to [then] on the
    promise of a transport call. *)

Inductive callback :=
| KPair (key : string)
| KInstance (resource : ItemConstructor) (uri : string)
| KObject.

Inductive fcallback :=
| KGetThen (uri : string)
| KHydrate
| KDestroy (uri : string).

Inductive reaction :=
| RThen (k : callback) (d : nat)
| RAllElem (a : nat) (i : nat)
| RAdopt (d : nat).

Inductive pstate :=
| Pending (rs : list reaction)
| Fulfilled (v : value)
| Rejected (e : error).

Inductive fstate :=
| FPending (rs : list (fcallback * nat))
| FFulfilled (j : json)
| FRejected (e : error).

(** One call of the transport collaborator [fetch(uri, options)] and the
    promise it returned. *)
Record fetch := {
  fetch_uri : string;
  fetch_options : PotionRequestOptions;
  fetch_state : fstate
}.

Inductive job :=
| JReaction (r : reaction) (x : value + error)
| JFetch (k : fcallback) (d : nat) (x : json + error)
| JThenable (d : nat) (q : nat).

(** ** The engine and its runtime

    The first four fields are those of [PotionBase]; [cache] holds the
    contents of the optional cache collaborator.  The others are the
    runtime: the promises created so far, the bookkeeping of
    [Promise.all], the transport calls made so far, the microtask queue
    and the entities constructed so far. *)

Record World := {
  _prefix : string;
  resources : list (string * ItemConstructor);
  cache : option (gmap string nat);
  _promises : gmap string nat;
  promises : list pstate;
  alls : gmap nat (list (option value));
  fetches : list fetch;
  microtasks : list job;
  heap : list Item
}.

Definition set_resources (f : list (string * ItemConstructor) → list (string * ItemConstructor))
    (w : World) : World :=
  {| _prefix := _prefix w; resources := f (resources w); cache := cache w;
     _promises := _promises w; promises := promises w; alls := alls w;
     fetches := fetches w; microtasks := microtasks w; heap := heap w |}.

Definition set_cache (f : option (gmap string nat) → option (gmap string nat))
    (w : World) : World :=
  {| _prefix := _prefix w; resources := resources w; cache := f (cache w);
     _promises := _promises w; promises := promises w; alls := alls w;
     fetches := fetches w; microtasks := microtasks w; heap := heap w |}.

Definition set_ledger (f : gmap string nat → gmap string nat) (w : World) : World :=
  {| _prefix := _prefix w; resources := resources w; cache := cache w;
     _promises := f (_promises w); promises := promises w; alls := alls w;
     fetches := fetches w; microtasks := microtasks w; heap := heap w |}.

Definition set_promises (f : list pstate → list pstate) (w : World) : World :=
  {| _prefix := _prefix w; resources := resources w; cache := cache w;
     _promises := _promises w; promises := f (promises w); alls := alls w;
     fetches := fetches w; microtasks := microtasks w; heap := heap w |}.

Definition set_alls (f : gmap nat (list (option value)) → gmap nat (list (option value)))
    (w : World) : World :=
  {| _prefix := _prefix w; resources := resources w; cache := cache w;
     _promises := _promises w; promises := promises w; alls := f (alls w);
     fetches := fetches w; microtasks := microtasks w; heap := heap w |}.

Definition set_fetches (f : list fetch → list fetch) (w : World) : World :=
  {| _prefix := _prefix w; resources := resources w; cache := cache w;
     _promises := _promises w; promises := promises w; alls := alls w;
     fetches := f (fetches w); microtasks := microtasks w; heap := heap w |}.

Definition set_microtasks (f : list job → list job) (w : World) : World :=
  {| _prefix := _prefix w; resources := resources w; cache := cache w;
     _promises := _promises w; promises := promises w; alls := alls w;
     fetches := fetches w; microtasks := f (microtasks w); heap := heap w |}.

Definition set_heap (f : list Item → list Item) (w : World) : World :=
  {| _prefix := _prefix w; resources := resources w; cache := cache w;
     _promises := _promises w; promises := promises w; alls := alls w;
     fetches := fetches w; microtasks := microtasks w; heap := f (heap w) |}.

(** [new PotionBase({prefix, cache})] *)
Definition create (prefix : string) (c : option (gmap string nat)) : World :=
  {| _prefix := prefix; resources := []; cache := c; _promises := ∅;
     promises := []; alls := ∅; fetches := []; microtasks := []; heap := [] |}.

(** Synchronous code: it returns or throws, and changes the world. *)
Inductive outcome (A : Type) :=
| Return (a : A)
| Throw (e : error).
Arguments Return {A} a.
Arguments Throw {A} e.

Definition M (A : Type) : Type := World → outcome A * World.

Definition ret {A} (a : A) : M A := λ w, (Return a, w).
Definition throw {A} (e : error) : M A := λ w, (Throw e, w).
Definition bind {A B} (c : M A) (k : A → M B) : M B :=
  λ w, match c w with
       | (Return a, w') => k a w'
       | (Throw e, w') => (Throw e, w')
       end.
Definition modify (f : World → World) : M unit := λ w, (Return tt, f w).

Notation "x ←M c ; k" := (bind c (λ x, k))
  (at level 100, c at next level, right associativity,
   format "'[' x  ←M  c ;  '/' k ']'").
Notation "c ;;M k" := (bind c (λ _, k))
  (at level 100, right associativity).

(** *** Promise operations *)

Definition enqueue (j : job) : World → World := set_microtasks (λ q, q ++ [j]).

(** A new promise in state [st]. *)
Definition new_promise (st : pstate) : M nat :=
  λ w, (Return (length (promises w)), set_promises (λ ps, ps ++ [st]) w).

(** [Promise.resolve(v)] for a [v] that is not a promise. *)
Definition promise_resolve (v : value) : M nat := new_promise (Fulfilled v).

(** Registers reaction [r] on promise [p]: kept while [p] is pending,
    queued as a job at once when [p] is settled. *)
Definition subscribe (p : nat) (r : reaction) (w : World) : World :=
  match promises w !! p with
  | Some (Pending rs) => set_promises (<[p := Pending (rs ++ [r])]>) w
  | Some (Fulfilled v) => enqueue (JReaction r (inl v)) w
  | Some (Rejected e) => enqueue (JReaction r (inr e)) w
  | None => w
  end.

(** [p.then(k)] *)
Definition then_ (p : nat) (k : callback) : M nat :=
  d ←M new_promise (Pending []);
  modify (subscribe p (RThen k d)) ;;M
  ret d.

(** The resolving functions of promise [d], called with a settlement that
    is not a promise; they do nothing once [d] is settled. *)
Definition settle (d : nat) (x : value + error) (w : World) : World :=
  match promises w !! d with
  | Some (Pending rs) =>
      set_microtasks (λ q, q ++ ((λ r, JReaction r x) <$> rs))
        (set_promises
           (<[d := match x with inl v => Fulfilled v | inr e => Rejected e end]>) w)
  | _ => w
  end.

(** [Promise.all(ps)] on a list of promises. *)
Definition promise_all (ps : list nat) : M nat :=
  match ps with
  | [] => new_promise (Fulfilled (VArr []))
  | _ =>
      a ←M new_promise (Pending []);
      modify (set_alls (<[a := replicate (length ps) None]>)) ;;M
      modify (λ w, foldl (λ w' '(i, p), subscribe p (RAllElem a i) w') w (imap pair ps)) ;;M
      ret a
  end.

(** [l.map(f)] for an [f] with effects, and a [for] loop that pushes. *)
Fixpoint traverse {A B} (f : A → M B) (l : list A) : M (list B) :=
  match l with
  | [] => ret []
  | x :: l' => b ←M f x; bs ←M traverse f l'; ret (b :: bs)
  end.

(** ** URI resolver *)

Record ParsedURI := {
  uri : string;
  resource : ItemConstructor;
  params : list string
}.

(** The loop of [parseURI] over [Object.entries(this.resources)]. *)
Fixpoint find_resource (uri : string) (entries : list (string * ItemConstructor))
  : option (string * ItemConstructor) :=
  match entries with
  | [] => None
  | (resourceURI, r) :: rest =>
      if decide (JsString.indexOf uri (resourceURI +:+ "/") = Some 0)
      then Some (resourceURI, r)
      else find_resource uri rest
  end.

(** [uri.substring(this._prefix.length)] when [uri] starts with the prefix. *)
Definition strip_prefix (prefix uri : string) : string :=
  if decide (JsString.indexOf uri prefix = Some 0)
  then JsString.substring (String.length prefix) uri
  else uri.

Definition parseURI (w : World) (uri : string) : outcome ParsedURI :=
  match JsString.decodeURIComponent uri with
  | None => Throw URIError
  | Some uri =>
      let uri := strip_prefix (_prefix w) uri in
      match find_resource uri (JsObject.entries (resources w)) with
      | Some (resourceURI, r) =>
          Return {| uri := uri; resource := r;
                    params := JsString.split "/"
                                (JsString.substring (String.length resourceURI + 1) uri) |}
      | None => Throw (Error ("Uninterpretable or unknown resource URI: " +:+ uri))
      end
  end.

Definition parseURI_M (uri : string) : M ParsedURI := λ w, (parseURI w uri, w).

(** [register(uri, resource)] *)
Definition register (uri : string) (resource : ItemConstructor) : World → World :=
  set_resources (JsObject.set uri resource).

(** ** Cache collaborator

    Modelled from the spec: the cache adapter is supplied from outside and
    [base.ts] only declares its interface; §4.5 gives it the operations
    [get(uri) -> entity|absent], [set(uri, entity)] and [clear(uri)]. *)

Definition cache_get (uri : string) (w : World) : option nat :=
  c ← cache w; c !! uri.

Definition cache_set (uri : string) (instance : nat) : World → World :=
  set_cache (fmap (<[uri := instance]>)).

Definition cache_clear (uri : string) : World → World :=
  set_cache (fmap (delete uri)).

(** ** Request dispatcher *)

(** [request(uri, options)]: the API prefix is added if not present, the
    transport is called, and its promise is pending until the transport
    settles it. *)
Definition prefixed (w : World) (uri : string) : string :=
  match JsString.indexOf uri (_prefix w) with
  | None => _prefix w +:+ uri
  | Some _ => uri
  end.

Definition request (uri : string) (options : PotionRequestOptions) : M nat :=
  λ w,
    (Return (length (fetches w)),
     set_fetches (λ fs, fs ++ [{| fetch_uri := prefixed w uri; fetch_options := options;
                                   fetch_state := FPending [] |}]) w).

Definition set_fetch_state (f : nat) (st : fstate) : World → World :=
  set_fetches (λ fs, match fs !! f with
                     | Some x => <[f := {| fetch_uri := fetch_uri x;
                                           fetch_options := fetch_options x;
                                           fetch_state := st |}]> fs
                     | None => fs
                     end).

(** [f.then(k)] on the promise of transport call [f]. *)
Definition fetch_then (f : nat) (k : fcallback) : M nat :=
  d ←M new_promise (Pending []);
  modify (λ w, match fetch_state <$> fetches w !! f with
               | Some (FPending rs) => set_fetch_state f (FPending (rs ++ [(k, d)])) w
               | Some (FFulfilled j) => enqueue (JFetch k d (inl j)) w
               | Some (FRejected e) => enqueue (JFetch k d (inr e)) w
               | None => w
               end) ;;M
  ret d.

Definition get (uri : string) (options : PotionRequestOptions) : M nat :=
  λ w,
    match cache_get uri w with
    | Some instance => promise_resolve (VInst instance) w
    | None =>
        match _promises w !! uri with
        | Some promise => (Return promise, w)
        | None =>
            (f ←M request uri (with_method GET options);
             promise ←M fetch_then f (KGetThen uri);
             modify (set_ledger (<[uri := promise]>)) ;;M
             ret promise) w
        end
    end.

(** [item.uri] for an entity of the base class [Item], whose constructor
    copies the property bag onto the instance; [None] is [undefined]. *)
Definition Item_uri (item : Item) : option string :=
  match JsObject.get "uri" (Item_properties item) with
  | Some (VStr u) => Some u
  | _ => None
  end.

(** [item.uri] as the argument of [request]: [uri.indexOf] on an
    [undefined] uri is a [TypeError]. *)
Definition uri_of (item : Item) : M string :=
  match Item_uri item with
  | Some u => ret u
  | None => throw TypeError
  end.

Definition update (item : Item) (data : option json) : M nat :=
  uri ←M uri_of item;
  f ←M request uri
         {| method := Some PUT; cache_option := None;
            data := Some (default (JObj []) data) |};
  fetch_then f KHydrate.

Definition save (rootUri : string) (data : option json) : M nat :=
  f ←M request rootUri
         {| method := Some POST; cache_option := None;
            data := Some (default (JObj []) data) |};
  fetch_then f KHydrate.

Definition destroy (item : Item) : M nat :=
  uri ←M uri_of item;
  f ←M request uri {| method := Some DELETE; cache_option := None; data := None |};
  fetch_then f (KDestroy uri).

(** The [id] getter of [Item], for an item bound to engine [w]; [None] is
    [null], [Some None] is [NaN]. *)
Definition Item_id (w : World) (item : Item) : outcome (option (option Z)) :=
  match Item_uri item with
  | None | Some EmptyString => Return None
  | Some u =>
      match parseURI w u with
      | Return r => Return (Some (head (params r) ≫= JsString.parseInt10))
      | Throw e => Throw e
      end
  end.

(** ** JSON hydrator *)

Definition scalar (j : json) : value :=
  match j with
  | JNull => VNull
  | JBool b => VBool b
  | JNum n => VNum n
  | JStr s => VStr s
  | _ => VUndefined
  end.

Fixpoint _fromPotionJSON (json : json) : M nat :=
  match json with
  | JArr items =>
      ps ←M traverse _fromPotionJSON items;
      promise_all ps
  | JObj props =>
      let plain : M nat :=
        ps ←M traverse (λ '(key, v), h ←M _fromPotionJSON v; then_ h (KPair key)) props;
        a ←M promise_all ps;
        then_ a KObject in
      match JsObject.get "$uri" props with
      | Some (JStr raw) =>
          r ←M parseURI_M raw;
          ps ←M traverse (λ '(key, v),
                        if String.eqb key "$uri"
                        then promise_resolve (VArr [VStr key; VStr (uri r)])
                        else h ←M _fromPotionJSON v; then_ h (KPair key)) props;
          a ←M promise_all ps;
          then_ a (KInstance (resource r) (uri r))
      | _ =>
          if length props =? 1 then
            match JsObject.get "$ref" props with
            | Some (JStr ref) =>
                r ←M parseURI_M ref;
                get (uri r) no_options
            | _ =>
                match JsObject.get "$date" props with
                | Some d => promise_resolve (VDate d)
                | None => plain
                end
            end
          else plain
      end
  | _ => promise_resolve (scalar json)
  end.

(** ** Continuations *)

(** The [[key, value]] pairs held by an array, when it is an array of
    such pairs. *)
Definition pair_of (v : value) : option (string * value) :=
  match v with
  | VArr [VStr k; x] => Some (k, x)
  | _ => None
  end.

Definition pairs_of (v : value) : option (list (string * value)) :=
  match v with
  | VArr items => mapM pair_of items
  | _ => None
  end.

(** Modelled from the spec: [pairsToObject] of [./utils], which is not
    part of [base.ts]; §4.3 has it assemble a property bag from (key,
    value) pairs, so each pair is assigned in turn to a fresh object. *)
Definition pairsToObject (pairs : list (string * value)) : list (string * value) :=
  foldl (λ o '(k, v), JsObject.set k v o) [] pairs.

(** The argument object of the constructor call in the [$uri] branch. *)
Definition entity_properties (properties : list (string * value)) : list (string * value) :=
  let obj :=
    foldl (λ obj key, JsObject.set key (default VUndefined (JsObject.get key properties)) obj)
      [] (filter (λ key, key ≠ "$uri") (JsObject.keys properties)) in
  JsObject.set "uri" (default VUndefined (JsObject.get "$uri" properties)) obj.

(** [Reflect.construct(resource, [obj])] *)
Definition construct (resource : ItemConstructor) (obj : list (string * value)) : M nat :=
  λ w, (Return (length (heap w)),
        set_heap (λ h, h ++ [{| Item_constructor := resource; Item_properties := obj |}]) w).

Section Engine.

(** [toCamelCase] of [./utils], the naming convention of the host. *)
Variable toCamelCase : string → string.

(** A callback passed to [then] on a promise of hydrated values, run on
    the value [v] the promise was fulfilled with. *)
Definition run_callback (k : callback) (v : value) : M value :=
  match k with
  | KPair key => ret (VArr [VStr (toCamelCase key); v])
  | KObject =>
      match pairs_of v with
      | Some propertyValuePairs => ret (VObj (pairsToObject propertyValuePairs))
      | None => throw TypeError
      end
  | KInstance resource uri =>
      match pairs_of v with
      | Some propertyValuePairs =>
          let properties := pairsToObject propertyValuePairs in
          instance ←M construct resource (entity_properties properties);
          modify (cache_set uri instance) ;;M
          ret (VInst instance)
      | None => throw TypeError
      end
  end.

(** A callback passed to [then] on the promise of a transport call, run
    on the document [json] of the response; [inr] is a promise it
    returns. *)
Definition run_fcallback (k : fcallback) (json : json) : M (value + nat) :=
  match k with
  | KGetThen uri =>
      modify (set_ledger (delete uri)) ;;M
      q ←M _fromPotionJSON json;
      ret (inr q)
  | KHydrate =>
      q ←M _fromPotionJSON json;
      ret (inr q)
  | KDestroy uri =>
      modify (λ w, match cache_get uri w with
                   | Some _ => cache_clear uri w
                   | None => w
                   end) ;;M
      ret (inl VUndefined)
  end.

(** Slot [i] of the [Promise.all] promise [a] receives [v]; [a] is
    fulfilled once every slot is filled. *)
Definition all_resolve_element (a i : nat) (v : value) (w : World) : World :=
  match alls w !! a with
  | Some slots =>
      let slots := <[i := Some v]> slots in
      let w := set_alls (<[a := slots]>) w in
      match mapM id slots with
      | Some values => settle a (inl (VArr values)) w
      | None => w
      end
  | None => w
  end.

(** The resolving function of [d] called with what a callback returned:
    a value settles [d], a promise is followed in a later job. *)
Definition resolve_with (d : nat) (r : value + nat) (w : World) : World :=
  match r with
  | inl v => settle d (inl v) w
  | inr q =>
      if decide (q = d) then settle d (inr TypeError) w
      else enqueue (JThenable d q) w
  end.

Definition run_job (j : job) (w : World) : World :=
  match j with
  | JReaction (RThen k d) (inl v) =>
      match run_callback k v w with
      | (Return v', w') => settle d (inl v') w'
      | (Throw e, w') => settle d (inr e) w'
      end
  | JReaction (RThen k d) (inr e) => settle d (inr e) w
  | JReaction (RAllElem a i) (inl v) => all_resolve_element a i v w
  | JReaction (RAllElem a i) (inr e) => settle a (inr e) w
  | JReaction (RAdopt d) x => settle d x w
  | JFetch k d (inl json) =>
      match run_fcallback k json w with
      | (Return r, w') => resolve_with d r w'
      | (Throw e, w') => settle d (inr e) w'
      end
  | JFetch k d (inr e) => settle d (inr e) w
  | JThenable d q => subscribe q (RAdopt d) w
  end.

(** ** Events

    What can happen to an engine: its methods are called, the transport
    settles one of its calls, the next microtask runs, or the cache
    collaborator is changed from outside. *)

Inductive event :=
| Call_get (uri : string) (options : PotionRequestOptions)
| Call_update (item : Item) (data : option json)
| Call_save (rootUri : string) (data : option json)
| Call_destroy (item : Item)
| Call_fromPotionJSON (json : json)
| Call_register (uri : string) (resource : ItemConstructor)
| Respond (f : nat) (json : json)
| Fail (f : nat) (e : error)
| Tick
| Cache_set (uri : string) (instance : nat)
| Cache_clear (uri : string).

(** The transport settles the promise of call [f]. *)
Definition settle_fetch (f : nat) (x : json + error) (w : World) : World :=
  match fetch_state <$> fetches w !! f with
  | Some (FPending rs) =>
      set_microtasks (λ q, q ++ ((λ '(k, d), JFetch k d x) <$> rs))
        (set_fetch_state f
           (match x with inl j => FFulfilled j | inr e => FRejected e end) w)
  | _ => w
  end.

Definition tick (w : World) : World :=
  match microtasks w with
  | [] => w
  | j :: q => run_job j (set_microtasks (λ _, q) w)
  end.

Definition exec (e : event) (w : World) : World :=
  match e with
  | Call_get uri options => (get uri options w).2
  | Call_update item data => (update item data w).2
  | Call_save rootUri data => (save rootUri data w).2
  | Call_destroy item => (destroy item w).2
  | Call_fromPotionJSON json => (_fromPotionJSON json w).2
  | Call_register uri resource => register uri resource w
  | Respond f json => settle_fetch f (inl json) w
  | Fail f e => settle_fetch f (inr e) w
  | Tick => tick w
  | Cache_set uri instance => cache_set uri instance w
  | Cache_clear uri => cache_clear uri w
  end.

Definition run (evs : list event) (w : World) : World :=
  foldl (λ w e, exec e w) w evs.

(** Runs up to [n] microtasks. *)
Fixpoint drain (n : nat) (w : World) : World :=
  match n with
  | 0 => w
  | S n' => match microtasks w with [] => w | _ => drain n' (tick w) end
  end.

End Engine.

(** Modelled from the spec: [toCamelCase] of [./utils], which is not part
    of [base.ts]; §4.3 has it rename a field from the wire convention to
    the host one, [first_name] becoming [firstName] (§8.2): an underscore
    before a lower-case letter or digit is dropped and the letter is put
    in upper case. *)
Fixpoint toCamelCase (s : string) : string :=
  match s with
  | String "_" ((String c rest) as tail) =>
      let n := N_of_ascii c in
      if ((97 <=? n) && (n <=? 122))%N then String (ascii_of_N (n - 32)) (toCamelCase rest)
      else if ((48 <=? n) && (n <=? 57))%N then String c (toCamelCase rest)
      else String "_" (toCamelCase tail)
  | String c rest => String c (toCamelCase rest)
  | EmptyString => EmptyString
  end.

(** ** Notions used in the statements *)

(** A name without upper-case letters and digits. *)
Fixpoint lower_name (s : string) : bool :=
  match s with
  | EmptyString => true
  | String c rest =>
      let n := N_of_ascii c in
      negb ((65 <=? n) && (n <=? 90))%N && negb ((48 <=? n) && (n <=? 57))%N &&
      lower_name rest
  end.

(** [s] starts with [p]. *)
Definition starts_with (s p : string) : Prop := ∃ t, s = p +:+ t.

(** The resolver as §4.1 of the specification words it: the global
    prefix is stripped when the URI starts with it, the registered
    prefixes are tried in order, and the path after the first matching
    [p/] is split on [/]. *)
Definition parseURI_as_specified (w : World) (uri : string) : outcome ParsedURI :=
  let uri := strip_prefix (_prefix w) uri in
  match find_resource uri (resources w) with
  | Some (p, r) =>
      Return {| uri := uri; resource := r;
                params := JsString.split "/"
                            (JsString.substring (String.length p + 1) uri) |}
  | None => Throw (Error ("Uninterpretable or unknown resource URI: " +:+ uri))
  end.

(** The engine after the registrations [regs], made in that order. *)
Definition registered (regs : list (string * ItemConstructor)) (w : World) : World :=
  foldl (λ w '(p, c), register p c w) w regs.

(** The promise a reaction or a job is going to settle. *)
Definition reaction_target (r : reaction) : nat :=
  match r with
  | RThen _ d => d
  | RAllElem a _ => a
  | RAdopt d => d
  end.

Definition job_target (j : job) : nat :=
  match j with
  | JReaction r _ => reaction_target r
  | JFetch _ d _ => d
  | JThenable d _ => d
  end.

Definition fetch_targets (f : fetch) : list nat :=
  match fetch_state f with
  | FPending rs => rs.*2
  | _ => []
  end.

(** [d] is a promise created since there were [n] promises, up to [w']. *)
Definition fresh (n : nat) (w' : World) (d : nat) : Prop :=
  n ≤ d < length (promises w').

(** How promises, transport calls and jobs grow from [w] to [w'] while
    engine code runs, [n] being the number of promises when it started:
    settled promises stay as they are, pending ones receive reactions,
    new promises, transport calls and jobs are added, and whatever is
    added settles a promise created since the start. *)
Record growb (n : nat) (w w' : World) : Prop := {
  grow_length : length (promises w) ≤ length (promises w');
  grow_settled : ∀ p st, promises w !! p = Some st → (∀ rs, st ≠ Pending rs) →
                 promises w' !! p = Some st;
  grow_pending : ∀ p rs, promises w !! p = Some (Pending rs) →
                 ∃ rs', promises w' !! p = Some (Pending (rs ++ rs')) ∧
                        Forall (λ r, fresh n w' (reaction_target r)) rs';
  grow_new : ∀ p rs, length (promises w) ≤ p → promises w' !! p = Some (Pending rs) →
             Forall (λ r, fresh n w' (reaction_target r)) rs;
  grow_fetches : ∃ fs, fetches w' = fetches w ++ fs ∧
                       Forall (λ f, Forall (fresh n w') (fetch_targets f)) fs;
  grow_microtasks : ∃ js, microtasks w' = microtasks w ++ js ∧
                          Forall (λ j, ∃ r x, j = JReaction r x ∧
                                              fresh n w' (reaction_target r)) js
}.

(** What synchronous engine code leaves alone: the configuration, the
    cache and the heap; ledger entries are only added, as are the records
    of [Promise.all]. *)
Record framed (n : nat) (w w' : World) : Prop := {
  ext_prefix : _prefix w' = _prefix w;
  ext_resources : resources w' = resources w;
  ext_cache : cache w' = cache w;
  ext_heap : heap w' = heap w;
  ext_ledger : ∀ u p, _promises w !! u = Some p → _promises w' !! u = Some p;
  ext_alls : ∀ a, a < n → alls w' !! a = alls w !! a
}.

Definition extb (n : nat) (w w' : World) : Prop := growb n w w' ∧ framed n w w'.

Definition grow (w w' : World) : Prop := growb (length (promises w)) w w'.

Definition ext (w w' : World) : Prop := extb (length (promises w)) w w'.

(** Where the resolving functions of a promise are kept: in a reaction
    held by a pending promise, in a reaction on a pending transport call,
    or in a job of the microtask queue. *)
Definition holds (w : World) (q : nat) (r : reaction) : Prop :=
  ∃ rs, promises w !! q = Some (Pending rs) ∧ r ∈ rs.

Definition awaits (w : World) (f : nat) (k : fcallback) (d : nat) : Prop :=
  ∃ x rs, fetches w !! f = Some x ∧ fetch_state x = FPending rs ∧ (k, d) ∈ rs.

Definition queued (w : World) (j : job) : Prop := j ∈ microtasks w.

Definition settlement (x : value + error) : pstate :=
  match x with inl v => Fulfilled v | inr e => Rejected e end.

Definition settled_with (w : World) (p : nat) (x : value + error) : Prop :=
  promises w !! p = Some (settlement x).

Definition is_pending (w : World) (p : nat) : Prop :=
  ∃ rs, promises w !! p = Some (Pending rs).

(** Every reaction and job is about a promise that exists. *)
Record wf (w : World) : Prop := {
  wf_holds : ∀ q r, holds w q r → reaction_target r < length (promises w);
  wf_awaits : ∀ f k d, awaits w f k d → d < length (promises w);
  wf_queued : ∀ j, queued w j → job_target j < length (promises w)
}.

Definition fsettlement (x : json + error) : fstate :=
  match x with inl j => FFulfilled j | inr e => FRejected e end.

(** What the callback of a job does before the job settles its promise. *)
Definition after_callback (tc : string → string) (j : job) (w : World) : World :=
  match j with
  | JReaction (RThen k d) (inl v) => (run_callback tc k v w).2
  | JReaction (RAllElem a i) (inl v) =>
      match alls w !! a with
      | Some slots => set_alls (<[a := <[i := Some v]> slots]>) w
      | None => w
      end
  | JFetch k d (inl json) => (run_fcallback k json w).2
  | _ => w
  end.

(** What a job does to its promise once its callback has run: nothing,
    or it settles it, or it lets it follow promise [q]. *)
Inductive finish := Leave | Settle (x : value + error) | Follow (q : nat).

Definition job_finish (tc : string → string) (j : job) (w : World) : finish :=
  match j with
  | JReaction (RThen k d) (inl v) =>
      match (run_callback tc k v w).1 with
      | Return v' => Settle (inl v')
      | Throw e => Settle (inr e)
      end
  | JReaction (RThen k d) (inr e) => Settle (inr e)
  | JReaction (RAllElem a i) (inl v) =>
      match alls w !! a with
      | Some slots =>
          match mapM id (<[i := Some v]> slots) with
          | Some values => Settle (inl (VArr values))
          | None => Leave
          end
      | None => Leave
      end
  | JReaction (RAllElem a i) (inr e) => Settle (inr e)
  | JReaction (RAdopt d) x => Settle x
  | JFetch k d (inl json) =>
      match (run_fcallback k json w).1 with
      | Return (inl v) => Settle (inl v)
      | Return (inr q) => if decide (q = d) then Settle (inr TypeError) else Follow q
      | Throw e => Settle (inr e)
      end
  | JFetch k d (inr e) => Settle (inr e)
  | JThenable d q => Leave
  end.

(** The worlds an engine can be in: it was created, and events happened. *)
Definition reachable (tc : string → string) (w : World) : Prop :=
  ∃ prefix c evs, w = run tc evs (create prefix c).

(** Event [e] is the transport settling call [f] with [x]. *)
Definition settles (e : event) (f : nat) (x : json + error) : Prop :=
  match e with
  | Respond f' j => f' = f ∧ x = inl j
  | Fail f' err => f' = f ∧ x = inr err
  | _ => False
  end.

(** What a step from [w] to [w'] that does not run a job of promise [p]
    does to [p] and to its resolving functions: [p] stays pending, no
    reaction or job for [p] appears except by moving -- a reaction held
    by a promise that the step settles becomes a job, as does a reaction
    on a transport call that the step settles -- and none is lost. *)
Record undisturbed (p : nat) (S : nat → json + error → Prop) (w w' : World) : Prop := {
  und_length : length (promises w) ≤ length (promises w');
  und_settled : ∀ q x, settled_with w q x → settled_with w' q x;
  und_pending : is_pending w p → is_pending w' p;
  und_holds : ∀ q r, holds w' q r → reaction_target r = p → holds w q r;
  und_awaits : ∀ f k, awaits w' f k p → awaits w f k p;
  und_queued : ∀ j, queued w' j → job_target j = p →
               queued w j ∨
               (∃ q r x, j = JReaction r x ∧ holds w q r ∧ settled_with w' q x) ∨
               (∃ f k x, j = JFetch k p x ∧ awaits w f k p ∧ S f x);
  und_holds_fwd : ∀ q r, holds w q r → reaction_target r = p →
                  holds w' q r ∨
                  ∃ x, settled_with w' q x ∧ queued w' (JReaction r x);
  und_awaits_fwd : ∀ f k, awaits w f k p →
                   awaits w' f k p ∨ ∃ x, queued w' (JFetch k p x) ∧ S f x;
  und_queued_fwd : ∀ j, queued w j → job_target j = p → queued w' j;
  und_alls : alls w' !! p = alls w !! p;
  und_heap : ∀ i item, heap w !! i = Some item → heap w' !! i = Some item
}.

(** The URIs whose response is still to be processed: the continuation
    of a [get()] waits on a pending transport call, or in the queue with
    the document of the response. *)
Definition get_of (k : fcallback) : list string :=
  match k with KGetThen u => [u] | _ => [] end.

Definition gets_of_fetch (x : fetch) : list string :=
  match fetch_state x with FPending rs => rs.*1 ≫= get_of | _ => [] end.

Definition gets_of_job (j : job) : list string :=
  match j with JFetch k _ (inl _) => get_of k | _ => [] end.

Definition pending_gets (w : World) : list string :=
  (fetches w ≫= gets_of_fetch) ++ (microtasks w ≫= gets_of_job).

(** The ledger has an entry for every such URI, and no URI is awaited
    twice. *)
Record ledger_ok (w : World) : Prop := {
  pending_nodup : NoDup (pending_gets w);
  pending_ledger : ∀ u, u ∈ pending_gets w → is_Some (_promises w !! u)
}.

(** The ledger holds promise [p] for [u], and a response for [u] can only
    come from the transport calls in [F]. *)
Record in_flight (u : string) (p : nat) (F : nat → Prop) (w : World) : Prop := {
  in_flight_ledger : _promises w !! u = Some p;
  in_flight_fetch : ∀ f x, fetches w !! f = Some x → u ∈ gets_of_fetch x → F f;
  in_flight_queue : u ∉ microtasks w ≫= gets_of_job
}.

(** A step from [w] to [w'] keeps property [I]. *)
Definition keeps (I : World → Prop) (w w' : World) : Prop := I w → I w'.

(** A step that keeps the transport calls, the URIs awaited in the queue
    and the ledger. *)
Definition same_gets (w w' : World) : Prop :=
  fetches w' = fetches w ∧
  microtasks w' ≫= gets_of_job = microtasks w ≫= gets_of_job ∧
  _promises w' = _promises w.

(** The promise [p] of a [get()] for [u] waits for the transport to settle
    call [f]: nothing else can settle it. *)
Record waiting (u : string) (p f : nat) (w : World) : Prop := {
  waiting_bound : p < length (promises w);
  waiting_pending : is_pending w p;
  waiting_on : awaits w f (KGetThen u) p;
  waiting_holds : ∀ q r, holds w q r → reaction_target r ≠ p;
  waiting_awaits : ∀ f' k, awaits w f' k p → f' = f ∧ k = KGetThen u;
  waiting_queued : ∀ j, queued w j → job_target j ≠ p
}.

(** The transport call of the [get()] for [u] has failed with [e]: its
    promise [p] is rejected with [e], or it is pending and the job that
    rejects it is in the queue, and nothing else can settle it. *)
Definition failing (u : string) (p : nat) (e : error) (w : World) : Prop :=
  p < length (promises w) ∧
  (settled_with w p (inr e) ∨
   (is_pending w p ∧
    queued w (JFetch (KGetThen u) p (inr e)) ∧
    (∀ q r, holds w q r → reaction_target r ≠ p) ∧
    (∀ f k, ¬ awaits w f k p) ∧
    (∀ j, queued w j → job_target j = p → j = JFetch (KGetThen u) p (inr e)))).

(** What [Promise.all] keeps between its promise [a] and the promises
    [ps] it was called on, apart from what [a] waits for: the slots
    filled so far hold the values of the promises at the same index, only
    the reactions that [Promise.all] registered can settle [a], with a
    settlement of the promise they were registered on, and [a] is settled
    accordingly. *)
Record all_core (a : nat) (ps : list nat) (w : World) : Prop := {
  all_bound : a < length (promises w);
  all_before : ∀ i p, ps !! i = Some p → p < a;
  all_slots : ∃ slots, alls w !! a = Some slots ∧ length slots = length ps ∧
                ∀ i v, slots !! i = Some (Some v) →
                       ∃ p, ps !! i = Some p ∧ settled_with w p (inl v);
  all_holds : ∀ q r, holds w q r → reaction_target r = a →
              ∃ i, r = RAllElem a i ∧ ps !! i = Some q;
  all_awaits : ∀ f k, ¬ awaits w f k a;
  all_queued : ∀ j, queued w j → job_target j = a →
               ∃ i p x, j = JReaction (RAllElem a i) x ∧ ps !! i = Some p ∧
                        settled_with w p x;
  all_fulfilled : ∀ y, settled_with w a (inl y) →
                  ∃ vs, y = VArr vs ∧ Forall2 (λ p v, settled_with w p (inl v)) ps vs;
  all_rejected : ∀ e, settled_with w a (inr e) → ∃ p, p ∈ ps ∧ settled_with w p (inr e)
}.

(** What a pending [a] waits for: a slot is still empty, and for every
    empty slot the reaction is held by the promise at that index, or
    that promise is settled and the job is in the queue. *)
Definition all_waits (a : nat) (ps : list nat) (w : World) : Prop :=
  is_pending w a →
  ∃ slots, alls w !! a = Some slots ∧
    (∃ i, slots !! i = Some None) ∧
    ∀ i p, ps !! i = Some p → slots !! i = Some None →
      holds w p (RAllElem a i) ∨
      ∃ x, settled_with w p x ∧ queued w (JReaction (RAllElem a i) x).

Definition all_link (a : nat) (ps : list nat) (w : World) : Prop :=
  all_core a ps w ∧ all_waits a ps w.

(** [y] is what callback [k] returns on [v] in a world that ends as [w]. *)
Definition callback_value (tc : string → string) (k : callback) (v y : value)
    (w : World) : Prop :=
  match k with
  | KPair key => y = VArr [VStr (tc key); v]
  | KObject => ∃ pairs, pairs_of v = Some pairs ∧ y = VObj (pairsToObject pairs)
  | KInstance resource uri =>
      ∃ pairs i, pairs_of v = Some pairs ∧ y = VInst i ∧
        heap w !! i = Some {| Item_constructor := resource;
                              Item_properties := entity_properties (pairsToObject pairs) |}
  end.

Definition callback_throws (k : callback) (v : value) (e : error) : Prop :=
  match k with
  | KPair _ => False
  | _ => pairs_of v = None ∧ e = TypeError
  end.

(** What [p.then(k)] keeps between [p] and the promise [d] it returned. *)
Record then_core (tc : string → string) (p : nat) (k : callback) (d : nat)
    (w : World) : Prop := {
  then_bound : d < length (promises w);
  then_before : p < d;
  then_holds : ∀ q r, holds w q r → reaction_target r = d → q = p ∧ r = RThen k d;
  then_awaits : ∀ f k', ¬ awaits w f k' d;
  then_queued : ∀ j, queued w j → job_target j = d →
                ∃ x, j = JReaction (RThen k d) x ∧ settled_with w p x;
  then_fulfilled : ∀ y, settled_with w d (inl y) →
                   ∃ v, settled_with w p (inl v) ∧ callback_value tc k v y w;
  then_rejected : ∀ e, settled_with w d (inr e) →
                  settled_with w p (inr e) ∨
                  ∃ v, settled_with w p (inl v) ∧ callback_throws k v e
}.

Definition then_waits (p : nat) (k : callback) (d : nat) (w : World) : Prop :=
  is_pending w d →
  holds w p (RThen k d) ∨ ∃ x, settled_with w p x ∧ queued w (JReaction (RThen k d) x).

Definition then_link (tc : string → string) (p : nat) (k : callback) (d : nat)
    (w : World) : Prop :=
  then_core tc p k d w ∧ then_waits p k d w.

(** The URIs that hydrating [j] hands to the resolver, at most. *)
Fixpoint uris (j : json) : list string :=
  match j with
  | JArr items => items ≫= uris
  | JObj props =>
      props ≫= (λ '(key, v),
                  match v with
                  | JStr s => if decide (key = "$uri" ∨ key = "$ref") then [s] else []
                  | _ => uris v
                  end)
  | _ => []
  end.

(** [h] is a promise that the hydrator returned for [j], called in a
    world that synchronous engine code reached from [w]. *)
Definition hydrated (w : World) (j : json) (h : nat) : Prop :=
  ∃ wa wb, ext w wa ∧ _fromPotionJSON j wa = (Return h, wb).

(** The promises of the ledger exist. *)
Definition ledger_bound (w : World) : Prop :=
  ∀ u p, _promises w !! u = Some p → p < length (promises w).

(** What the [$uri] branch keeps for the field [kv] of the document,
    between the promise [e] it pushed and, for a field other than
    [$uri], the promise [h] of the hydration of its value. *)
Definition field_link (tc : string → string) (r : ParsedURI) (w0 : World)
    (kv : string * json) (oh : option nat) (e : nat) (w : World) : Prop :=
  e < length (promises w) ∧
  match oh with
  | None => kv.1 = "$uri" ∧ settled_with w e (inl (VArr [VStr "$uri"; VStr (uri r)]))
  | Some h => kv.1 ≠ "$uri" ∧ hydrated w0 kv.2 h ∧ then_link tc h (KPair kv.1) e w
  end.

(** The promises of one run of the [$uri] branch: [hs] for the values of
    the fields, [es] pushed to [promises], [a] of [Promise.all] and [d]
    that the branch returns. *)
Record entity_link (tc : string → string) (r : ParsedURI) (w0 : World)
    (props : list (string * json)) (hs : list (option nat)) (es : list nat)
    (a d : nat) (w : World) : Prop := {
  entity_fields : Forall3 (λ kv oh e, field_link tc r w0 kv oh e w) props hs es;
  entity_all : all_link a es w;
  entity_then : then_link tc a (KInstance (resource r) (uri r)) d w
}.

(** The (key, value) pair that a field of the document contributes to
    the property bag, once the promise of its value is fulfilled in [w]. *)
Definition field_of (tc : string → string) (r : ParsedURI) (w0 w : World)
    (kv : string * json) (oh : option nat) (f : string * value) : Prop :=
  match oh with
  | None => kv.1 = "$uri" ∧ f = ("$uri", VStr (uri r))
  | Some h => kv.1 ≠ "$uri" ∧ hydrated w0 kv.2 h ∧
              f.1 = tc kv.1 ∧ settled_with w h (inl f.2)
  end.

(** The promise that computation [c] returns exists when [c] ends. *)
Definition bounded (c : M nat) : Prop :=
  ∀ w p w', c w = (Return p, w') → p < length (promises w').

(** The objects that the hydrator takes for neither an entity, nor a
    reference stub, nor a date: [$uri] is not a string, and an only key
    is neither [$ref] with a string nor [$date]. *)
Definition plain_object (props : list (string * json)) : Prop :=
  (∀ raw, JsObject.get "$uri" props ≠ Some (JStr raw)) ∧
  (length props = 1 →
   (∀ ref, JsObject.get "$ref" props ≠ Some (JStr ref)) ∧
   JsObject.get "$date" props = None).

(** The promises of one run of the last branch of the hydrator: [hs]
    for the values of the fields, [es] pushed to [promises], [a] of
    [Promise.all] and [d] that the branch returns. *)
Record object_link (tc : string → string) (w0 : World)
    (props : list (string * json)) (hs es : list nat) (a d : nat) (w : World) : Prop := {
  object_fields :
    Forall3 (λ kv h e, e < length (promises w) ∧ hydrated w0 kv.2 h ∧
                       then_link tc h (KPair kv.1) e w) props hs es;
  object_all : all_link a es w ∨ (es = [] ∧ settled_with w a (inl (VArr [])));
  object_then : then_link tc a KObject d w
}.

(** ** Stores

    [`${n}`] for a number that is a non-negative integer up to
    [2^53 - 1]: its decimal numeral. *)
Definition Number_toString (n : N) : string := pretty n.

(** The uri that [Store.fetch(id)] asks for, for a store of a resource
    with root uri [rootURI]. *)
Definition Store_uri (rootURI : string) (id : N) : string :=
  rootURI +:+ "/" +:+ Number_toString id.

Definition Store_fetch (rootURI : string) (id : N) (options : PotionRequestOptions) : M nat :=
  get (Store_uri rootURI id) options.

Definition Store_query (rootURI : string) (options : PotionRequestOptions) : M nat :=
  get rootURI options.

(** ** Routes

    What [register] attaches to a resource class besides the entry of
    the registry: the metadata that [route] reads back.  One engine is
    modelled, so a class has the metadata of the engine exactly when it
    has the one of its root uri, kept here; classes are taken not to
    extend one another. *)
Record Host := {
  engine : World;
  rootUris : gmap ItemConstructor string
}.

Definition Host_register (uri : string) (resource : ItemConstructor) (h : Host) : Host :=
  {| engine := register uri resource (engine h);
     rootUris := <[resource := uri]> (rootUris h) |}.

(** The variables of the closure that [route(uri, {method})] returns. *)
Record Route := {
  Route_uri : string;
  Route_method : option Method
}.

(** [this] in a call of that closure: a resource class, or an entity. *)
Inductive Receiver :=
| OnClass (c : ItemConstructor)
| OnInstance (item : Item).

Definition Receiver_class (this : Receiver) : ItemConstructor :=
  match this with
  | OnClass c => c
  | OnInstance item => Item_constructor item
  end.

(** The text that the closure puts before its uri: the root uri of the
    class, or the uri of the entity (a string, by its declaration);
    [undefined] prints as [undefined]. *)
Definition Receiver_root (h : Host) (this : Receiver) : string :=
  match this with
  | OnClass c => default "undefined" (rootUris h !! c)
  | OnInstance item => default "undefined" (Item_uri item)
  end.

(** [Object.assign({method}, options)] *)
Definition route_options (m : option Method) (options : option PotionRequestOptions)
  : PotionRequestOptions :=
  match options with
  | Some o =>
      {| method := match method o with Some m' => Some m' | None => m end;
         cache_option := cache_option o; data := data o |}
  | None => {| method := m; cache_option := None; data := None |}
  end.

(** A call of the closure: the uri of the closure is assigned, then
    [get] is called on the engine of the class. *)
Definition route_call (rt : Route) (this : Receiver)
    (options : option PotionRequestOptions) (h : Host) : Route * outcome nat * Host :=
  let uri := Receiver_root h this +:+ Route_uri rt in
  let rt' := {| Route_uri := uri; Route_method := Route_method rt |} in
  match rootUris h !! Receiver_class this with
  | Some _ =>
      let '(out, w) := get uri (route_options (Route_method rt) options) (engine h) in
      (rt', out, {| engine := w; rootUris := rootUris h |})
  | None => (rt', Throw TypeError, h)
  end.

(** [n] calls of the same closure on the same class. *)
Fixpoint route_calls (n : nat) (rt : Route) (c : ItemConstructor)
    (options : option PotionRequestOptions) (h : Host) : Route * Host :=
  match n with
  | 0 => (rt, h)
  | S n' =>
      let '(rt', _, h') := route_call rt (OnClass c) options h in
      route_calls n' rt' c options h'
  end.

(** The transport has settled call [f] with [x] in the course of [evs]. *)
Definition answered (evs : list event) (f : nat) (x : json + error) : Prop :=
  ∃ e, e ∈ evs ∧ settles e f x.

(** The continuation [k] of promise [p], registered on transport call
    [f], ran on the document [json] in the course of the events [evs]
    that followed [w1]: the transport had answered [json], and after the
    events [evs1] the job of the continuation was the first of the queue;
    [wa] is the world it ran in, the job removed. *)
Definition continued (tc : string → string) (k : fcallback) (f p : nat) (w1 : World)
    (evs : list event) (json : json) (wa : World) : Prop :=
  ∃ evs1 evs2 rest,
    evs = evs1 ++ Tick :: evs2 ∧ answered evs1 f (inl json) ∧
    microtasks (run tc evs1 w1) = JFetch k p (inl json) :: rest ∧
    wa = set_microtasks (λ _, rest) (run tc evs1 w1).

(** [q] is a promise that the continuation returned, which [p] follows. *)
Definition followed (tc : string → string) (k : fcallback) (f p : nat) (w1 : World)
    (evs : list event) (q : nat) : Prop :=
  q ≠ p ∧ ∃ json wa, continued tc k f p w1 evs json wa ∧
                     (run_fcallback k json wa).1 = Return (inr q).

(** What the engine keeps between the transport call [f] made in [w1],
    the promise [p] that [then] returned for its continuation [k], and
    the world [w] that the events [evs] lead to: only the transport, the
    continuation and the promise it returned can settle [p]. *)
Record response_core (tc : string → string) (k : fcallback) (f p : nat) (w1 : World)
    (evs : list event) (w : World) : Prop := {
  response_bound : p < length (promises w);
  response_holds : ∀ q r, holds w q r → reaction_target r = p →
                   r = RAdopt p ∧ followed tc k f p w1 evs q;
  response_awaits : ∀ f' k', awaits w f' k' p → f' = f ∧ k' = k;
  response_queued : ∀ j, queued w j → job_target j = p →
                    (∃ x, j = JFetch k p x ∧ answered evs f x) ∨
                    (∃ q, j = JThenable p q ∧ followed tc k f p w1 evs q ∧
                          q < length (promises w)) ∨
                    (∃ q x, j = JReaction (RAdopt p) x ∧ followed tc k f p w1 evs q ∧
                            settled_with w q x);
  response_settled : ∀ x, settled_with w p x →
                     (∃ e, x = inr e ∧ answered evs f (inr e)) ∨
                     (∃ json wa, continued tc k f p w1 evs json wa ∧
                        match (run_fcallback k json wa).1 with
                        | Return (inl v) => x = inl v
                        | Return (inr q) => q ≠ p ∧ settled_with w q x
                        | Throw e => x = inr e
                        end)
}.

(** What a pending [p] waits for. *)
Definition response_waits (tc : string → string) (k : fcallback) (f p : nat) (w1 : World)
    (evs : list event) (w : World) : Prop :=
  is_pending w p →
  awaits w f k p ∨
  (∃ x, queued w (JFetch k p x)) ∨
  (∃ q, followed tc k f p w1 evs q ∧
        (queued w (JThenable p q) ∨ holds w q (RAdopt p) ∨
         ∃ x, settled_with w q x ∧ queued w (JReaction (RAdopt p) x))).

Definition response_link (tc : string → string) (k : fcallback) (f p : nat) (w1 : World)
    (evs : list event) (w : World) : Prop :=
  response_core tc k f p w1 evs w ∧ response_waits tc k f p w1 evs w.

(** The ledger holds promise [p] at most for the uri of the [get()] whose
    continuation is [k]. *)
Definition ledger_only (k : fcallback) (p : nat) (w : World) : Prop :=
  p < length (promises w) ∧ ∀ u, _promises w !! u = Some p → k = KGetThen u.

(** The promise that computation [c] returns was not among the first [n]. *)
Definition lower (n : nat) (c : M nat) : Prop :=
  ∀ w q w', n ≤ length (promises w) → c w = (Return q, w') → n ≤ q.

(** The reference stubs that hydrating [j] hands to [get()]: the strings
    of the objects whose only key is [$ref], wherever the hydrator goes. *)
Fixpoint references (j : json) : list string :=
  match j with
  | JArr items => items ≫= references
  | JObj props =>
      match JsObject.get "$uri" props with
      | Some (JStr _) =>
          props ≫= (λ '(key, v), if String.eqb key "$uri" then [] else references v)
      | _ =>
          if length props =? 1 then
            match JsObject.get "$ref" props with
            | Some (JStr ref) => [ref]
            | _ =>
                match JsObject.get "$date" props with
                | Some _ => []
                | None => props ≫= (λ '(key, v), references v)
                end
            end
          else props ≫= (λ '(key, v), references v)
      end
  | _ => []
  end.

(** The ledger of [w] has an entry for every reference of [refs] that
    [w0] resolves to a uri that is not in its cache. *)
Definition ledgered (w0 : World) (refs : list string) (w : World) : Prop :=
  ∀ ref r, ref ∈ refs → parseURI w0 ref = Return r → cache_get (uri r) w0 = None →
           is_Some (_promises w !! uri r).

(** From [w] to [w'] synchronous engine code ran, and every entry that
    the ledger received came with its transport call. *)
Definition requests (w w' : World) : Prop :=
  ext w w' ∧
  ∀ u p, _promises w' !! u = Some p →
         _promises w !! u = Some p ∨
         (_promises w !! u = None ∧
          ∃ f o, length (fetches w) ≤ f ∧
                 fetches w' !! f = Some {| fetch_uri := prefixed w u;
                                           fetch_options := with_method GET o;
                                           fetch_state := FPending [(KGetThen u, p)] |}).

(** Every world that computation [c] leads to is [R]-related to the one
    it started in. *)
Definition preserves {A} (R : World → World → Prop) (c : M A) : Prop :=
  ∀ w, R w (c w).2.

(** A registry with one resource and an empty cache, and an entity of
    that resource, for the examples. *)
Definition ann : Item :=
  {| Item_constructor := "User"; Item_properties := [("uri", VStr "/user/5")] |}.

Definition users : World := registered [("/user", "User")] (create "" (Some ∅)).

(** * Properties *)

(** ** Strings and objects *)

Lemma prefix_starts_with p s : String.prefix p s = true ↔ starts_with s p.
Proof.
  revert s. induction p as [|a p IH]; intros s.
  - destruct s; (split; [intros _; by eexists | done]).
  - destruct s as [|b s]; simpl.
    + split; [done | intros [t Ht]].
      change (EmptyString = String a (p +:+ t)) in Ht. discriminate.
    + destruct (Ascii.ascii_dec a b) as [->|Hne].
      * rewrite IH. split; intros [t Ht]; exists t.
        -- subst. reflexivity.
        -- change (String b s = String b (p +:+ t)) in Ht. congruence.
      * split; [done | intros [t Ht]].
        change (String b s = String a (p +:+ t)) in Ht. congruence.
Qed.

Lemma indexOf_0 s x : JsString.indexOf s x = Some 0 ↔ starts_with s x.
Proof.
  rewrite <- prefix_starts_with. unfold JsString.indexOf.
  destruct s as [|b s]; cbn [String.index].
  - destruct x; simpl; split; congruence.
  - destruct (String.prefix x (String b s)); [split; done|].
    destruct (String.index 0 x s); split; congruence.
Qed.

Lemma substring_append x t : JsString.substring (String.length x) (x +:+ t) = t.
Proof.
  induction x as [|a x IH]; [by destruct t|].
  change (JsString.substring (String.length x) (x +:+ t) = t). done.
Qed.

Lemma length_append_1 p c :
  String.length (p +:+ String c EmptyString) = String.length p + 1.
Proof.
  induction p as [|a p IH]; [done|].
  change (S (String.length (p +:+ String c EmptyString)) = S (String.length p + 1)).
  by rewrite IH.
Qed.

Lemma strip_prefix_spec prefix decoded u :
  strip_prefix prefix decoded = u ↔
  decoded = prefix +:+ u ∨ (¬ starts_with decoded prefix ∧ u = decoded).
Proof.
  unfold strip_prefix. case_decide as H; rewrite indexOf_0 in H.
  - destruct H as [t ->]. rewrite substring_append. split.
    + intros ->. by left.
    + intros [Heq | [Hn _]]; [by apply (inj (String.app prefix)) in Heq|].
      destruct Hn. by exists t.
  - split; [intros ->; by right|]. intros [-> | [_ ->]]; [|done].
    destruct H. by eexists.
Qed.

Lemma find_resource_spec u es p c :
  find_resource u es = Some (p, c) ↔
  ∃ before after,
    es = before ++ (p, c) :: after ∧
    starts_with u (p +:+ "/") ∧
    ∀ q c', (q, c') ∈ before → ¬ starts_with u (q +:+ "/").
Proof.
  induction es as [|[q0 c0] es IH]; simpl.
  - split; [done | intros (b & a & H & _)]. by destruct b.
  - case_decide as H0; rewrite indexOf_0 in H0.
    + split.
      * intros [= -> ->]. exists [], es. split_and!; [done..|].
        intros q c' Hin. by apply elem_of_nil in Hin.
      * intros (b & a & Hes & Hp & Hb). destruct b as [|[q1 c1] b]; simplify_eq/=; [done|].
        destruct (Hb q1 c1); [left | done].
    + rewrite IH. split.
      * intros (b & a & -> & Hp & Hb). exists ((q0, c0) :: b), a. split_and!; [done..|].
        intros q c' [[= -> ->] | Hin]%elem_of_cons; eauto.
      * intros (b & a & Hes & Hp & Hb). destruct b as [|[q1 c1] b]; simplify_eq/=; [done|].
        exists b, a. split_and!; [done..|]. intros q c' Hin. apply (Hb q c'). by right.
Qed.

Lemma find_resource_none u es :
  find_resource u es = None ↔ ∀ q c, (q, c) ∈ es → ¬ starts_with u (q +:+ "/").
Proof.
  induction es as [|[q0 c0] es IH]; simpl.
  - split; [|done]. intros _ q c Hin. by apply elem_of_nil in Hin.
  - case_decide as H0; rewrite indexOf_0 in H0.
    + split; [done|]. intros H. destruct (H q0 c0); [left | done].
    + rewrite IH. split.
      * intros H q c [[= -> ->] | Hin]%elem_of_cons; eauto.
      * intros H q c Hin. apply (H q c). by right.
Qed.

Lemma get_set_eq {V} k (v : V) o : JsObject.get k (JsObject.set k v o) = Some v.
Proof.
  unfold JsObject.set. destruct (JsObject.get k o) as [v0|] eqn:Hg.
  - induction o as [|[k' v'] o IH]; simpl in *; [done|].
    destruct (String.eqb k k') eqn:E; simpl; rewrite E; auto.
  - destruct (JsString.array_index k) as [i|].
    + induction o as [|[k' v'] o IH]; simpl in *; [by rewrite String.eqb_refl|].
      destruct (String.eqb k k') eqn:E; [done|].
      destruct (JsString.array_index k') as [j|]; [destruct (j <? i)%N|]; simpl;
        rewrite ?String.eqb_refl, ?E; auto.
    + induction o as [|[k' v'] o IH]; simpl in *; [by rewrite String.eqb_refl|].
      destruct (String.eqb k k') eqn:E; [done|]. auto.
Qed.

(** Prefixes that are not array indices are enumerated in the order of
    their first registration. *)
Lemma registered_order regs w :
  NoDup (regs.*1) →
  Forall (λ p, JsString.array_index p = None ∧ JsObject.get p (resources w) = None) (regs.*1) →
  resources (registered regs w) = resources w ++ regs.
Proof.
  revert w. induction regs as [|[p c] regs IH]; intros w Hnd Hall.
  - simpl. by rewrite app_nil_r.
  - apply NoDup_cons in Hnd as [Hp Hnd]. apply Forall_cons in Hall as [[Hi Hg] Hall].
    simpl in Hp, Hi, Hg.
    change (resources (registered regs (register p c w)) = resources w ++ (p, c) :: regs).
    assert (resources (register p c w) = resources w ++ [(p, c)]) as Hreg.
    { simpl. unfold JsObject.set. by rewrite Hg, Hi. }
    rewrite IH; [|done|].
    + rewrite Hreg. by rewrite <- app_assoc.
    + rewrite Hreg. apply Forall_forall. intros q Hq.
      destruct (proj1 (Forall_forall _ _) Hall q Hq) as [Hqi Hqg]. split; [done|].
      assert (q ≠ p) as Hne by (intros ->; done).
      clear -Hqg Hne. induction (resources w) as [|[k' v'] o IHo]; simpl in *.
      * apply String.eqb_neq in Hne. by rewrite Hne.
      * destruct (String.eqb q k'); [done | auto].
Qed.

Lemma split_cons c s : ∃ first rest, JsString.split c s = first :: rest.
Proof.
  unfold JsString.split. generalize EmptyString as cur.
  induction s as [|a s IH]; intros cur; simpl; [eauto|].
  destruct (Ascii.eqb a c); eauto.
Qed.

(** ** URI resolver *)

Lemma parseURI_Return w raw r :
  parseURI w raw = Return r ↔
  ∃ decoded p,
    JsString.decodeURIComponent raw = Some decoded ∧
    uri r = strip_prefix (_prefix w) decoded ∧
    find_resource (uri r) (resources w) = Some (p, resource r) ∧
    params r = JsString.split "/" (JsString.substring (String.length p + 1) (uri r)).
Proof.
  unfold parseURI, JsObject.entries.
  destruct (JsString.decodeURIComponent raw) as [decoded|]; [|split; [done | by intros (? & ? & ? & _)]].
  destruct (find_resource _ _) as [[p c]|] eqn:Hf.
  - split.
    + intros [= <-]. by exists decoded, p.
    + intros (d & p' & [= <-] & Hu & Hf' & Hp). destruct r as [u c' ps]; simpl in *; subst.
      rewrite Hf in Hf'. by simplify_eq.
  - split; [done|]. intros (d & p' & [= <-] & Hu & Hf' & Hp). rewrite <- Hu in Hf. congruence.
Qed.




(** ** The [id] getter *)




(** ** Synchronous code as a sequence of primitive steps *)

Lemma json_ind' (P : json → Prop) :
  P JNull → (∀ b, P (JBool b)) → (∀ n, P (JNum n)) → (∀ s, P (JStr s)) →
  (∀ items, Forall P items → P (JArr items)) →
  (∀ props, Forall (λ kv, P kv.2) props → P (JObj props)) →
  ∀ j, P j.
Proof.
  intros Hnull Hbool Hnum Hstr Harr Hobj. fix IH 1.
  intros [|b|n|s|items|props];
    [apply Hnull | apply Hbool | apply Hnum | apply Hstr | apply Harr | apply Hobj].
  - induction items as [|j items IHitems]; constructor; [apply IH | exact IHitems].
  - induction props as [|[k j] props IHprops]; constructor; [apply IH | exact IHprops].
Qed.

Section Preserves.
Context (R : World → World → Prop) `{!Reflexive R, !Transitive R}.

Lemma preserves_ret {A} (a : A) : preserves R (ret a).
Proof. intros w. simpl. reflexivity. Qed.

Lemma preserves_throw {A} e : preserves R (@throw A e).
Proof. intros w. simpl. reflexivity. Qed.

Lemma preserves_bind {A B} (c : M A) (k : A → M B) :
  preserves R c → (∀ a, preserves R (k a)) → preserves R (bind c k).
Proof.
  intros Hc Hk w. unfold bind. specialize (Hc w).
  destruct (c w) as [[a|e] w']; simpl in *; [|done].
  etrans; [exact Hc | apply Hk].
Qed.

Lemma preserves_traverse {A B} (f : A → M B) l :
  Forall (λ x, preserves R (f x)) l → preserves R (traverse f l).
Proof.
  induction 1 as [|x l Hx Hl IH]; simpl; [apply preserves_ret|].
  apply preserves_bind; [done|]. intros b.
  apply preserves_bind; [done|]. intros bs. apply preserves_ret.
Qed.

Lemma preserves_parseURI_M raw : preserves R (parseURI_M raw).
Proof. intros w. simpl. reflexivity. Qed.

Hypothesis R_promise_resolve : ∀ v, preserves R (promise_resolve v).
Hypothesis R_then : ∀ p k, preserves R (then_ p k).
Hypothesis R_promise_all : ∀ ps, preserves R (promise_all ps).
Hypothesis R_get : ∀ u o, preserves R (get u o).

Lemma preserves_fromPotionJSON j : preserves R (_fromPotionJSON j).
Proof.
  induction j as [| | | |items IH|props IH] using json_ind';
    try (simpl; apply R_promise_resolve).
  - simpl. apply preserves_bind; [by apply preserves_traverse | auto].
  - assert (preserves R
      (ps ←M traverse (λ '(key, v), h ←M _fromPotionJSON v; then_ h (KPair key)) props;
       a ←M promise_all ps; then_ a KObject)) as Hplain.
    { apply preserves_bind.
      - apply preserves_traverse. eapply Forall_impl; [exact IH|].
        intros [key v] Hv. simpl in *. apply preserves_bind; auto.
      - intros ps. apply preserves_bind; auto. }
    simpl. destruct (JsObject.get "$uri" props) as [[| | |raw| |]|];
      try (destruct (length props =? 1); [|exact Hplain];
           destruct (JsObject.get "$ref" props) as [[| | |ref| |]|];
           try (destruct (JsObject.get "$date" props); [apply R_promise_resolve | exact Hplain]);
           apply preserves_bind; [apply preserves_parseURI_M | auto]).
    apply preserves_bind; [apply preserves_parseURI_M|]. intros r.
    apply preserves_bind.
    + apply preserves_traverse. eapply Forall_impl; [exact IH|].
      intros [key v] Hv. simpl in *. destruct (String.eqb key "$uri"); [auto|].
      apply preserves_bind; auto.
    + intros ps. apply preserves_bind; auto.
Qed.

End Preserves.

(** ** What synchronous code does to the world *)

Lemma fresh_mono n m w w' d :
  m ≤ n → length (promises w) ≤ length (promises w') → fresh n w d → fresh m w' d.
Proof. unfold fresh. lia. Qed.

Lemma growb_refl n w : growb n w w.
Proof.
  split; try done.
  - intros p rs Hp. exists []. by rewrite app_nil_r.
  - intros p rs Hp Hl. apply lookup_lt_Some in Hl. lia.
  - exists []. by rewrite app_nil_r.
  - exists []. by rewrite app_nil_r.
Qed.

Lemma growb_trans n w1 w2 w3 : growb n w1 w2 → growb n w2 w3 → growb n w1 w3.
Proof.
  intros H12 H23.
  pose proof (grow_length _ _ _ H12) as L12. pose proof (grow_length _ _ _ H23) as L23.
  assert (∀ rs, Forall (λ r, fresh n w2 (reaction_target r)) rs →
                Forall (λ r, fresh n w3 (reaction_target r)) rs) as Hup.
  { intros rs Hrs. eapply Forall_impl; [exact Hrs|]. intros r. by apply fresh_mono. }
  split.
  - lia.
  - intros p st Hp Hst. eapply grow_settled; [exact H23| |done]. by eapply grow_settled.
  - intros p rs Hp.
    destruct (grow_pending _ _ _ H12 _ _ Hp) as (rs' & Hp' & Hrs').
    destruct (grow_pending _ _ _ H23 _ _ Hp') as (rs'' & Hp'' & Hrs'').
    exists (rs' ++ rs''). rewrite app_assoc. split; [done|]. apply Forall_app. auto.
  - intros p rs Hp Hl.
    destruct (promises w2 !! p) as [st|] eqn:Hp2.
    + destruct st as [rs2| |].
      * destruct (grow_pending _ _ _ H23 _ _ Hp2) as (rs' & Hp' & Hrs').
        rewrite Hp' in Hl. simplify_eq. apply Forall_app. split; [|done].
        apply Hup. eapply grow_new; [exact H12 | exact Hp | exact Hp2].
      * erewrite grow_settled in Hl; [| exact H23 | exact Hp2 | done]. done.
      * erewrite grow_settled in Hl; [| exact H23 | exact Hp2 | done]. done.
    + eapply grow_new; [exact H23| |done]. by apply lookup_ge_None.
  - destruct (grow_fetches _ _ _ H12) as (fs & E1 & Hfs).
    destruct (grow_fetches _ _ _ H23) as (fs' & E2 & Hfs').
    exists (fs ++ fs'). rewrite E2, E1, app_assoc. split; [done|]. apply Forall_app.
    split; [|done]. eapply Forall_impl; [exact Hfs|]. intros f Hf.
    eapply Forall_impl; [exact Hf|]. intros d. by apply fresh_mono.
  - destruct (grow_microtasks _ _ _ H12) as (fs & E1 & Hfs).
    destruct (grow_microtasks _ _ _ H23) as (fs' & E2 & Hfs').
    exists (fs ++ fs'). rewrite E2, E1, app_assoc. split; [done|]. apply Forall_app.
    split; [|done]. eapply Forall_impl; [exact Hfs|].
    intros j (r & x & -> & Hr). exists r, x. split; [done|]. revert Hr. by apply fresh_mono.
Qed.

Lemma growb_weaken n m w w' : m ≤ n → growb n w w' → growb m w w'.
Proof.
  intros Hmn H.
  assert (∀ d, fresh n w' d → fresh m w' d) as Hup by (intros d; by apply fresh_mono).
  split; try apply H.
  - intros p rs Hp. destruct (grow_pending _ _ _ H _ _ Hp) as (rs' & Hp' & Hrs').
    exists rs'. split; [done|]. eapply Forall_impl; [exact Hrs'|]. simpl. auto.
  - intros p rs Hp Hl. eapply Forall_impl; [by eapply grow_new|]. simpl. auto.
  - destruct (grow_fetches _ _ _ H) as (fs & E & Hfs). exists fs. split; [done|].
    eapply Forall_impl; [exact Hfs|]. intros f Hf. eapply Forall_impl; [exact Hf|]. auto.
  - destruct (grow_microtasks _ _ _ H) as (fs & E & Hfs). exists fs. split; [done|].
    eapply Forall_impl; [exact Hfs|]. intros j (r & x & -> & Hr). eauto.
Qed.

Lemma framed_refl n w : framed n w w.
Proof. by split. Qed.

Lemma framed_trans n w1 w2 w3 : framed n w1 w2 → framed n w2 w3 → framed n w1 w3.
Proof.
  intros H12 H23. split.
  - by rewrite (ext_prefix _ _ _ H23), (ext_prefix _ _ _ H12).
  - by rewrite (ext_resources _ _ _ H23), (ext_resources _ _ _ H12).
  - by rewrite (ext_cache _ _ _ H23), (ext_cache _ _ _ H12).
  - by rewrite (ext_heap _ _ _ H23), (ext_heap _ _ _ H12).
  - intros u p Hu. eapply ext_ledger; [exact H23|]. by eapply ext_ledger.
  - intros a Ha. rewrite (ext_alls _ _ _ H23), (ext_alls _ _ _ H12); done.
Qed.

Lemma framed_weaken n m w w' : m ≤ n → framed n w w' → framed m w w'.
Proof. intros Hmn H. split; try apply H. intros a Ha. apply H. lia. Qed.

Lemma extb_refl n w : extb n w w.
Proof. split; [apply growb_refl | apply framed_refl]. Qed.

Lemma extb_trans n w1 w2 w3 : extb n w1 w2 → extb n w2 w3 → extb n w1 w3.
Proof.
  intros [G12 F12] [G23 F23]. split; [by eapply growb_trans | by eapply framed_trans].
Qed.

Lemma extb_weaken n m w w' : m ≤ n → extb n w w' → extb m w w'.
Proof. intros Hmn [G F]. split; [by eapply growb_weaken | by eapply framed_weaken]. Qed.

Global Instance ext_reflexive : Reflexive ext.
Proof. intros w. apply extb_refl. Qed.

Global Instance ext_transitive : Transitive ext.
Proof.
  intros w1 w2 w3 H12 H23. eapply extb_trans; [exact H12|].
  eapply extb_weaken; [|exact H23]. apply H12.
Qed.

Global Instance grow_reflexive : Reflexive grow.
Proof. intros w. apply growb_refl. Qed.

Global Instance grow_transitive : Transitive grow.
Proof.
  intros w1 w2 w3 H12 H23. eapply growb_trans; [exact H12|].
  eapply growb_weaken; [|exact H23]. apply H12.
Qed.

Lemma ext_grow w w' : ext w w' → grow w w'.
Proof. by intros [G _]. Qed.

(** Changes that leave promises, transport calls and jobs alone. *)
Lemma growb_same n w w' :
  promises w' = promises w → fetches w' = fetches w → microtasks w' = microtasks w →
  growb n w w'.
Proof.
  intros Hp Hf Hm. split; rewrite ?Hp, ?Hf, ?Hm; try done.
  - intros p rs Hl. exists []. by rewrite app_nil_r.
  - intros p rs Hl Hl'. apply lookup_lt_Some in Hl'. lia.
  - exists []. by rewrite app_nil_r.
  - exists []. by rewrite app_nil_r.
Qed.

Lemma extb_new_promise n w st :
  (∀ rs, st = Pending rs → rs = []) →
  extb n w (new_promise st w).2.
Proof.
  intros Hst. split; [split|split]; simpl; try done.
  - rewrite length_app. lia.
  - intros p st' Hp _. by apply lookup_app_l_Some.
  - intros p rs Hp. exists []. rewrite app_nil_r. split; [|done]. by apply lookup_app_l_Some.
  - intros p rs Hp Hl. rewrite lookup_app_r in Hl by done.
    apply list_lookup_singleton_Some in Hl as [_ Hl]. by rewrite (Hst _ Hl).
  - exists []. by rewrite app_nil_r.
  - exists []. by rewrite app_nil_r.
Qed.

Lemma extb_subscribe n w p r :
  fresh n w (reaction_target r) → extb n w (subscribe p r w).
Proof.
  intros Hr. unfold subscribe.
  destruct (promises w !! p) as [[rs|v|e]|] eqn:Hp; [| | |apply extb_refl].
  - split; [split|split]; simpl; try done.
    + by rewrite length_insert.
    + intros q st Hq Hst. destruct (decide (p = q)) as [->|Hne].
      * rewrite Hp in Hq. simplify_eq. by destruct (Hst rs).
      * by rewrite list_lookup_insert_ne.
    + intros q rs' Hq. destruct (decide (p = q)) as [->|Hne].
      * rewrite Hp in Hq. simplify_eq. exists [r].
        rewrite list_lookup_insert_eq by (by eapply lookup_lt_Some). split; [done|].
        apply Forall_singleton. unfold fresh in *. simpl. by rewrite length_insert.
      * exists []. rewrite app_nil_r, list_lookup_insert_ne by done. done.
    + intros q rs' Hq Hl. apply lookup_lt_Some in Hl. rewrite length_insert in Hl. lia.
    + exists []. by rewrite app_nil_r.
    + exists []. by rewrite app_nil_r.
  - split; [apply growb_trans with w; [apply growb_refl|split]|split]; simpl; try done.
    + intros q rs Hq. exists []. by rewrite app_nil_r.
    + intros q rs' Hq Hl. apply lookup_lt_Some in Hl. lia.
    + exists []. by rewrite app_nil_r.
    + eexists. split; [done|]. apply Forall_singleton. by eexists _, _.
  - split; [apply growb_trans with w; [apply growb_refl|split]|split]; simpl; try done.
    + intros q rs Hq. exists []. by rewrite app_nil_r.
    + intros q rs' Hq Hl. apply lookup_lt_Some in Hl. lia.
    + exists []. by rewrite app_nil_r.
    + eexists. split; [done|]. apply Forall_singleton. by eexists _, _.
Qed.

Lemma extb_set_alls n w a x : n ≤ a → extb n w (set_alls (<[a := x]>) w).
Proof.
  intros Ha. split; [by apply growb_same|]. split; simpl; try done.
  intros a' Ha'. apply lookup_insert_ne. lia.
Qed.

Lemma extb_set_ledger n w u d :
  _promises w !! u = None → extb n w (set_ledger (<[u := d]>) w).
Proof.
  intros Hu. split; [by apply growb_same|]. split; simpl; try done.
  intros u' p Hu'. rewrite lookup_insert_ne; [done|]. intros ->. congruence.
Qed.

Lemma then_eq p k w :
  then_ p k w =
  (Return (length (promises w)),
   subscribe p (RThen k (length (promises w))) (set_promises (λ ps, ps ++ [Pending []]) w)).
Proof. reflexivity. Qed.

Lemma ext_then p k : preserves ext (then_ p k).
Proof.
  intros w. rewrite then_eq. simpl. eapply extb_trans.
  - apply (extb_new_promise _ w (Pending [])). by intros rs [= <-].
  - apply extb_subscribe. unfold fresh. simpl. rewrite length_app. simpl. lia.
Qed.

Lemma ext_promise_resolve v : preserves ext (promise_resolve v).
Proof. intros w. apply extb_new_promise. intros rs Hrs. discriminate. Qed.

Lemma extb_subscribe_all n a l w :
  fresh n w a →
  extb n w (foldl (λ w' '(i, p), subscribe p (RAllElem a i) w') w l).
Proof.
  revert w. induction l as [|[i p] l IH]; intros w Ha; simpl; [apply extb_refl|].
  assert (extb n w (subscribe p (RAllElem a i) w)) as H1 by by apply extb_subscribe.
  eapply extb_trans; [exact H1|]. apply IH.
  eapply fresh_mono; [done| |exact Ha]. apply H1.
Qed.

Lemma promise_all_eq ps w :
  ps ≠ [] →
  promise_all ps w =
  (Return (length (promises w)),
   foldl (λ w' '(i, p), subscribe p (RAllElem (length (promises w)) i) w')
     (set_alls (<[length (promises w) := replicate (length ps) None]>)
        (set_promises (λ ps, ps ++ [Pending []]) w))
     (imap pair ps)).
Proof. by destruct ps. Qed.

Lemma ext_promise_all ps : preserves ext (promise_all ps).
Proof.
  intros w. destruct ps as [|p ps]; [apply (ext_promise_resolve (VArr []))|].
  rewrite promise_all_eq by done. cbn [snd].
  eapply extb_trans; [apply (extb_new_promise _ w (Pending [])); by intros rs [= <-]|].
  eapply extb_trans; [by apply extb_set_alls|].
  apply extb_subscribe_all. unfold fresh. simpl. rewrite length_app. simpl. lia.
Qed.

Lemma request_then_eq u o k w :
  (f ←M request u o; fetch_then f k) w =
  (Return (length (promises w)),
   set_fetches (λ fs, fs ++ [{| fetch_uri := prefixed w u; fetch_options := o;
                                 fetch_state := FPending [(k, length (promises w))] |}])
     (set_promises (λ ps, ps ++ [Pending []]) w)).
Proof.
  unfold bind, request, fetch_then, bind, new_promise, modify, ret, set_fetch_state. simpl.
  rewrite lookup_app_r, Nat.sub_diag by done. simpl.
  f_equal. unfold set_fetches, set_promises. simpl. f_equal.
  rewrite lookup_app_r, Nat.sub_diag by done. simpl.
  rewrite insert_app_r_alt, Nat.sub_diag by done. done.
Qed.

Lemma extb_new_fetch w u o k :
  ext w (set_fetches (λ fs, fs ++ [{| fetch_uri := u; fetch_options := o;
                                 fetch_state := FPending [(k, length (promises w))] |}])
     (set_promises (λ ps, ps ++ [Pending []]) w)).
Proof.
  split; [split|split]; simpl; try done.
  - rewrite length_app. lia.
  - intros p st' Hp _. by apply lookup_app_l_Some.
  - intros p rs Hp. exists []. rewrite app_nil_r. split; [|done]. by apply lookup_app_l_Some.
  - intros p rs Hp Hl. rewrite lookup_app_r in Hl by done.
    apply list_lookup_singleton_Some in Hl as [_ Hl]. by simplify_eq.
  - eexists. split; [done|]. apply Forall_singleton. unfold fetch_targets. simpl.
    apply Forall_singleton. unfold fresh. simpl. rewrite length_app. simpl. lia.
  - exists []. by rewrite app_nil_r.
Qed.

Lemma ext_request_then u o k : preserves ext (f ←M request u o; fetch_then f k).
Proof. intros w. rewrite request_then_eq. apply extb_new_fetch. Qed.

Lemma ext_get u o : preserves ext (get u o).
Proof.
  intros w. unfold get. destruct (cache_get u w); [apply ext_promise_resolve|].
  destruct (_promises w !! u) eqn:Hu; [reflexivity|].
  change (ext w ((x ←M (f ←M request u (with_method GET o); fetch_then f (KGetThen u));
                  modify (set_ledger (<[u := x]>)) ;;M ret x) w).2).
  unfold bind at 1. rewrite request_then_eq. simpl.
  etrans; [apply extb_new_fetch|]. by apply extb_set_ledger.
Qed.

Lemma ext_fromPotionJSON j : preserves ext (_fromPotionJSON j).
Proof.
  apply preserves_fromPotionJSON; try apply _.
  - apply ext_promise_resolve.
  - apply ext_then.
  - apply ext_promise_all.
  - apply ext_get.
Qed.

(** ** Errors of the resolver *)

Lemma parseURI_config w w' raw :
  _prefix w' = _prefix w → resources w' = resources w → parseURI w' raw = parseURI w raw.
Proof. intros H1 H2. unfold parseURI. by rewrite H1, H2. Qed.

Lemma fromPotionJSON_entity props raw :
  JsObject.get "$uri" props = Some (JStr raw) →
  _fromPotionJSON (JObj props) =
  (r ←M parseURI_M raw;
   ps ←M traverse (λ '(key, v),
                     if String.eqb key "$uri"
                     then promise_resolve (VArr [VStr key; VStr (uri r)])
                     else h ←M _fromPotionJSON v; then_ h (KPair key)) props;
   a ←M promise_all ps;
   then_ a (KInstance (resource r) (uri r))).
Proof. intros H. simpl. by rewrite H. Qed.

Lemma fromPotionJSON_ref ref :
  _fromPotionJSON (JObj [("$ref", JStr ref)]) =
  (r ←M parseURI_M ref; get (uri r) no_options).
Proof. reflexivity. Qed.

Lemma get_miss u o w :
  cache_get u w = None → _promises w !! u = None →
  get u o w =
  (Return (length (promises w)),
   set_ledger (<[u := length (promises w)]>)
     (set_fetches (λ fs, fs ++ [{| fetch_uri := prefixed w u;
                                   fetch_options := with_method GET o;
                                   fetch_state := FPending [(KGetThen u, length (promises w))] |}])
        (set_promises (λ ps, ps ++ [Pending []]) w))).
Proof.
  intros Hc Hl. unfold get. rewrite Hc, Hl.
  unfold bind, request, fetch_then, bind, new_promise, modify, ret, set_fetch_state. simpl.
  rewrite lookup_app_r, Nat.sub_diag by done. simpl.
  f_equal. unfold set_ledger, set_fetches, set_promises. simpl. f_equal.
  rewrite lookup_app_r, Nat.sub_diag by done. simpl.
  rewrite insert_app_r_alt, Nat.sub_diag by done. done.
Qed.

Lemma get_pending u o w p :
  cache_get u w = None → _promises w !! u = Some p → get u o w = (Return p, w).
Proof. intros Hc Hl. unfold get. by rewrite Hc, Hl. Qed.

Lemma get_cached u o w instance :
  cache_get u w = Some instance →
  get u o w = (Return (length (promises w)),
               set_promises (λ ps, ps ++ [Fulfilled (VInst instance)]) w).
Proof. intros Hc. unfold get. by rewrite Hc. Qed.

Ltac wsimpl :=
  cbn [_prefix resources cache _promises promises alls fetches microtasks heap
       set_resources set_cache set_ledger set_promises set_alls set_fetches
       set_microtasks set_heap set_fetch_state enqueue fst snd
       fetch_uri fetch_options fetch_state] in *.

Section Errors.
Variable tc : string → string.



End Errors.





Lemma uri_of_eq item uri {A} (k : string → M A) w :
  Item_uri item = Some uri → (u ←M uri_of item; k u) w = k uri w.
Proof. intros H. unfold bind, uri_of. by rewrite H. Qed.

Lemma update_eq item data uri w :
  Item_uri item = Some uri →
  update item data w =
  (Return (length (promises w)),
   set_fetches
     (λ fs, fs ++ [{| fetch_uri := prefixed w uri;
                      fetch_options := {| method := Some PUT; cache_option := None;
                                          data := Some (default (JObj []) data) |};
                      fetch_state := FPending [(KHydrate, length (promises w))] |}])
     (set_promises (λ ps, ps ++ [Pending []]) w)).
Proof. intros H. unfold update. rewrite (uri_of_eq _ _ _ _ H). apply request_then_eq. Qed.

Lemma save_eq rootUri data w :
  save rootUri data w =
  (Return (length (promises w)),
   set_fetches
     (λ fs, fs ++ [{| fetch_uri := prefixed w rootUri;
                      fetch_options := {| method := Some POST; cache_option := None;
                                          data := Some (default (JObj []) data) |};
                      fetch_state := FPending [(KHydrate, length (promises w))] |}])
     (set_promises (λ ps, ps ++ [Pending []]) w)).
Proof. apply request_then_eq. Qed.

Lemma destroy_eq item uri w :
  Item_uri item = Some uri →
  destroy item w =
  (Return (length (promises w)),
   set_fetches
     (λ fs, fs ++ [{| fetch_uri := prefixed w uri;
                      fetch_options := {| method := Some DELETE; cache_option := None;
                                          data := None |};
                      fetch_state := FPending [(KDestroy uri, length (promises w))] |}])
     (set_promises (λ ps, ps ++ [Pending []]) w)).
Proof. intros H. unfold destroy. rewrite (uri_of_eq _ _ _ _ H). apply request_then_eq. Qed.

Lemma mutation_throws item {A} (k : string → M A) w :
  Item_uri item = None → (u ←M uri_of item; k u) w = (Throw TypeError, w).
Proof. intros H. unfold bind, uri_of. by rewrite H. Qed.

Lemma ext_update item data : preserves ext (update item data).
Proof.
  intros w. destruct (Item_uri item) as [uri|] eqn:H.
  - rewrite (update_eq _ _ _ _ H). apply extb_new_fetch.
  - unfold update. rewrite (mutation_throws _ _ _ H). reflexivity.
Qed.

Lemma ext_save rootUri data : preserves ext (save rootUri data).
Proof. intros w. rewrite save_eq. apply extb_new_fetch. Qed.

Lemma ext_destroy item : preserves ext (destroy item).
Proof.
  intros w. destruct (Item_uri item) as [uri|] eqn:H.
  - rewrite (destroy_eq _ _ _ H). apply extb_new_fetch.
  - unfold destroy. rewrite (mutation_throws _ _ _ H). reflexivity.
Qed.

Lemma cache_settle d x w : cache (settle d x w) = cache w.
Proof. unfold settle. by repeat case_match. Qed.

Lemma cache_subscribe p r w : cache (subscribe p r w) = cache w.
Proof. unfold subscribe. by repeat case_match. Qed.

Lemma cache_settle_fetch f x w : cache (settle_fetch f x w) = cache w.
Proof. unfold settle_fetch. by repeat case_match. Qed.

Lemma cache_all_resolve_element a i v w : cache (all_resolve_element a i v w) = cache w.
Proof. unfold all_resolve_element. repeat case_match; try done. by rewrite cache_settle. Qed.

Lemma cache_resolve_with d r w : cache (resolve_with d r w) = cache w.
Proof. unfold resolve_with. repeat case_match; try done; by rewrite cache_settle. Qed.

Lemma cache_get_set_ne u u' i w : u ≠ u' → cache_get u (cache_set u' i w) = cache_get u w.
Proof.
  intros Hne. unfold cache_get, cache_set. simpl. destruct (cache w); simpl; [|done].
  by apply lookup_insert_ne.
Qed.

Lemma cache_get_clear_ne u u' w : u ≠ u' → cache_get u (cache_clear u' w) = cache_get u w.
Proof.
  intros Hne. unfold cache_get, cache_clear. simpl. destruct (cache w); simpl; [|done].
  by apply lookup_delete_ne.
Qed.

Lemma cache_get_clear u w : cache_get u (cache_clear u w) = None.
Proof.
  unfold cache_get, cache_clear. simpl. destruct (cache w); simpl; [|done].
  by apply lookup_delete_eq.
Qed.

Lemma cache_get_cache u w w' : cache w' = cache w → cache_get u w' = cache_get u w.
Proof. unfold cache_get. by intros ->. Qed.

(** ** Mutations and the cache *)

Lemma settle_fetch_new x w u o k d :
  settle_fetch (length (fetches w)) x
    (set_fetches (λ fs, fs ++ [{| fetch_uri := u; fetch_options := o;
                                  fetch_state := FPending [(k, d)] |}])
       (set_promises (λ ps, ps ++ [Pending []]) w)) =
  set_microtasks (λ q, q ++ [JFetch k d x])
    (set_fetches (λ fs, fs ++ [{| fetch_uri := u; fetch_options := o;
                                  fetch_state := match x with
                                                 | inl j => FFulfilled j
                                                 | inr e => FRejected e
                                                 end |}])
       (set_promises (λ ps, ps ++ [Pending []]) w)).
Proof.
  unfold settle_fetch. wsimpl. rewrite list_lookup_middle by done.
  cbn [fmap option_fmap option_map fetch_state list_fmap]. unfold set_fetch_state.
  unfold set_microtasks, set_fetches. wsimpl. f_equal.
  rewrite list_lookup_middle by done. wsimpl.
  by rewrite insert_app_r_alt, Nat.sub_diag by done.
Qed.

Lemma tick_cons tc w j q :
  microtasks w = j :: q → tick tc w = run_job tc j (set_microtasks (λ _, q) w).
Proof. intros H. unfold tick. by rewrite H. Qed.

Lemma settle_pending d x w rs :
  promises w !! d = Some (Pending rs) →
  settle d x w =
  set_microtasks (λ q, q ++ ((λ r, JReaction r x) <$> rs))
    (set_promises (<[d := match x with inl v => Fulfilled v | inr e => Rejected e end]>) w).
Proof. intros H. unfold settle. by rewrite H. Qed.

Section Mutations.
Variable tc : string → string.

(** C7 (amended): with an entity whose uri is set, each of [update],
    [save] and [destroy] makes exactly one transport call, with method
    PUT, POST and DELETE respectively, and leaves the pending-request
    ledger as it was; the continuation of [update] and [save] hands the
    document of the response to the hydrator and resolves the returned
    promise with its result, exactly as the continuation of [get()] does
    after removing its ledger entry; the continuation of [destroy] does
    not hydrate the response: it evicts the uri from the cache and yields
    [undefined]. *)
Theorem C7_mutations (w : World) (item : Item) (uri rootUri : string) (data : option json) :
  Item_uri item = Some uri →
  let d := length (promises w) in
  let sent (target : string) (m : Method) (body : option json) (k : fcallback) :=
    set_fetches
      (λ fs, fs ++ [{| fetch_uri := prefixed w target;
                       fetch_options := {| method := Some m; cache_option := None;
                                           data := body |};
                       fetch_state := FPending [(k, d)] |}])
      (set_promises (λ ps, ps ++ [Pending []]) w) in
  update item data w =
    (Return d, sent uri PUT (Some (default (JObj []) data)) KHydrate) ∧
  save rootUri data w =
    (Return d, sent rootUri POST (Some (default (JObj []) data)) KHydrate) ∧
  destroy item w = (Return d, sent uri DELETE None (KDestroy uri)) ∧
  (∀ target m body k, _promises (sent target m body k) = _promises w) ∧
  (∀ json d' w',
     run_job tc (JFetch KHydrate d' (inl json)) w' =
       match _fromPotionJSON json w' with
       | (Return q, w'') => resolve_with d' (inr q) w''
       | (Throw e, w'') => settle d' (inr e) w''
       end ∧
     ∀ u, run_job tc (JFetch (KGetThen u) d' (inl json)) w' =
          run_job tc (JFetch KHydrate d' (inl json)) (set_ledger (delete u) w')) ∧
  (∀ json d' w',
     run_job tc (JFetch (KDestroy uri) d' (inl json)) w' =
       settle d' (inl VUndefined)
         (match cache_get uri w' with Some _ => cache_clear uri w' | None => w' end)).
Proof.
  intros Huri d sent. split_and!.
  - by apply update_eq.
  - apply save_eq.
  - by apply destroy_eq.
  - done.
  - intros json d' w'. split.
    + cbn [run_job run_fcallback]. unfold bind, ret.
      by destruct (_fromPotionJSON json w') as [[q|e] w''].
    + intros u. cbn [run_job run_fcallback]. unfold bind, ret, modify.
      by destruct (_fromPotionJSON json _) as [[q|e] w''].
  - intros json d' w'. reflexivity.
Qed.


End Mutations.

Section Cache.
Variable tc : string → string.

Lemma cache_run_callback k v w uri instance :
  cache_get uri w = Some instance →
  cache_get uri (run_callback tc k v w).2 = Some instance ∨
  ∃ r, k = KInstance r uri.
Proof.
  intros Hc. destruct k as [key|r u|]; simpl.
  - by left.
  - destruct (pairs_of v); [|by left]. unfold bind, construct, modify, ret. simpl.
    destruct (decide (uri = u)) as [->|Hne]; [right; by eexists|left].
    rewrite cache_get_set_ne by done. done.
  - left. by destruct (pairs_of v).
Qed.

Lemma cache_run_fcallback k json w uri instance :
  cache_get uri w = Some instance →
  cache_get uri (run_fcallback k json w).2 = Some instance ∨ k = KDestroy uri.
Proof.
  intros Hc. destruct k as [u| |u]; simpl.
  - left. unfold bind, modify, ret. cbn [fst snd].
    pose proof (ext_fromPotionJSON json (set_ledger (delete u) w)) as Hext.
    destruct (_fromPotionJSON json _) as [[q|e] w']; simpl in *;
      by rewrite (cache_get_cache _ _ _ (ext_cache _ _ _ (proj2 Hext))).
  - left. unfold bind, ret.
    pose proof (ext_fromPotionJSON json w) as Hext.
    destruct (_fromPotionJSON json _) as [[q|e] w']; simpl in *;
      by rewrite (cache_get_cache _ _ _ (ext_cache _ _ _ (proj2 Hext))).
  - unfold bind, modify, ret. cbn [fst snd].
    destruct (decide (uri = u)) as [->|Hne]; [by right|left].
    destruct (cache_get u w); [|done]. by rewrite cache_get_clear_ne.
Qed.

(** C4 (amended): while the cache holds an entity under a uri, every
    [get()] for that uri and every hydration of a reference stub whose
    [$ref] resolves to that uri yields a promise fulfilled with that same
    entity, without a transport call; hydrating a reference stub is
    exactly one [get()] for the resolved uri; and the cache keeps the
    entity over every step of the engine except an eviction by
    [destroy], a change of the cache from outside, and the construction
    of another entity from a body that carries the same [$uri]. *)
Theorem C4_cached_entity (w : World) (u : string) (instance : nat) :
  cache_get u w = Some instance →
  (∀ o, get u o w =
        (Return (length (promises w)),
         set_promises (λ ps, ps ++ [Fulfilled (VInst instance)]) w)) ∧
  (∀ ref r, parseURI w ref = Return r → uri r = u →
     _fromPotionJSON (JObj [("$ref", JStr ref)]) w =
       (Return (length (promises w)),
        set_promises (λ ps, ps ++ [Fulfilled (VInst instance)]) w)) ∧
  (∀ w' ref r, parseURI w' ref = Return r →
     _fromPotionJSON (JObj [("$ref", JStr ref)]) w' = get (uri r) no_options w') ∧
  (∀ e,
     cache_get u (exec tc e w) = Some instance ∨
     e = Cache_clear u ∨
     (∃ i, e = Cache_set u i) ∨
     (e = Tick ∧ ∃ d x q, microtasks w = JFetch (KDestroy u) d (inl x) :: q) ∨
     (e = Tick ∧ ∃ r d v q,
        microtasks w = JReaction (RThen (KInstance r u) d) (inl v) :: q)).
Proof.
  intros Hc. split_and!.
  - intros o. by apply get_cached.
  - intros ref r Hr Hu. rewrite fromPotionJSON_ref. unfold bind, parseURI_M. rewrite Hr, Hu.
    by apply get_cached.
  - intros w' ref r Hr. rewrite fromPotionJSON_ref. unfold bind, parseURI_M. by rewrite Hr.
  - intros [u' o|item data|rootUri data|item|json|u' r|f json|f e| |u' i|u']; cbn [exec].
    + left. by rewrite (cache_get_cache _ _ _ (ext_cache _ _ _ (proj2 (ext_get u' o w)))).
    + left. by rewrite (cache_get_cache _ _ _ (ext_cache _ _ _ (proj2 (ext_update item data w)))).
    + left. by rewrite (cache_get_cache _ _ _ (ext_cache _ _ _ (proj2 (ext_save rootUri data w)))).
    + left. by rewrite (cache_get_cache _ _ _ (ext_cache _ _ _ (proj2 (ext_destroy item w)))).
    + left. by rewrite (cache_get_cache _ _ _ (ext_cache _ _ _ (proj2 (ext_fromPotionJSON json w)))).
    + by left.
    + left. by rewrite (cache_get_cache _ _ _ (cache_settle_fetch _ _ _)).
    + left. by rewrite (cache_get_cache _ _ _ (cache_settle_fetch _ _ _)).
    + unfold tick. destruct (microtasks w) as [|j q] eqn:Hq; [by left|].
      set (w0 := set_microtasks (λ _, q) w).
      assert (cache_get u w0 = Some instance) as Hc0 by done.
      destruct j as [[k d|a i|d] [v|e]|k d [json|e]|d p]; cbn [run_job].
      * destruct (cache_run_callback k v w0 u instance Hc0) as [H|[r ->]].
        -- left. destruct (run_callback tc k v w0) as [[v'|e] w'];
             by rewrite (cache_get_cache _ _ _ (cache_settle _ _ _)).
        -- do 4 right. split; [done|]. by eexists _, _, _, _.
      * left. by rewrite (cache_get_cache _ _ _ (cache_settle _ _ _)).
      * left. by rewrite (cache_get_cache _ _ _ (cache_all_resolve_element _ _ _ _)).
      * left. by rewrite (cache_get_cache _ _ _ (cache_settle _ _ _)).
      * left. by rewrite (cache_get_cache _ _ _ (cache_settle _ _ _)).
      * left. by rewrite (cache_get_cache _ _ _ (cache_settle _ _ _)).
      * destruct (cache_run_fcallback k json w0 u instance Hc0) as [H| ->].
        -- left. destruct (run_fcallback k json w0) as [[r|e] w'].
           ++ by rewrite (cache_get_cache _ _ _ (cache_resolve_with _ _ _)).
           ++ by rewrite (cache_get_cache _ _ _ (cache_settle _ _ _)).
        -- do 3 right. left. split; [done|]. by eexists _, _, _.
      * left. by rewrite (cache_get_cache _ _ _ (cache_settle _ _ _)).
      * left. by rewrite (cache_get_cache _ _ _ (cache_subscribe _ _ _)).
    + destruct (decide (u = u')) as [->|Hne]; [right; right; left; by eexists|left].
      by rewrite cache_get_set_ne.
    + destruct (decide (u = u')) as [->|Hne]; [by right; left|left].
      by rewrite cache_get_clear_ne.
Qed.

End Cache.

Lemma C7_mutations_witness :
  let w := users in
  update ann None w =
    (Return 0,
     set_fetches
       (λ fs, fs ++ [{| fetch_uri := "/user/5";
                        fetch_options := {| method := Some PUT; cache_option := None;
                                            data := Some (JObj []) |};
                        fetch_state := FPending [(KHydrate, 0)] |}])
       (set_promises (λ ps, ps ++ [Pending []]) w)).
Proof.
  intros w. apply (proj1 (C7_mutations toCamelCase w ann "/user/5" "/user" None eq_refl)).
Defined.

(** C7, as stated, fails for [destroy]: the document of the response is
    not hydrated, the promise is fulfilled with [undefined], where
    [update] yields the hydrated document. *)
Lemma C7_destroy_counterexample :
  let body := JObj [("first_name", JStr "Ann")] in
  let destroyed := drain toCamelCase 9 (run toCamelCase [Call_destroy ann; Respond 0 body] users) in
  let updated := drain toCamelCase 9 (run toCamelCase [Call_update ann None; Respond 0 body] users) in
  (destroy ann users).1 = Return 0 ∧
  (update ann None users).1 = Return 0 ∧
  promises destroyed !! 0 = Some (Fulfilled VUndefined) ∧
  promises updated !! 0 = Some (Fulfilled (VObj [("firstName", VStr "Ann")])) ∧
  microtasks destroyed = [] ∧ microtasks updated = [].
Proof. vm_compute. split_and!; reflexivity. Qed.



Lemma C4_cached_entity_witness :
  let w := cache_set "/user/5" 0 users in
  get "/user/5" no_options w =
    (Return (length (promises w)),
     set_promises (λ ps, ps ++ [Fulfilled (VInst 0)]) w) ∧
  _fromPotionJSON (JObj [("$ref", JStr "/user/5")]) w =
    (Return (length (promises w)),
     set_promises (λ ps, ps ++ [Fulfilled (VInst 0)]) w).
Proof.
  intros w.
  pose proof (C4_cached_entity toCamelCase w "/user/5" 0 eq_refl) as (Hget & Href & _).
  split; [apply Hget|].
  apply (Href "/user/5" {| uri := "/user/5"; resource := "User"; params := ["5"] |});
    reflexivity.
Defined.

(** C4, as stated, fails without any eviction: the response of an
    [update] carries the same [$uri], a second entity is constructed and
    takes the place of the first in the cache. *)
Lemma C4_rehydration_counterexample :
  let first := JObj [("$uri", JStr "/user/5"); ("name", JStr "A")] in
  let second := JObj [("$uri", JStr "/user/5"); ("name", JStr "B")] in
  let cached :=
    drain toCamelCase 9 (run toCamelCase [Call_save "/user" None; Respond 0 first] users) in
  let updated :=
    drain toCamelCase 9 (run toCamelCase [Call_update ann None; Respond 1 second] cached) in
  cache_get "/user/5" cached = Some 0 ∧
  (get "/user/5" no_options cached).1 = Return 6 ∧
  promises (get "/user/5" no_options cached).2 !! 6 = Some (Fulfilled (VInst 0)) ∧
  cache_get "/user/5" updated = Some 1 ∧
  (get "/user/5" no_options updated).1 = Return 12 ∧
  promises (get "/user/5" no_options updated).2 !! 12 = Some (Fulfilled (VInst 1)) ∧
  length (fetches (get "/user/5" no_options updated).2) = length (fetches updated).
Proof. vm_compute. split_and!; reflexivity. Qed.

(** ** Promises, reactions and jobs, step by step *)

Lemma settlement_not_pending x rs : settlement x ≠ Pending rs.
Proof. by destruct x. Qed.

Lemma settle_eq d x w :
  settle d x w = w ∧ ¬ is_pending w d ∨
  ∃ rs, promises w !! d = Some (Pending rs) ∧
    settle d x w =
      set_microtasks (λ q, q ++ ((λ r, JReaction r x) <$> rs))
        (set_promises (<[d := settlement x]>) w).
Proof.
  unfold settle, is_pending.
  destruct (promises w !! d) as [[rs|v|e]|] eqn:Hd.
  - right. by exists rs.
  - left. split; [done|]. by intros [rs [=]].
  - left. split; [done|]. by intros [rs [=]].
  - left. split; [done|]. by intros [rs [=]].
Qed.

Lemma settle_promises_ne d x w p : p ≠ d → promises (settle d x w) !! p = promises w !! p.
Proof.
  intros Hne. destruct (settle_eq d x w) as [[-> _]|(rs & Hd & ->)]; [done|].
  simpl. by apply list_lookup_insert_ne.
Qed.

Lemma settle_promises_eq d x w rs :
  promises w !! d = Some (Pending rs) → promises (settle d x w) !! d = Some (settlement x).
Proof.
  intros Hd. rewrite (settle_pending _ _ _ _ Hd). simpl.
  destruct x; apply list_lookup_insert_eq; by eapply lookup_lt_Some.
Qed.

Lemma settle_length d x w : length (promises (settle d x w)) = length (promises w).
Proof.
  destruct (settle_eq d x w) as [[-> _]|(rs & Hd & ->)]; [done|].
  simpl. by rewrite length_insert.
Qed.

Lemma settle_settled d x w p st :
  promises w !! p = Some st → (∀ rs, st ≠ Pending rs) → promises (settle d x w) !! p = Some st.
Proof.
  intros Hp Hst. destruct (decide (p = d)) as [->|Hne]; [|by rewrite settle_promises_ne].
  destruct (settle_eq d x w) as [[-> _]|(rs & Hd & _)]; [done|]. rewrite Hd in Hp.
  simplify_eq. by destruct (Hst rs).
Qed.

Lemma settle_fetches d x w : fetches (settle d x w) = fetches w.
Proof. destruct (settle_eq d x w) as [[-> _]|(rs & Hd & ->)]; done. Qed.

Lemma settle_holds d x w q r : holds (settle d x w) q r → holds w q r.
Proof.
  intros (rs & Hq & Hr). exists rs. split; [|done].
  destruct (decide (q = d)) as [->|Hne]; [|by rewrite settle_promises_ne in Hq].
  destruct (settle_eq d x w) as [[E _]|(rs' & Hd & _)]; [by rewrite E in Hq|].
  rewrite (settle_promises_eq _ _ _ _ Hd) in Hq. simplify_eq.
  by destruct (settlement_not_pending x rs).
Qed.

Lemma settle_holds_fwd d x w q r :
  holds w q r →
  if decide (q = d) then queued (settle d x w) (JReaction r x) ∧ settled_with (settle d x w) d x
  else holds (settle d x w) q r.
Proof.
  intros (rs & Hq & Hr). case_decide as Hd; [subst q|].
  - rewrite (settle_pending _ _ _ _ Hq). unfold queued, settled_with. simpl. split.
    + apply elem_of_app. right. apply list_elem_of_fmap. by exists r.
    + apply list_lookup_insert_eq. by eapply lookup_lt_Some.
  - exists rs. by rewrite settle_promises_ne.
Qed.

Lemma settle_queued d x w j :
  queued (settle d x w) j →
  queued w j ∨ ∃ r, j = JReaction r x ∧ holds w d r ∧ settled_with (settle d x w) d x.
Proof.
  unfold queued. destruct (settle_eq d x w) as [[-> _]|(rs & Hd & E)]; [by left|].
  rewrite E. simpl. intros [Hj|Hj]%elem_of_app; [by left|right].
  apply list_elem_of_fmap in Hj as (r & -> & Hr). exists r. split; [done|]. split.
  - by exists rs.
  - rewrite <- E. by eapply settle_promises_eq.
Qed.

Lemma settle_queued_fwd d x w j : queued w j → queued (settle d x w) j.
Proof.
  unfold queued. destruct (settle_eq d x w) as [[-> _]|(rs & Hd & ->)]; [done|].
  simpl. intros Hj. apply elem_of_app. by left.
Qed.

Lemma subscribe_eq p r w :
  (∃ rs, promises w !! p = Some (Pending rs) ∧
         subscribe p r w = set_promises (<[p := Pending (rs ++ [r])]>) w) ∨
  (∃ x, settled_with w p x ∧ subscribe p r w = enqueue (JReaction r x) w) ∨
  (promises w !! p = None ∧ subscribe p r w = w).
Proof.
  unfold subscribe, settled_with.
  destruct (promises w !! p) as [[rs|v|e]|] eqn:Hd.
  - left. by exists rs.
  - right. left. by exists (inl v).
  - right. left. by exists (inr e).
  - by right; right.
Qed.

Lemma subscribe_length p r w : length (promises (subscribe p r w)) = length (promises w).
Proof.
  destruct (subscribe_eq p r w) as [(rs & Hp & ->)|[(x & Hx & ->)|[_ ->]]]; try done.
  simpl. by rewrite length_insert.
Qed.

Lemma subscribe_fetches p r w : fetches (subscribe p r w) = fetches w.
Proof.
  by destruct (subscribe_eq p r w) as [(rs & Hp & ->)|[(x & Hx & ->)|[_ ->]]].
Qed.

Lemma subscribe_settled p r w q st :
  promises w !! q = Some st → (∀ rs, st ≠ Pending rs) →
  promises (subscribe p r w) !! q = Some st.
Proof.
  intros Hq Hst.
  destruct (subscribe_eq p r w) as [(rs & Hp & ->)|[(x & Hx & ->)|[_ ->]]]; try done.
  simpl. destruct (decide (p = q)) as [->|Hne].
  - rewrite Hp in Hq. simplify_eq. by destruct (Hst rs).
  - by rewrite list_lookup_insert_ne.
Qed.

Lemma subscribe_pending p r w q rs :
  promises w !! q = Some (Pending rs) →
  ∃ rs', promises (subscribe p r w) !! q = Some (Pending (rs ++ rs')) ∧ (rs' = [] ∨ rs' = [r] ∧ q = p).
Proof.
  intros Hq.
  destruct (subscribe_eq p r w) as [(rs0 & Hp & ->)|[(x & Hx & ->)|[_ ->]]].
  - simpl. destruct (decide (p = q)) as [->|Hne].
    + rewrite Hp in Hq. simplify_eq. exists [r].
      rewrite list_lookup_insert_eq by (by eapply lookup_lt_Some). auto.
    + exists []. rewrite app_nil_r, list_lookup_insert_ne by done. auto.
  - exists []. rewrite app_nil_r. auto.
  - exists []. rewrite app_nil_r. auto.
Qed.

Lemma subscribe_holds p r w q r' :
  holds (subscribe p r w) q r' → holds w q r' ∨ (q = p ∧ r' = r ∧ is_pending w p).
Proof.
  intros (rs & Hq & Hr).
  destruct (subscribe_eq p r w) as [(rs0 & Hp & E)|[(x & Hx & E)|[_ E]]]; rewrite E in Hq.
  - simpl in Hq. destruct (decide (p = q)) as [->|Hne].
    + rewrite list_lookup_insert_eq in Hq by (by eapply lookup_lt_Some). simplify_eq.
      apply elem_of_app in Hr as [Hr|Hr%list_elem_of_singleton].
      * left. by exists rs0.
      * right. split_and!; [done..|]. by exists rs0.
    + rewrite list_lookup_insert_ne in Hq by done. left. by exists rs.
  - left. by exists rs.
  - left. by exists rs.
Qed.

Lemma subscribe_holds_fwd p r w q r' : holds w q r' → holds (subscribe p r w) q r'.
Proof.
  intros (rs & Hq & Hr). destruct (subscribe_pending p r w q rs Hq) as (rs' & Hq' & _).
  exists (rs ++ rs'). split; [done|]. apply elem_of_app. by left.
Qed.

Lemma subscribe_queued p r w j :
  queued (subscribe p r w) j → queued w j ∨ ∃ x, j = JReaction r x ∧ settled_with w p x.
Proof.
  unfold queued.
  destruct (subscribe_eq p r w) as [(rs0 & Hp & ->)|[(x & Hx & ->)|[_ ->]]]; [by left| |by left].
  simpl. intros [Hj|Hj%list_elem_of_singleton]%elem_of_app; [by left|right]. by exists x.
Qed.

Lemma subscribe_queued_fwd p r w j : queued w j → queued (subscribe p r w) j.
Proof.
  unfold queued.
  destruct (subscribe_eq p r w) as [(rs0 & Hp & ->)|[(x & Hx & ->)|[_ ->]]]; try done.
  simpl. intros Hj. apply elem_of_app. by left.
Qed.

(** The reaction registered by [subscribe] is kept or queued. *)
Lemma subscribe_registered p r w :
  p < length (promises w) →
  holds (subscribe p r w) p r ∨ ∃ x, settled_with w p x ∧ queued (subscribe p r w) (JReaction r x).
Proof.
  intros Hp.
  destruct (subscribe_eq p r w) as [(rs0 & Hp0 & ->)|[(x & Hx & ->)|[Hn _]]].
  - left. exists (rs0 ++ [r]). simpl. split.
    + apply list_lookup_insert_eq. by eapply lookup_lt_Some.
    + apply elem_of_app. right. by apply list_elem_of_singleton.
  - right. exists x. split; [done|]. unfold queued. simpl. apply elem_of_app. right.
    by apply list_elem_of_singleton.
  - apply lookup_ge_None in Hn. lia.
Qed.

Lemma grow_holds_back n w w' q r :
  growb n w w' → holds w' q r → holds w q r ∨ fresh n w' (reaction_target r).
Proof.
  intros G (rs' & Hq' & Hr).
  destruct (promises w !! q) as [[rs|v|e]|] eqn:Hq.
  - destruct (grow_pending _ _ _ G _ _ Hq) as (rs'' & Hq'' & Hrs'').
    rewrite Hq'' in Hq'. simplify_eq. apply elem_of_app in Hr as [Hr|Hr].
    + left. by exists rs.
    + right. by apply (proj1 (Forall_forall _ _) Hrs'').
  - rewrite (grow_settled _ _ _ G _ _ Hq) in Hq' by done. done.
  - rewrite (grow_settled _ _ _ G _ _ Hq) in Hq' by done. done.
  - right. apply lookup_ge_None in Hq.
    by apply (proj1 (Forall_forall _ _) (grow_new _ _ _ G _ _ Hq Hq')).
Qed.

Lemma grow_holds_fwd n w w' q r : growb n w w' → holds w q r → holds w' q r.
Proof.
  intros G (rs & Hq & Hr). destruct (grow_pending _ _ _ G _ _ Hq) as (rs' & Hq' & _).
  exists (rs ++ rs'). split; [done|]. apply elem_of_app. by left.
Qed.

Lemma grow_fetch_lookup n w w' f x :
  growb n w w' → fetches w !! f = Some x → fetches w' !! f = Some x.
Proof.
  intros G Hf. destruct (grow_fetches _ _ _ G) as (fs & -> & _). by apply lookup_app_l_Some.
Qed.

Lemma grow_awaits_back n w w' f k d :
  growb n w w' → awaits w' f k d → awaits w f k d ∨ fresh n w' d.
Proof.
  intros G (x & rs & Hf & Hx & Hk). destruct (grow_fetches _ _ _ G) as (fs & E & Hfs).
  rewrite E in Hf. apply lookup_app_Some in Hf as [Hf|[_ Hf]].
  - left. by exists x, rs.
  - right. apply list_elem_of_lookup_2 in Hf.
    pose proof (proj1 (Forall_forall _ _) Hfs _ Hf) as Hx'.
    unfold fetch_targets in Hx'. rewrite Hx in Hx'.
    apply (proj1 (Forall_forall _ _) Hx'). apply list_elem_of_fmap. by exists (k, d).
Qed.

Lemma grow_awaits_fwd n w w' f k d : growb n w w' → awaits w f k d → awaits w' f k d.
Proof.
  intros G (x & rs & Hf & Hx & Hk). exists x, rs. split; [|done]. by eapply grow_fetch_lookup.
Qed.

Lemma grow_queued_back n w w' j :
  growb n w w' → queued w' j →
  queued w j ∨ ∃ r x, j = JReaction r x ∧ fresh n w' (reaction_target r).
Proof.
  unfold queued. intros G Hj. destruct (grow_microtasks _ _ _ G) as (js & E & Hjs).
  rewrite E in Hj. apply elem_of_app in Hj as [Hj|Hj]; [by left|right].
  by apply (proj1 (Forall_forall _ _) Hjs).
Qed.

Lemma grow_queued_fwd n w w' j : growb n w w' → queued w j → queued w' j.
Proof.
  unfold queued. intros G Hj. destruct (grow_microtasks _ _ _ G) as (js & -> & _).
  apply elem_of_app. by left.
Qed.

Lemma grow_is_pending_back n w w' p :
  growb n w w' → p < length (promises w) → is_pending w' p → is_pending w p.
Proof.
  intros G Hp [rs' Hp']. destruct (lookup_lt_is_Some_2 _ _ Hp) as [[rs|v|e] Hst].
  - by exists rs.
  - rewrite (grow_settled _ _ _ G _ _ Hst) in Hp' by done. done.
  - rewrite (grow_settled _ _ _ G _ _ Hst) in Hp' by done. done.
Qed.

Lemma grow_settled_with n w w' p x : growb n w w' → settled_with w p x → settled_with w' p x.
Proof.
  unfold settled_with. intros G Hp. eapply grow_settled; [done..|].
  intros rs. apply settlement_not_pending.
Qed.

Lemma grow_settled_with_back n w w' p x :
  growb n w w' → p < length (promises w) → settled_with w' p x → settled_with w p x.
Proof.
  unfold settled_with. intros G Hp Hp'. destruct (lookup_lt_is_Some_2 _ _ Hp) as [[rs|v|e] Hst].
  - destruct (grow_pending _ _ _ G _ _ Hst) as (rs' & Hq' & _). rewrite Hq' in Hp'.
    injection Hp' as Hp'. symmetry in Hp'. by destruct (settlement_not_pending x _ Hp').
  - rewrite (grow_settled _ _ _ G _ _ Hst) in Hp' by done. by rewrite Hst, Hp'.
  - rewrite (grow_settled _ _ _ G _ _ Hst) in Hp' by done. by rewrite Hst, Hp'.
Qed.

(** *** The transport settles a call *)

Lemma settle_fetch_eq f x w :
  settle_fetch f x w = w ∧ (∀ k d, ¬ awaits w f k d) ∨
  ∃ rec rs, fetches w !! f = Some rec ∧ fetch_state rec = FPending rs ∧
    settle_fetch f x w =
      set_microtasks (λ q, q ++ ((λ '(k, d), JFetch k d x) <$> rs))
        (set_fetches (<[f := {| fetch_uri := fetch_uri rec; fetch_options := fetch_options rec;
                                fetch_state := fsettlement x |}]>) w).
Proof.
  unfold settle_fetch.
  destruct (fetches w !! f) as [rec|] eqn:Hf; simpl.
  - destruct (fetch_state rec) as [rs|j|e] eqn:Hs.
    + right. exists rec, rs. split_and!; [done..|]. unfold set_fetch_state, set_fetches.
      simpl. rewrite Hf. by destruct x.
    + left. split; [done|]. intros k d (rec' & rs & Hf' & Hs' & _). congruence.
    + left. split; [done|]. intros k d (rec' & rs & Hf' & Hs' & _). congruence.
  - left. split; [done|]. intros k d (rec' & rs & Hf' & Hs' & _). congruence.
Qed.

Lemma settle_fetch_promises f x w : promises (settle_fetch f x w) = promises w.
Proof. by destruct (settle_fetch_eq f x w) as [[-> _]|(rec & rs & _ & _ & ->)]. Qed.

Lemma settle_fetch_awaits f x w f' k d :
  awaits (settle_fetch f x w) f' k d → awaits w f' k d ∧ f' ≠ f.
Proof.
  intros (rec' & rs' & Hf' & Hs' & Hk).
  destruct (settle_fetch_eq f x w) as [[E Hn]|(rec & rs & Hf & Hs & E)]; rewrite E in Hf'.
  - split; [by exists rec', rs'|]. intros ->. eapply Hn. by exists rec', rs'.
  - simpl in Hf'. destruct (decide (f = f')) as [->|Hne].
    + rewrite list_lookup_insert_eq in Hf' by (by eapply lookup_lt_Some). simplify_eq.
      simpl in Hs'. by destruct x.
    + rewrite list_lookup_insert_ne in Hf' by done. split; [by exists rec', rs'|done].
Qed.

Lemma settle_fetch_awaits_fwd f x w f' k d :
  awaits w f' k d →
  if decide (f' = f) then queued (settle_fetch f x w) (JFetch k d x)
  else awaits (settle_fetch f x w) f' k d.
Proof.
  intros (rec' & rs' & Hf' & Hs' & Hk).
  destruct (settle_fetch_eq f x w) as [[E Hn]|(rec & rs & Hf & Hs & E)]; rewrite E.
  - case_decide as Hd; [subst f'; destruct (Hn k d)|]; by exists rec', rs'.
  - case_decide as Hd; [subst f'|].
    + rewrite Hf in Hf'. injection Hf' as <-. rewrite Hs in Hs'. injection Hs' as <-.
      unfold queued. simpl. apply elem_of_app. right.
      apply list_elem_of_fmap. by exists (k, d).
    + exists rec', rs'. simpl. by rewrite list_lookup_insert_ne.
Qed.

Lemma settle_fetch_queued f x w j :
  queued (settle_fetch f x w) j → queued w j ∨ ∃ k d, j = JFetch k d x ∧ awaits w f k d.
Proof.
  unfold queued.
  destruct (settle_fetch_eq f x w) as [[-> _]|(rec & rs & Hf & Hs & ->)]; [by left|].
  simpl. intros [Hj|Hj]%elem_of_app; [by left|right].
  apply list_elem_of_fmap in Hj as ([k d] & -> & Hr). exists k, d. split; [done|].
  by exists rec, rs.
Qed.

Lemma settle_fetch_queued_fwd f x w j : queued w j → queued (settle_fetch f x w) j.
Proof.
  unfold queued.
  destruct (settle_fetch_eq f x w) as [[-> _]|(rec & rs & Hf & Hs & ->)]; [done|].
  simpl. intros Hj. apply elem_of_app. by left.
Qed.

(** *** Running a job *)

Ltac frame :=
  intros;
  unfold settle, subscribe, settle_fetch, enqueue, resolve_with, all_resolve_element,
    set_fetch_state, cache_set, cache_clear, register;
  repeat case_match; try reflexivity.

Lemma settle_ledger d x w : _promises (settle d x w) = _promises w. Proof. frame. Qed.
Lemma settle_alls d x w : alls (settle d x w) = alls w. Proof. frame. Qed.
Lemma settle_heap d x w : heap (settle d x w) = heap w. Proof. frame. Qed.
Lemma settle_prefix d x w : _prefix (settle d x w) = _prefix w. Proof. frame. Qed.
Lemma settle_resources d x w : resources (settle d x w) = resources w. Proof. frame. Qed.
Lemma subscribe_ledger p r w : _promises (subscribe p r w) = _promises w. Proof. frame. Qed.
Lemma subscribe_alls p r w : alls (subscribe p r w) = alls w. Proof. frame. Qed.
Lemma subscribe_heap p r w : heap (subscribe p r w) = heap w. Proof. frame. Qed.
Lemma subscribe_prefix p r w : _prefix (subscribe p r w) = _prefix w. Proof. frame. Qed.
Lemma subscribe_resources p r w : resources (subscribe p r w) = resources w. Proof. frame. Qed.
Lemma settle_fetch_ledger f x w : _promises (settle_fetch f x w) = _promises w. Proof. frame. Qed.
Lemma settle_fetch_alls f x w : alls (settle_fetch f x w) = alls w. Proof. frame. Qed.
Lemma settle_fetch_heap f x w : heap (settle_fetch f x w) = heap w. Proof. frame. Qed.
Lemma settle_fetch_prefix f x w : _prefix (settle_fetch f x w) = _prefix w. Proof. frame. Qed.
Lemma settle_fetch_resources f x w : resources (settle_fetch f x w) = resources w.
Proof. frame. Qed.

Lemma run_job_eq tc j w :
  run_job tc j w =
  match j with
  | JThenable d q => subscribe q (RAdopt d) w
  | _ =>
      match job_finish tc j w with
      | Leave => after_callback tc j w
      | Settle x => settle (job_target j) x (after_callback tc j w)
      | Follow q => enqueue (JThenable (job_target j) q) (after_callback tc j w)
      end
  end.
Proof.
  destruct j as [[k d|a i|d] [v|e]|k d [json|e]|d q]; simpl; try reflexivity.
  - by destruct (run_callback tc k v w) as [[v'|e] w'].
  - unfold all_resolve_element. destruct (alls w !! a) as [slots|]; [|done]. simpl.
    by destruct (mapM id (<[i:=Some v]> slots)).
  - destruct (run_fcallback k json w) as [[[v|q]|e] w']; simpl; try done.
    by case_decide.
Qed.

Lemma run_callback_frame tc k v w :
  let w' := (run_callback tc k v w).2 in
  promises w' = promises w ∧ fetches w' = fetches w ∧ microtasks w' = microtasks w ∧
  _promises w' = _promises w ∧ alls w' = alls w ∧ _prefix w' = _prefix w ∧
  resources w' = resources w ∧ ∃ h, heap w' = heap w ++ h.
Proof.
  destruct k as [key|r u|]; simpl.
  - split_and!; try done. exists []. by rewrite app_nil_r.
  - destruct (pairs_of v); simpl; split_and!; try done; eexists; try done.
    by rewrite app_nil_r.
  - destruct (pairs_of v); simpl; split_and!; try done; exists []; by rewrite app_nil_r.
Qed.

Lemma run_fcallback_grow k json w : grow w (run_fcallback k json w).2.
Proof.
  destruct k as [u| |u]; simpl.
  - unfold bind, modify, ret. cbn [fst snd].
    pose proof (ext_fromPotionJSON json (set_ledger (delete u) w)) as [G _].
    assert (grow w (set_ledger (delete u) w)) as G0 by by apply growb_same.
    destruct (_fromPotionJSON json _) as [[q|e] w']; by etrans.
  - unfold bind, ret.
    pose proof (ext_fromPotionJSON json w) as [G _].
    destruct (_fromPotionJSON json _) as [[q|e] w']; exact G.
  - unfold bind, modify, ret. cbn [fst snd]. destruct (cache_get u w); by apply growb_same.
Qed.

Lemma after_callback_grow tc j w : grow w (after_callback tc j w).
Proof.
  destruct j as [[k d|a i|d] [v|e]|k d [json|e]|d q]; simpl; try reflexivity.
  - destruct (run_callback_frame tc k v w) as (Hp & Hf & Hm & _). by apply growb_same.
  - destruct (alls w !! a); [by apply growb_same | reflexivity].
  - apply run_fcallback_grow.
Qed.

Lemma after_callback_heap tc j w : ∃ h, heap (after_callback tc j w) = heap w ++ h.
Proof.
  destruct j as [[k d|a i|d] [v|e]|k d [json|e]|d q]; simpl;
    try (exists []; by rewrite app_nil_r).
  - apply run_callback_frame.
  - exists []. rewrite app_nil_r. by destruct (alls w !! a).
  - exists []. rewrite app_nil_r. destruct k as [u| |u]; simpl.
    + unfold bind, modify, ret. cbn [fst snd].
      pose proof (ext_fromPotionJSON json (set_ledger (delete u) w)) as [_ F].
      destruct (_fromPotionJSON json _) as [[q|e] w']; apply F.
    + unfold bind, ret.
      pose proof (ext_fromPotionJSON json w) as [_ F].
      destruct (_fromPotionJSON json _) as [[q|e] w']; apply F.
    + unfold bind, modify, ret. cbn [fst snd]. by destruct (cache_get u w).
Qed.

(** ** Well-formed worlds *)

Lemma wf_create prefix c : wf (create prefix c).
Proof.
  split.
  - intros q r (rs & Hq & _). done.
  - intros f k d (x & rs & Hf & _). done.
  - intros j Hj. by apply elem_of_nil in Hj.
Qed.

Lemma wf_grow w w' : wf w → grow w w' → wf w'.
Proof.
  intros [H1 H2 H3] G. pose proof (grow_length _ _ _ G) as L. split.
  - intros q r Hr. destruct (grow_holds_back _ _ _ _ _ G Hr) as [Hr'|[_ Hf]]; [|done].
    specialize (H1 _ _ Hr'). lia.
  - intros f k d Hr. destruct (grow_awaits_back _ _ _ _ _ _ G Hr) as [Hr'|[_ Hf]]; [|done].
    specialize (H2 _ _ _ Hr'). lia.
  - intros j Hr. destruct (grow_queued_back _ _ _ _ G Hr) as [Hr'|(r & x & -> & _ & Hf)]; [|done].
    specialize (H3 _ Hr'). lia.
Qed.

Lemma wf_settle d x w : wf w → wf (settle d x w).
Proof.
  intros [H1 H2 H3]. split; rewrite settle_length.
  - intros q r Hr. apply settle_holds in Hr. eauto.
  - intros f k d' Hr. unfold awaits in Hr. rewrite settle_fetches in Hr. eauto.
  - intros j Hj. apply settle_queued in Hj as [Hj|(r & -> & Hr & _)]; [eauto|].
    simpl. eauto.
Qed.

Lemma wf_subscribe p r w :
  wf w → reaction_target r < length (promises w) → wf (subscribe p r w).
Proof.
  intros [H1 H2 H3] Hr. split; rewrite subscribe_length.
  - intros q r' Hr'. apply subscribe_holds in Hr' as [Hr'|(_ & -> & _)]; eauto.
  - intros f k d' Hr'. unfold awaits in Hr'. rewrite subscribe_fetches in Hr'. eauto.
  - intros j Hj. apply subscribe_queued in Hj as [Hj|(x & -> & _)]; eauto.
Qed.

Lemma wf_enqueue j w : wf w → job_target j < length (promises w) → wf (enqueue j w).
Proof.
  intros [H1 H2 H3] Hj. split; simpl.
  - intros q r Hr. by apply (H1 q).
  - intros f k d Hr. by apply (H2 f k).
  - intros j' [Hj'|Hj'%list_elem_of_singleton]%elem_of_app; [by apply H3 | by subst].
Qed.

Lemma wf_pop j rest w : wf w → microtasks w = j :: rest → wf (set_microtasks (λ _, rest) w).
Proof.
  intros [H1 H2 H3] Hm. split; simpl.
  - intros q r Hr. by apply (H1 q).
  - intros f k d Hr. by apply (H2 f k).
  - intros j' Hj'. apply H3. unfold queued. rewrite Hm. by right.
Qed.

Lemma wf_settle_fetch f x w : wf w → wf (settle_fetch f x w).
Proof.
  intros [H1 H2 H3]. split; rewrite settle_fetch_promises.
  - intros q r (rs & Hq & Hr). rewrite settle_fetch_promises in Hq. apply (H1 q). by exists rs.
  - intros f' k d Hr. apply settle_fetch_awaits in Hr as [Hr _]. eauto.
  - intros j Hj. apply settle_fetch_queued in Hj as [Hj|(k & d & -> & Hr)]; eauto.
Qed.

Section WF.
Variable tc : string → string.

Lemma wf_run_job j rest w :
  wf w → microtasks w = j :: rest → wf (run_job tc j (set_microtasks (λ _, rest) w)).
Proof.
  intros Hwf Hm. pose proof (wf_pop _ _ _ Hwf Hm) as Hwf0.
  assert (job_target j < length (promises w)) as Hj.
  { apply Hwf. unfold queued. rewrite Hm. by left. }
  set (w0 := set_microtasks (λ _, rest) w) in *.
  pose proof (after_callback_grow tc j w0) as G.
  pose proof (wf_grow _ _ Hwf0 G) as Hwfc. pose proof (grow_length _ _ _ G) as L.
  rewrite run_job_eq. destruct j as [r x|k d x|d q].
  - destruct (job_finish tc (JReaction r x) w0); [done|by apply wf_settle|].
    apply wf_enqueue; [done|]. simpl in *. lia.
  - destruct (job_finish tc (JFetch k d x) w0); [done|by apply wf_settle|].
    apply wf_enqueue; [done|]. simpl in *. lia.
  - by apply wf_subscribe.
Qed.

Lemma wf_exec e w : wf w → wf (exec tc e w).
Proof.
  intros Hwf. destruct e as [u o|item data|rootUri data|item|json|u r|f json|f e| |u i|u];
    cbn [exec].
  - eapply wf_grow; [done|]. apply ext_grow, ext_get.
  - eapply wf_grow; [done|]. apply ext_grow, ext_update.
  - eapply wf_grow; [done|]. apply ext_grow, ext_save.
  - eapply wf_grow; [done|]. apply ext_grow, ext_destroy.
  - eapply wf_grow; [done|]. apply ext_grow, ext_fromPotionJSON.
  - eapply wf_grow; [done|]. by apply growb_same.
  - by apply wf_settle_fetch.
  - by apply wf_settle_fetch.
  - unfold tick. destruct (microtasks w) as [|j rest] eqn:Hm; [done|]. by apply wf_run_job.
  - eapply wf_grow; [done|]. by apply growb_same.
  - eapply wf_grow; [done|]. by apply growb_same.
Qed.

Lemma run_snoc evs e w : run tc (evs ++ [e]) w = exec tc e (run tc evs w).
Proof. unfold run. by rewrite foldl_app. Qed.

Lemma run_app evs1 evs2 w : run tc (evs1 ++ evs2) w = run tc evs2 (run tc evs1 w).
Proof. unfold run. by rewrite foldl_app. Qed.

Lemma wf_run evs w : wf w → wf (run tc evs w).
Proof.
  revert w. induction evs as [|e evs IH]; intros w Hwf; [done|].
  simpl. apply IH. by apply wf_exec.
Qed.

Lemma reachable_wf w : reachable tc w → wf w.
Proof. intros (prefix & c & evs & ->). apply wf_run, wf_create. Qed.

Lemma reachable_run evs w : reachable tc w → reachable tc (run tc evs w).
Proof.
  intros (prefix & c & evs0 & ->). exists prefix, c, (evs0 ++ evs). by rewrite run_app.
Qed.

End WF.

(** ** Steps that leave a promise undisturbed *)

Lemma is_pending_not_settled w p x : is_pending w p → settled_with w p x → False.
Proof.
  intros [rs Hp] Hx. unfold settled_with in Hx. rewrite Hp in Hx.
  injection Hx as Hx. by destruct (settlement_not_pending x rs).
Qed.

Lemma undisturbed_refl p S w : undisturbed p S w w.
Proof. split; auto. Qed.

Lemma undisturbed_trans p S w1 w2 w3 :
  undisturbed p S w1 w2 → undisturbed p S w2 w3 → undisturbed p S w1 w3.
Proof.
  intros H12 H23. split.
  - pose proof (und_length _ _ _ _ H12). pose proof (und_length _ _ _ _ H23). lia.
  - intros q x Hq. eapply und_settled; [exact H23|]. by eapply und_settled.
  - intros Hp. eapply und_pending; [exact H23|]. by eapply und_pending.
  - intros q r Hr Ht. eapply und_holds; [exact H12| |done]. by eapply und_holds.
  - intros f k Hr. eapply und_awaits; [exact H12|]. by eapply und_awaits.
  - intros j Hj Ht.
    destruct (und_queued _ _ _ _ H23 _ Hj Ht) as [Hj2|[(q & r & x & -> & Hr & Hx)|(f & k & x & -> & Hr & HS)]].
    + destruct (und_queued _ _ _ _ H12 _ Hj2 Ht) as [Hj1|[(q & r & x & -> & Hr & Hx)|(f & k & x & -> & Hr & HS)]].
      * by left.
      * right. left. exists q, r, x. split_and!; [done..|]. by eapply und_settled.
      * right. right. by exists f, k, x.
    + right. left. exists q, r, x. split_and!; [done| |done]. by eapply und_holds.
    + right. right. exists f, k, x. split_and!; [done| |done]. by eapply und_awaits.
  - intros q r Hr Ht.
    destruct (und_holds_fwd _ _ _ _ H12 _ _ Hr Ht) as [Hr2|(x & Hx & Hj)].
    + by eapply und_holds_fwd.
    + right. exists x. split; [by eapply und_settled|]. by eapply und_queued_fwd.
  - intros f k Hr.
    destruct (und_awaits_fwd _ _ _ _ H12 _ _ Hr) as [Hr2|(x & Hj & HS)].
    + by eapply und_awaits_fwd.
    + right. exists x. split; [|done]. by eapply und_queued_fwd.
  - intros j Hj Ht. eapply und_queued_fwd; [exact H23| |done]. by eapply und_queued_fwd.
  - by rewrite (und_alls _ _ _ _ H23), (und_alls _ _ _ _ H12).
  - intros i item Hi. eapply und_heap; [exact H23|]. by eapply und_heap.
Qed.

Lemma undisturbed_grow p S n w w' :
  growb n w w' → p < n → alls w' !! p = alls w !! p →
  (∃ h, heap w' = heap w ++ h) → undisturbed p S w w'.
Proof.
  intros G Hp Ha [h Hh]. split.
  - apply G.
  - intros q x. by eapply grow_settled_with.
  - intros [rs Hrs]. destruct (grow_pending _ _ _ G _ _ Hrs) as (rs' & Hrs' & _). by eexists.
  - intros q r Hr Ht. destruct (grow_holds_back _ _ _ _ _ G Hr) as [?|[Hf _]]; [done|lia].
  - intros f k Hr. destruct (grow_awaits_back _ _ _ _ _ _ G Hr) as [?|[Hf _]]; [done|lia].
  - intros j Hj Ht. left.
    destruct (grow_queued_back _ _ _ _ G Hj) as [?|(r & x & -> & Hf & _)]; [done|].
    simpl in Ht. lia.
  - intros q r Hr _. left. by eapply grow_holds_fwd.
  - intros f k Hr. left. by eapply grow_awaits_fwd.
  - intros j Hj _. by eapply grow_queued_fwd.
  - done.
  - intros i item Hi. rewrite Hh. by apply lookup_app_l_Some.
Qed.

Lemma undisturbed_settle p S t x w : t ≠ p → undisturbed p S w (settle t x w).
Proof.
  intros Hne. split.
  - by rewrite settle_length.
  - intros q y Hq. apply settle_settled; [done|]. intros rs. apply settlement_not_pending.
  - intros [rs Hrs]. exists rs. by rewrite settle_promises_ne.
  - intros q r Hr _. by eapply settle_holds.
  - intros f k Hr. unfold awaits in *. by rewrite settle_fetches in Hr.
  - intros j Hj Ht. apply settle_queued in Hj as [Hj|(r & -> & Hr & Hx)]; [by left|].
    right. left. by exists t, r, x.
  - intros q r Hr _. pose proof (settle_holds_fwd t x w q r Hr) as H.
    case_decide; [subst q; destruct H; right; by exists x | by left].
  - intros f k Hr. left. unfold awaits in *. by rewrite settle_fetches.
  - intros j Hj _. by apply settle_queued_fwd.
  - by rewrite settle_alls.
  - by rewrite settle_heap.
Qed.

Lemma undisturbed_enqueue p S j w : job_target j ≠ p → undisturbed p S w (enqueue j w).
Proof.
  intros Hne. split; simpl; try done.
  - intros j' [Hj'|Hj'%list_elem_of_singleton]%elem_of_app Ht; [by left|]. by subst.
  - intros q r Hr _. by left.
  - intros f k Hr. by left.
  - intros j' Hj' _. apply elem_of_app. by left.
Qed.

Lemma undisturbed_subscribe p S q r w :
  reaction_target r ≠ p → undisturbed p S w (subscribe q r w).
Proof.
  intros Hne. split.
  - by rewrite subscribe_length.
  - intros q' x Hq. apply subscribe_settled; [done|]. intros rs. apply settlement_not_pending.
  - intros [rs Hrs]. destruct (subscribe_pending q r w p rs Hrs) as (rs' & Hrs' & _). by eexists.
  - intros q' r' Hr Ht. apply subscribe_holds in Hr as [Hr|(_ & -> & _)]; [done|]. done.
  - intros f k Hr. unfold awaits in *. by rewrite subscribe_fetches in Hr.
  - intros j Hj Ht. apply subscribe_queued in Hj as [Hj|(x & -> & Hx)]; [by left|]. done.
  - intros q' r' Hr _. left. by apply subscribe_holds_fwd.
  - intros f k Hr. left. unfold awaits in *. by rewrite subscribe_fetches.
  - intros j Hj _. by apply subscribe_queued_fwd.
  - by rewrite subscribe_alls.
  - by rewrite subscribe_heap.
Qed.

Lemma undisturbed_pop p S j rest w :
  microtasks w = j :: rest → job_target j ≠ p →
  undisturbed p S w (set_microtasks (λ _, rest) w).
Proof.
  intros Hm Hne. split; simpl; try done.
  - intros j' Hj' _. left. unfold queued. rewrite Hm. by right.
  - intros q r Hr _. by left.
  - intros f k Hr. by left.
  - intros j' Hj' Ht. unfold queued in Hj'. rewrite Hm in Hj'.
    apply elem_of_cons in Hj' as [->|Hj']; done.
Qed.

Lemma undisturbed_settle_fetch p f x w :
  undisturbed p (λ f' x', f' = f ∧ x' = x) w (settle_fetch f x w).
Proof.
  split.
  - by rewrite settle_fetch_promises.
  - intros q y. unfold settled_with. by rewrite settle_fetch_promises.
  - unfold is_pending. by rewrite settle_fetch_promises.
  - intros q r. unfold holds. by rewrite settle_fetch_promises.
  - intros f' k Hr. by apply settle_fetch_awaits in Hr as [Hr _].
  - intros j Hj Ht. apply settle_fetch_queued in Hj as [Hj|(k & d & -> & Hr)]; [by left|].
    right. right. simpl in Ht. subst d. by exists f, k, x.
  - intros q r Hr _. left. revert Hr. unfold holds. by rewrite settle_fetch_promises.
  - intros f' k Hr. pose proof (settle_fetch_awaits_fwd f x w f' k p Hr) as H.
    case_decide; [subst f'; right; by exists x | by left].
  - intros j Hj _. by apply settle_fetch_queued_fwd.
  - by rewrite settle_fetch_alls.
  - by rewrite settle_fetch_heap.
Qed.

Lemma undisturbed_weaken p (S S' : nat → json + error → Prop) w w' :
  (∀ f x, S f x → S' f x) → undisturbed p S w w' → undisturbed p S' w w'.
Proof.
  intros HS H. split; try apply H.
  - intros j Hj Ht.
    destruct (und_queued _ _ _ _ H _ Hj Ht) as [?|[?|(f & k & x & -> & Hr & Hs)]]; auto.
    right. right. exists f, k, x. auto.
  - intros f k Hr. destruct (und_awaits_fwd _ _ _ _ H _ _ Hr) as [?|(x & Hj & Hs)]; auto.
    right. exists x. auto.
Qed.

Lemma run_fcallback_framed k json w :
  _prefix (run_fcallback k json w).2 = _prefix w ∧
  resources (run_fcallback k json w).2 = resources w ∧
  heap (run_fcallback k json w).2 = heap w ∧
  ∀ a, a < length (promises w) → alls (run_fcallback k json w).2 !! a = alls w !! a.
Proof.
  destruct k as [u| |u]; simpl.
  - unfold bind, modify, ret. cbn [fst snd].
    pose proof (ext_fromPotionJSON json (set_ledger (delete u) w)) as [_ F].
    destruct (_fromPotionJSON json _) as [[q|e] w']; simpl in *;
      (split_and!; [apply F..|]; intros a Ha; by apply F).
  - unfold bind, ret.
    pose proof (ext_fromPotionJSON json w) as [_ F].
    destruct (_fromPotionJSON json _) as [[q|e] w']; simpl in *;
      (split_and!; [apply F..|]; intros a Ha; by apply F).
  - unfold bind, modify, ret. cbn [fst snd]. by destruct (cache_get u w).
Qed.

Lemma after_callback_alls tc j w p :
  job_target j ≠ p → p < length (promises w) →
  alls (after_callback tc j w) !! p = alls w !! p.
Proof.
  intros Hne Hp. destruct j as [[k d|a i|d] [v|e]|k d [json|e]|d q]; simpl in *; try done.
  - destruct (run_callback_frame tc k v w) as (_ & _ & _ & _ & -> & _). done.
  - destruct (alls w !! a) eqn:Ha; [|done]. simpl. by rewrite lookup_insert_ne.
  - by apply run_fcallback_framed.
Qed.

Section Steps.
Variable tc : string → string.

Lemma undisturbed_run_job p S j rest w :
  microtasks w = j :: rest → job_target j ≠ p → p < length (promises w) →
  undisturbed p S w (run_job tc j (set_microtasks (λ _, rest) w)).
Proof.
  intros Hm Hne Hp. set (w0 := set_microtasks (λ _, rest) w).
  assert (undisturbed p S w w0) as H0 by by eapply undisturbed_pop.
  assert (undisturbed p S w0 (after_callback tc j w0)) as Hc.
  { eapply undisturbed_grow; [apply after_callback_grow|done| |apply after_callback_heap].
    by apply after_callback_alls. }
  eapply undisturbed_trans; [exact H0|]. rewrite run_job_eq.
  destruct j as [r x|k d x|d q].
  - eapply undisturbed_trans; [exact Hc|].
    destruct (job_finish tc (JReaction r x) w0);
      [apply undisturbed_refl | by apply undisturbed_settle | by apply undisturbed_enqueue].
  - eapply undisturbed_trans; [exact Hc|].
    destruct (job_finish tc (JFetch k d x) w0);
      [apply undisturbed_refl | by apply undisturbed_settle | by apply undisturbed_enqueue].
  - by apply undisturbed_subscribe.
Qed.

Lemma undisturbed_ext p S w w' :
  ext w w' → p < length (promises w) → undisturbed p S w w'.
Proof.
  intros [G F] Hp. eapply undisturbed_grow; [exact G|done|by apply F|].
  exists []. rewrite app_nil_r. apply F.
Qed.

(** Every event except the run of a job of [p] leaves [p] undisturbed. *)
Lemma exec_undisturbed p e w :
  p < length (promises w) →
  (∀ j rest, e = Tick → microtasks w = j :: rest → job_target j ≠ p) →
  undisturbed p (settles e) w (exec tc e w).
Proof.
  intros Hp Hhead.
  destruct e as [u o|item data|rootUri data|item|json|u r|f json|f e| |u i|u]; cbn [exec].
  - apply undisturbed_ext; [apply ext_get | done].
  - apply undisturbed_ext; [apply ext_update | done].
  - apply undisturbed_ext; [apply ext_save | done].
  - apply undisturbed_ext; [apply ext_destroy | done].
  - apply undisturbed_ext; [apply ext_fromPotionJSON | done].
  - eapply undisturbed_grow; [by apply growb_same | done | done |].
    exists []. by rewrite app_nil_r.
  - eapply undisturbed_weaken; [|apply undisturbed_settle_fetch]. by intros f' x' [-> ->].
  - eapply undisturbed_weaken; [|apply undisturbed_settle_fetch]. by intros f' x' [-> ->].
  - unfold tick. destruct (microtasks w) as [|j rest] eqn:Hm; [apply undisturbed_refl|].
    apply undisturbed_run_job; [done| |done]. by eapply Hhead.
  - eapply undisturbed_grow; [by apply growb_same | done | done |].
    exists []. by rewrite app_nil_r.
  - eapply undisturbed_grow; [by apply growb_same | done | done |].
    exists []. by rewrite app_nil_r.
Qed.

(** Settled promises stay as they are, whatever happens. *)
Lemma exec_settled_with e w p x : settled_with w p x → settled_with (exec tc e w) p x.
Proof.
  intros Hx.
  assert (∀ w', grow w w' → settled_with w' p x) as Hg.
  { intros w' G. by eapply grow_settled_with. }
  destruct e as [u o|item data|rootUri data|item|json|u r|f json|f e| |u i|u]; cbn [exec].
  - apply Hg, ext_grow, ext_get.
  - apply Hg, ext_grow, ext_update.
  - apply Hg, ext_grow, ext_save.
  - apply Hg, ext_grow, ext_destroy.
  - apply Hg, ext_grow, ext_fromPotionJSON.
  - done.
  - unfold settled_with. by rewrite settle_fetch_promises.
  - unfold settled_with. by rewrite settle_fetch_promises.
  - unfold tick. destruct (microtasks w) as [|j rest] eqn:Hm; [done|].
    set (w0 := set_microtasks (λ _, rest) w).
    assert (settled_with (after_callback tc j w0) p x) as Hc.
    { eapply grow_settled_with; [apply after_callback_grow|done]. }
    assert (∀ t y w', settled_with w' p x → settled_with (settle t y w') p x) as Hs.
    { intros t y w' H. apply settle_settled; [done|]. intros rs. apply settlement_not_pending. }
    rewrite run_job_eq. destruct j as [r y|k d y|d q].
    + destruct (job_finish tc (JReaction r y) w0); auto.
    + destruct (job_finish tc (JFetch k d y) w0); auto.
    + apply subscribe_settled; [done|]. intros rs. apply settlement_not_pending.
  - done.
  - done.
Qed.

Lemma run_settled_with evs w p x : settled_with w p x → settled_with (run tc evs w) p x.
Proof.
  revert w. induction evs as [|e evs IH]; intros w Hx; [done|].
  simpl. apply IH. by apply exec_settled_with.
Qed.

Lemma exec_length e w : length (promises w) ≤ length (promises (exec tc e w)).
Proof.
  assert (∀ w', grow w w' → length (promises w) ≤ length (promises w')) as Hg.
  { intros w' G. apply G. }
  destruct e as [u o|item data|rootUri data|item|json|u r|f json|f e| |u i|u]; cbn [exec].
  - apply Hg, ext_grow, ext_get.
  - apply Hg, ext_grow, ext_update.
  - apply Hg, ext_grow, ext_save.
  - apply Hg, ext_grow, ext_destroy.
  - apply Hg, ext_grow, ext_fromPotionJSON.
  - done.
  - by rewrite settle_fetch_promises.
  - by rewrite settle_fetch_promises.
  - unfold tick. destruct (microtasks w) as [|j rest] eqn:Hm; [done|].
    set (w0 := set_microtasks (λ _, rest) w).
    pose proof (grow_length _ _ _ (after_callback_grow tc j w0)) as L.
    rewrite run_job_eq. destruct j as [r y|k d y|d q].
    + destruct (job_finish tc (JReaction r y) w0); rewrite ?settle_length; done.
    + destruct (job_finish tc (JFetch k d y) w0); rewrite ?settle_length; done.
    + by rewrite subscribe_length.
  - done.
  - done.
Qed.

Lemma run_length evs w : length (promises w) ≤ length (promises (run tc evs w)).
Proof.
  revert w. induction evs as [|e evs IH]; intros w; [done|].
  simpl. etrans; [apply (exec_length e)|apply IH].
Qed.

End Steps.

(** ** The pending-request ledger *)

Lemma gets_enqueue j w :
  microtasks (enqueue j w) ≫= gets_of_job = (microtasks w ≫= gets_of_job) ++ gets_of_job j.
Proof. simpl. by rewrite bind_app, bind_singleton. Qed.

Lemma gets_reactions {A} (f : A → job) (l : list A) :
  (∀ a, gets_of_job (f a) = []) → (f <$> l) ≫= gets_of_job = [].
Proof. intros H. induction l as [|a l IH]; [done|]. rewrite fmap_cons, bind_cons, H, IH. done. Qed.

Lemma settle_gets d x w :
  microtasks (settle d x w) ≫= gets_of_job = microtasks w ≫= gets_of_job.
Proof.
  destruct (settle_eq d x w) as [[-> _]|(rs & Hd & ->)]; [done|].
  simpl. by rewrite bind_app, gets_reactions, app_nil_r.
Qed.

Lemma subscribe_gets p r w :
  microtasks (subscribe p r w) ≫= gets_of_job = microtasks w ≫= gets_of_job.
Proof.
  destruct (subscribe_eq p r w) as [(rs0 & Hp & ->)|[(x & Hx & ->)|[_ ->]]]; try done.
  by rewrite gets_enqueue, app_nil_r.
Qed.

Lemma same_gets_refl w : same_gets w w.
Proof. done. Qed.

Lemma same_gets_trans w1 w2 w3 : same_gets w1 w2 → same_gets w2 w3 → same_gets w1 w3.
Proof. intros (?&?&?) (?&?&?). split_and!; congruence. Qed.

Lemma same_gets_settle d x w : same_gets w (settle d x w).
Proof. split_and!; [apply settle_fetches | apply settle_gets | apply settle_ledger]. Qed.

Lemma same_gets_subscribe p r w : same_gets w (subscribe p r w).
Proof. split_and!; [apply subscribe_fetches | apply subscribe_gets | apply subscribe_ledger]. Qed.

Lemma same_gets_then p k w : same_gets w (then_ p k w).2.
Proof.
  rewrite then_eq. cbn [snd]. eapply same_gets_trans; [|apply same_gets_subscribe]. done.
Qed.

Lemma same_gets_subscribe_all a l w :
  same_gets w (foldl (λ w' '(i, p), subscribe p (RAllElem a i) w') w l).
Proof.
  revert w. induction l as [|[i q] l IH]; intros w; simpl; [apply same_gets_refl|].
  eapply same_gets_trans; [apply same_gets_subscribe | apply IH].
Qed.

Lemma same_gets_promise_all ps w : same_gets w (promise_all ps w).2.
Proof.
  destruct ps as [|p ps]; [done|]. rewrite promise_all_eq by done. cbn [snd].
  eapply same_gets_trans; [|apply same_gets_subscribe_all]. done.
Qed.

Lemma ledger_ok_same w w' : same_gets w w' → ledger_ok w → ledger_ok w'.
Proof.
  intros (Hf & Hm & Hl) [H1 H2]. unfold pending_gets in *.
  split; unfold pending_gets; rewrite Hf, Hm, ?Hl; done.
Qed.

Lemma in_flight_same u p F w w' : same_gets w w' → in_flight u p F w → in_flight u p F w'.
Proof. intros (Hf & Hm & Hl) [H1 H2 H3]. split; rewrite ?Hf, ?Hm, ?Hl; done. Qed.

Lemma gets_of_new_fetch uri o k d :
  gets_of_fetch {| fetch_uri := uri; fetch_options := o; fetch_state := FPending [(k, d)] |}
  = get_of k.
Proof. unfold gets_of_fetch. simpl. by rewrite app_nil_r. Qed.

Lemma ledger_ok_get u o w : ledger_ok w → ledger_ok (get u o w).2.
Proof.
  intros Hok. destruct (cache_get u w) as [i|] eqn:Hc.
  - rewrite (get_cached _ _ _ _ Hc). by apply (ledger_ok_same w).
  - destruct (_promises w !! u) as [p|] eqn:Hl.
    + by rewrite (get_pending _ _ _ _ Hc Hl).
    + rewrite (get_miss _ _ _ Hc Hl). cbn [snd]. destruct Hok as [H1 H2].
      assert (u ∉ pending_gets w) as Hu.
      { intros Hu. apply H2 in Hu as [p Hp]. congruence. }
      split; unfold pending_gets in *; simpl; rewrite bind_app, bind_singleton, gets_of_new_fetch;
        simpl.
      * rewrite <- app_assoc. simpl. apply NoDup_app in H1 as (Ha & Hab & Hb).
        apply NoDup_app. split_and!; [done| |].
        -- intros y Hy [->|Hy']%elem_of_cons; [|by eapply Hab].
           apply Hu. apply elem_of_app. by left.
        -- apply NoDup_cons. split; [|done]. intros Hb'. apply Hu. apply elem_of_app. by right.
      * intros y Hy. destruct (decide (y = u)) as [->|Hne].
        -- rewrite lookup_insert_eq. by eexists.
        -- rewrite lookup_insert_ne by done. apply H2.
           rewrite <- app_assoc in Hy. simpl in Hy.
           apply elem_of_app in Hy as [Hy|[->|Hy]%elem_of_cons]; [|done|];
             apply elem_of_app; auto.
Qed.

Lemma in_flight_get u p F u' o w : in_flight u p F w → in_flight u p F (get u' o w).2.
Proof.
  intros Hin. destruct (cache_get u' w) as [i|] eqn:Hc.
  - rewrite (get_cached _ _ _ _ Hc). by apply (in_flight_same _ _ _ w).
  - destruct (_promises w !! u') as [p'|] eqn:Hl.
    + by rewrite (get_pending _ _ _ _ Hc Hl).
    + rewrite (get_miss _ _ _ Hc Hl). cbn [snd]. destruct Hin as [H1 H2 H3].
      assert (u ≠ u') as Hne by (intros ->; congruence).
      split; simpl.
      * by rewrite lookup_insert_ne.
      * intros f x [Hf|[_ Hf]]%lookup_app_Some Hu; [by eapply H2|].
        apply list_lookup_singleton_Some in Hf as [_ <-].
        rewrite gets_of_new_fetch in Hu. simpl in Hu.
        apply list_elem_of_singleton in Hu. done.
      * done.
Qed.

Global Instance keeps_reflexive I : Reflexive (keeps I).
Proof. intros w H. exact H. Qed.

Global Instance keeps_transitive I : Transitive (keeps I).
Proof. intros w1 w2 w3 H12 H23 H. apply H23, H12, H. Qed.

Lemma ledger_ok_fromPotionJSON json : preserves (keeps ledger_ok) (_fromPotionJSON json).
Proof.
  apply preserves_fromPotionJSON; try apply _.
  - intros v w. red. by apply ledger_ok_same.
  - intros p k w. red. apply ledger_ok_same, same_gets_then.
  - intros ps w. red. apply ledger_ok_same, same_gets_promise_all.
  - intros u o w. red. apply ledger_ok_get.
Qed.

Lemma in_flight_fromPotionJSON u p F json :
  preserves (keeps (in_flight u p F)) (_fromPotionJSON json).
Proof.
  apply preserves_fromPotionJSON; try apply _.
  - intros v w. red. by apply in_flight_same.
  - intros q k w. red. apply in_flight_same, same_gets_then.
  - intros ps w. red. apply in_flight_same, same_gets_promise_all.
  - intros u' o w. red. apply in_flight_get.
Qed.

(** A new transport call whose continuation is not that of a [get()]. *)
Lemma pending_gets_new_fetch w uri o k d :
  get_of k = [] →
  pending_gets (set_fetches (λ fs, fs ++ [{| fetch_uri := uri; fetch_options := o;
                                             fetch_state := FPending [(k, d)] |}])
                  (set_promises (λ ps, ps ++ [Pending []]) w)) = pending_gets w.
Proof.
  intros Hk. unfold pending_gets. simpl.
  by rewrite bind_app, bind_singleton, gets_of_new_fetch, Hk, app_nil_r.
Qed.

Lemma ledger_ok_new_fetch w uri o k d :
  get_of k = [] → ledger_ok w →
  ledger_ok (set_fetches (λ fs, fs ++ [{| fetch_uri := uri; fetch_options := o;
                                          fetch_state := FPending [(k, d)] |}])
               (set_promises (λ ps, ps ++ [Pending []]) w)).
Proof.
  intros Hk [H1 H2]. split; rewrite pending_gets_new_fetch by done; done.
Qed.

Lemma in_flight_new_fetch u p F w uri o k d :
  get_of k = [] → in_flight u p F w →
  in_flight u p F (set_fetches (λ fs, fs ++ [{| fetch_uri := uri; fetch_options := o;
                                                fetch_state := FPending [(k, d)] |}])
                     (set_promises (λ ps, ps ++ [Pending []]) w)).
Proof.
  intros Hk [H1 H2 H3]. split; simpl; try done.
  intros f x [Hf|[_ Hf]]%lookup_app_Some Hu; [by eapply H2|].
  apply list_lookup_singleton_Some in Hf as [_ <-].
  rewrite gets_of_new_fetch, Hk in Hu. by apply elem_of_nil in Hu.
Qed.

Lemma mutations_keep (I : World → Prop) :
  (∀ w uri o k d, get_of k = [] → I w →
     I (set_fetches (λ fs, fs ++ [{| fetch_uri := uri; fetch_options := o;
                                     fetch_state := FPending [(k, d)] |}])
          (set_promises (λ ps, ps ++ [Pending []]) w))) →
  ∀ w, I w →
    (∀ item data, I (update item data w).2) ∧
    (∀ rootUri data, I (save rootUri data w).2) ∧
    (∀ item, I (destroy item w).2).
Proof.
  intros HI w Hw. split_and!.
  - intros item data. destruct (Item_uri item) as [uri|] eqn:H.
    + rewrite (update_eq _ _ _ _ H). by apply HI.
    + unfold update. by rewrite (mutation_throws _ _ _ H).
  - intros rootUri data. rewrite save_eq. by apply HI.
  - intros item. destruct (Item_uri item) as [uri|] eqn:H.
    + rewrite (destroy_eq _ _ _ H). by apply HI.
    + unfold destroy. by rewrite (mutation_throws _ _ _ H).
Qed.

Lemma ledger_ok_shrink l w w' :
  pending_gets w ≡ₚ l ++ pending_gets w' →
  (∀ u, u ∈ pending_gets w' → u ∉ l → _promises w' !! u = _promises w !! u) →
  ledger_ok w → ledger_ok w'.
Proof.
  intros Hp Hl [H1 H2]. rewrite Hp in H1. apply NoDup_app in H1 as (_ & Hd & H1).
  split; [done|]. intros u Hu. rewrite Hl; [|done|].
  - apply H2. rewrite Hp. apply elem_of_app. by right.
  - intros Hul. by eapply Hd.
Qed.

Lemma gets_of_fetch_jobs rs json :
  ((λ '(k, d), JFetch k d (inl json)) <$> rs) ≫= gets_of_job = rs.*1 ≫= get_of.
Proof.
  induction rs as [|[k d] rs IH]; [done|]. rewrite !fmap_cons, !bind_cons, IH. done.
Qed.

Lemma pending_gets_settle_fetch f x w :
  ∃ l, pending_gets w ≡ₚ l ++ pending_gets (settle_fetch f x w).
Proof.
  destruct (settle_fetch_eq f x w) as [[-> _]|(rec & rs & Hf & Hs & ->)]; [by exists []|].
  assert (gets_of_fetch rec = rs.*1 ≫= get_of) as Hrec by (unfold gets_of_fetch; by rewrite Hs).
  assert (gets_of_fetch {| fetch_uri := fetch_uri rec; fetch_options := fetch_options rec;
                           fetch_state := fsettlement x |} = []) as Hrec'.
  { unfold gets_of_fetch. by destruct x. }
  pose proof (take_drop_middle _ _ _ Hf) as Hfw.
  pose proof (insert_take_drop (fetches w) f
                {| fetch_uri := fetch_uri rec; fetch_options := fetch_options rec;
                   fetch_state := fsettlement x |} (lookup_lt_Some _ _ _ Hf)) as Hins.
  revert Hfw Hins. generalize (take f (fetches w)) (drop (S f) (fetches w)). intros l1 l2 Hfw Hins.
  unfold pending_gets. simpl. rewrite Hins, <- Hfw.
  rewrite !bind_app, !bind_cons, Hrec, Hrec'.
  destruct x as [json|e].
  - exists []. rewrite gets_of_fetch_jobs. simpl.
    rewrite <- !app_assoc. apply Permutation_app_head.
    etrans; [apply Permutation_app_comm|]. by rewrite <- app_assoc.
  - exists (rs.*1 ≫= get_of). simpl.
    rewrite (gets_reactions (λ '(k, d), JFetch k d (inr e))), app_nil_r by (by intros [k d]).
    rewrite !app_assoc. apply Permutation_app_tail, Permutation_app_tail.
    apply Permutation_app_comm.
Qed.

Lemma ledger_ok_settle_fetch f x w : ledger_ok w → ledger_ok (settle_fetch f x w).
Proof.
  destruct (pending_gets_settle_fetch f x w) as [l Hl].
  apply (ledger_ok_shrink l); [done|]. intros u _ _. by rewrite settle_fetch_ledger.
Qed.

Lemma in_flight_settle_fetch u p F f x w :
  (∀ json, x = inl json → ¬ F f) → in_flight u p F w → in_flight u p F (settle_fetch f x w).
Proof.
  intros HF [H1 H2 H3].
  destruct (settle_fetch_eq f x w) as [[-> _]|(rec & rs & Hf & Hs & ->)]; [done|].
  split; simpl.
  - done.
  - intros f' x' Hf' Hu. destruct (decide (f = f')) as [->|Hne].
    + rewrite list_lookup_insert_eq in Hf' by (by eapply lookup_lt_Some). simplify_eq.
      unfold gets_of_fetch in Hu. simpl in Hu. destruct x; by apply elem_of_nil in Hu.
    + rewrite list_lookup_insert_ne in Hf' by done. by eapply H2.
  - rewrite bind_app. intros [Hu|Hu]%elem_of_app; [done|].
    destruct x as [json|e].
    + apply (HF json eq_refl). apply (H2 f rec Hf). unfold gets_of_fetch. rewrite Hs.
      by rewrite gets_of_fetch_jobs in Hu.
    + rewrite (gets_reactions (λ '(k, d), JFetch k d (inr e))) in Hu by (by intros [k d]).
      by apply elem_of_nil in Hu.
Qed.

Lemma same_gets_enqueue j w : gets_of_job j = [] → same_gets w (enqueue j w).
Proof. intros Hj. split_and!; try done. by rewrite gets_enqueue, Hj, app_nil_r. Qed.

Section Ledger.
Variable tc : string → string.

Lemma run_job_same_gets j w : same_gets (after_callback tc j w) (run_job tc j w).
Proof.
  rewrite run_job_eq. destruct j as [r x|k d x|d q].
  - destruct (job_finish tc (JReaction r x) w);
      [done | apply same_gets_settle | by apply same_gets_enqueue].
  - destruct (job_finish tc (JFetch k d x) w);
      [done | apply same_gets_settle | by apply same_gets_enqueue].
  - apply same_gets_subscribe.
Qed.

(** The callback of a job, for an invariant that steps without effect on
    the ledger keep, as does hydration. *)
Lemma after_callback_keeps (I : World → Prop) j w :
  (∀ w w', same_gets w w' → I w → I w') →
  (∀ json, preserves (keeps I) (_fromPotionJSON json)) →
  (∀ u d json, j = JFetch (KGetThen u) d (inl json) → I (set_ledger (delete u) w)) →
  I w → I (after_callback tc j w).
Proof.
  intros Hsame Hhyd Hdel Hw.
  destruct j as [[k d|a i|d] [v|e]|k d [json|e]|d q]; simpl; try done.
  - destruct (run_callback_frame tc k v w) as (_ & Hf & Hm & Hl & _).
    apply (Hsame w); [|done]. split_and!; [done| |done]. by rewrite Hm.
  - destruct (alls w !! a); [|done]. by apply (Hsame w).
  - destruct k as [u| |u]; simpl.
    + unfold bind, modify, ret. cbn [fst snd].
      pose proof (Hhyd json (set_ledger (delete u) w) (Hdel u d json eq_refl)) as H.
      by destruct (_fromPotionJSON json _) as [[q|e] w'].
    + unfold bind, ret. pose proof (Hhyd json w Hw) as H.
      by destruct (_fromPotionJSON json _) as [[q|e] w'].
    + unfold bind, modify, ret. cbn [fst snd].
      destruct (cache_get u w); [|done]. by apply (Hsame w).
Qed.

Lemma pending_gets_pop j rest w :
  microtasks w = j :: rest →
  pending_gets w ≡ₚ gets_of_job j ++ pending_gets (set_microtasks (λ _, rest) w).
Proof.
  intros Hm. unfold pending_gets. simpl. rewrite Hm, bind_cons.
  rewrite !app_assoc. apply Permutation_app_tail, Permutation_app_comm.
Qed.

Lemma ledger_ok_tick w : ledger_ok w → ledger_ok (tick tc w).
Proof.
  intros Hok. unfold tick. destruct (microtasks w) as [|j rest] eqn:Hm; [done|].
  set (w0 := set_microtasks (λ _, rest) w).
  pose proof (pending_gets_pop _ _ _ Hm) as Hperm. fold w0 in Hperm.
  assert (ledger_ok w0) as Hok0 by (by eapply ledger_ok_shrink).
  assert (∀ u, u ∈ gets_of_job j → u ∉ pending_gets w0) as Hdisj.
  { destruct Hok as [H1 _]. rewrite Hperm in H1. apply NoDup_app in H1 as (_ & Hd & _). done. }
  eapply ledger_ok_same; [apply run_job_same_gets|].
  apply after_callback_keeps; [apply ledger_ok_same | apply ledger_ok_fromPotionJSON | | done].
  intros u d json ->. apply (ledger_ok_shrink [] w0); [done| |done].
  intros u' Hu' _. simpl. apply lookup_delete_ne. intros ->.
  apply (Hdisj u'); [|done]. simpl. by left.
Qed.

Lemma ledger_ok_exec e w : ledger_ok w → ledger_ok (exec tc e w).
Proof.
  intros Hok.
  destruct (mutations_keep ledger_ok ledger_ok_new_fetch w Hok) as (Hu & Hs & Hd).
  destruct e as [u o|item data|rootUri data|item|json|u r|f json|f e| |u i|u]; cbn [exec];
    try done.
  - by apply ledger_ok_get.
  - by apply ledger_ok_fromPotionJSON.
  - by apply (ledger_ok_same w).
  - by apply ledger_ok_settle_fetch.
  - by apply ledger_ok_settle_fetch.
  - by apply ledger_ok_tick.
  - by apply (ledger_ok_same w).
  - by apply (ledger_ok_same w).
Qed.

Lemma ledger_ok_create prefix c : ledger_ok (create prefix c).
Proof.
  split; unfold pending_gets; simpl; [apply NoDup_nil_2|].
  intros u Hu. by apply elem_of_nil in Hu.
Qed.

Lemma reachable_ledger_ok w : reachable tc w → ledger_ok w.
Proof.
  intros (prefix & c & evs & ->). generalize (ledger_ok_create prefix c).
  generalize (create prefix c). induction evs as [|e evs IH]; intros w Hw; [done|].
  simpl. apply IH. by apply ledger_ok_exec.
Qed.

Lemma in_flight_tick u p F w : in_flight u p F w → in_flight u p F (tick tc w).
Proof.
  intros Hin. unfold tick. destruct (microtasks w) as [|j rest] eqn:Hm; [done|].
  set (w0 := set_microtasks (λ _, rest) w).
  assert ((u ∉ gets_of_job j) ∧ in_flight u p F w0) as [Hj Hin0].
  { destruct Hin as [H1 H2 H3]. rewrite Hm, bind_cons in H3.
    split; [|split; try done]; intros Hu; apply H3, elem_of_app; auto. }
  eapply in_flight_same; [apply run_job_same_gets|].
  apply after_callback_keeps;
    [apply in_flight_same | apply in_flight_fromPotionJSON | | done].
  intros u' d json ->. destruct Hin0 as [H1 H2 H3]. split; simpl; try done.
  rewrite lookup_delete_ne; [done|]. intros ->. apply Hj. simpl. by left.
Qed.

(** The ledger keeps its promise for [u] over every event except the
    response of a transport call in [F]. *)
Lemma in_flight_exec u p F e w :
  (∀ f json, e = Respond f json → ¬ F f) →
  in_flight u p F w → in_flight u p F (exec tc e w).
Proof.
  intros HF Hin.
  destruct (mutations_keep _ (in_flight_new_fetch u p F) w Hin) as (Hu & Hs & Hd).
  destruct e as [u' o|item data|rootUri data|item|json|u' r|f json|f e| |u' i|u']; cbn [exec];
    try done.
  - by apply in_flight_get.
  - by apply in_flight_fromPotionJSON.
  - by apply (in_flight_same _ _ _ w).
  - apply in_flight_settle_fetch; [|done]. intros json' _. by eapply HF.
  - by apply in_flight_settle_fetch.
  - by apply in_flight_tick.
  - by apply (in_flight_same _ _ _ w).
  - by apply (in_flight_same _ _ _ w).
Qed.

End Ledger.

(** ** Request coalescing *)

Section Coalescing.
Variable tc : string → string.

Lemma in_flight_run u p F evs w :
  (∀ f json, Respond f json ∈ evs → ¬ F f) →
  in_flight u p F w → in_flight u p F (run tc evs w).
Proof.
  revert w. induction evs as [|e evs IH]; intros w HF Hin; [done|].
  simpl. apply IH.
  - intros f json Hin'. apply (HF f json). by right.
  - apply in_flight_exec; [|done]. intros f json ->. apply (HF f json). by left.
Qed.

(** After a [get()] that missed the cache and the ledger. *)
Lemma in_flight_get_miss u o w :
  ledger_ok w → cache_get u w = None → _promises w !! u = None →
  in_flight u (length (promises w)) (λ f, f = length (fetches w)) (get u o w).2.
Proof.
  intros [_ Hok] Hc Hl. rewrite (get_miss _ _ _ Hc Hl). cbn [snd].
  assert (u ∉ pending_gets w) as Hu.
  { intros Hu. apply Hok in Hu as [p Hp]. congruence. }
  split; simpl.
  - apply lookup_insert_eq.
  - intros f x [Hf|[Hlen Hf]]%lookup_app_Some Hx.
    + destruct Hu. apply elem_of_app. left. apply list_elem_of_bind. exists x.
      split; [done|]. by eapply list_elem_of_lookup_2.
    + apply list_lookup_singleton_Some in Hf as [Hf _]. lia.
  - intros Hx. apply Hu. apply elem_of_app. by right.
Qed.


Lemma waiting_get_miss u o w :
  wf w → cache_get u w = None → _promises w !! u = None →
  waiting u (length (promises w)) (length (fetches w)) (get u o w).2.
Proof.
  intros [H1 H2 H3] Hc Hl. rewrite (get_miss _ _ _ Hc Hl). cbn [snd]. split; simpl.
  - rewrite length_app. simpl. lia.
  - exists []. by apply list_lookup_middle.
  - eexists _, _. simpl. split_and!; [by apply list_lookup_middle|done|]. by left.
  - intros q r (rs & Hq & Hr) Ht. simpl in Hq.
    apply lookup_app_Some in Hq as [Hq|[_ Hq]].
    + assert (holds w q r) as Hh by (by exists rs). apply H1 in Hh. lia.
    + apply list_lookup_singleton_Some in Hq as [_ [= <-]]. by apply elem_of_nil in Hr.
  - intros f' k (x & rs & Hf & Hx & Hk). simpl in Hf.
    apply lookup_app_Some in Hf as [Hf|[Hlen Hf]].
    + assert (awaits w f' k (length (promises w))) as Ha by (by exists x, rs).
      apply H2 in Ha. lia.
    + apply list_lookup_singleton_Some in Hf as [Hf <-]. simpl in Hx. simplify_eq.
      apply list_elem_of_singleton in Hk. simplify_eq. split; [lia|done].
  - intros j Hj Ht. apply H3 in Hj. lia.
Qed.

Lemma waiting_exec u p f e w :
  (∀ x, ¬ settles e f x) → waiting u p f w → waiting u p f (exec tc e w).
Proof.
  intros Hne [Hb Hp Hon Hh Ha Hq].
  assert (undisturbed p (settles e) w (exec tc e w)) as U.
  { apply exec_undisturbed; [done|]. intros j rest _ Hm. apply Hq. unfold queued.
    rewrite Hm. by left. }
  split.
  - pose proof (und_length _ _ _ _ U). lia.
  - by apply U.
  - destruct (und_awaits_fwd _ _ _ _ U _ _ Hon) as [?|(x & _ & Hs)]; [done|]. by destruct (Hne x).
  - intros q r Hr Ht. eapply Hh; [|done]. by eapply und_holds.
  - intros f' k Hr. apply Ha. by eapply und_awaits.
  - intros j Hj Ht.
    destruct (und_queued _ _ _ _ U _ Hj Ht) as [Hj'|[(q & r & x & -> & Hr & _)|(f' & k & x & -> & Hr & Hs)]].
    + by eapply Hq.
    + by eapply Hh.
    + destruct (Ha _ _ Hr) as [-> _]. by destruct (Hne x).
Qed.

Lemma failing_fail u p f e w :
  waiting u p f w → failing u p e (settle_fetch f (inr e) w).
Proof.
  intros [Hb Hp Hon Hh Ha Hq].
  pose proof (undisturbed_settle_fetch p f (inr e) w) as U.
  split; [by rewrite settle_fetch_promises|]. right. split_and!.
  - by apply U.
  - pose proof (settle_fetch_awaits_fwd f (inr e) w f _ _ Hon) as H. by rewrite decide_True in H.
  - intros q r Hr Ht. eapply Hh; [|done]. by eapply und_holds.
  - intros f' k Hr. apply settle_fetch_awaits in Hr as [Hr Hne]. by destruct (Ha _ _ Hr).
  - intros j Hj Ht.
    destruct (und_queued _ _ _ _ U _ Hj Ht) as [Hj'|[(q & r & x & -> & Hr & _)|(f' & k & x & -> & Hr & _ & ->)]].
    + by destruct (Hq _ Hj').
    + by destruct (Hh _ _ Hr).
    + by destruct (Ha _ _ Hr) as [_ ->].
Qed.

Lemma failing_exec u p e ev w : failing u p e w → failing u p e (exec tc ev w).
Proof.
  intros [Hb [Hs|(Hp & Hj & Hh & Ha & Hq)]].
  { split; [pose proof (exec_length tc ev w); lia|]. left. by apply exec_settled_with. }
  split; [pose proof (exec_length tc ev w); lia|].
  assert ((∃ rest, ev = Tick ∧ microtasks w = JFetch (KGetThen u) p (inr e) :: rest) ∨
          (∀ j rest, ev = Tick → microtasks w = j :: rest → job_target j ≠ p))
    as [(rest & -> & Hm)|Hno].
  { destruct ev; try (right; intros; discriminate).
    destruct (microtasks w) as [|j rest] eqn:Hm; [right; intros; discriminate|].
    destruct (decide (job_target j = p)) as [Ht|Hne].
    - left. exists rest. split; [done|]. f_equal. apply Hq; [|done].
      unfold queued. rewrite Hm. by left.
    - right. by intros j' rest' _ [= <- <-]. }
  - left. cbn [exec]. rewrite (tick_cons _ _ _ _ Hm). cbn [run_job].
    destruct Hp as [rs Hrs]. by eapply settle_promises_eq.
  - right.
    assert (undisturbed p (settles ev) w (exec tc ev w)) as U.
    { by apply exec_undisturbed. }
    split_and!.
    + by apply U.
    + by eapply und_queued_fwd.
    + intros q r Hr Ht. eapply Hh; [|done]. by eapply und_holds.
    + intros f k Hr. eapply Ha. by eapply und_awaits.
    + intros j Hj' Ht.
      destruct (und_queued _ _ _ _ U _ Hj' Ht) as [?|[(q & r & x & -> & Hr & _)|(f' & k & x & -> & Hr & _)]].
      * by apply Hq.
      * by destruct (Hh _ _ Hr).
      * by destruct (Ha _ _ Hr).
Qed.

Lemma in_flight_failed u p f e w :
  waiting u p f w → in_flight u p (λ f', f' = f) w →
  in_flight u p (λ _, False) (settle_fetch f (inr e) w).
Proof.
  intros Hw Hin.
  pose proof (in_flight_settle_fetch u p _ f (inr e) w ltac:(done) Hin) as [H1 H2 H3].
  split; [done| |done]. intros f' x Hf' Hu. pose proof (H2 _ _ Hf' Hu) as ->.
  destruct (waiting_on _ _ _ _ Hw) as (rec & rs & Hf & Hs & _).
  destruct (settle_fetch_eq f (inr e) w) as [[_ Hn]|(rec' & rs' & Hf0 & Hs0 & E)].
  - destruct (Hn (KGetThen u) p). apply Hw.
  - rewrite E in Hf'. simpl in Hf'.
    rewrite list_lookup_insert_eq in Hf' by (by eapply lookup_lt_Some). simplify_eq.
    unfold gets_of_fetch in Hu. simpl in Hu. by apply elem_of_nil in Hu.
Qed.

Lemma waiting_run u p f evs w :
  (∀ ev x, ev ∈ evs → ¬ settles ev f x) →
  in_flight u p (λ f', f' = f) w → waiting u p f w →
  in_flight u p (λ f', f' = f) (run tc evs w) ∧ waiting u p f (run tc evs w).
Proof.
  revert w. induction evs as [|ev evs IH]; intros w Hevs Hin Hw; [done|]. simpl. apply IH.
  - intros ev' x Hin'. apply Hevs. by right.
  - apply in_flight_exec; [|done]. intros f' json -> ->.
    apply (Hevs (Respond f json) (inl json)); [by left|done].
  - apply waiting_exec; [|done]. intros x. apply Hevs. by left.
Qed.

Lemma failing_run u p e evs w :
  in_flight u p (λ _, False) w → failing u p e w →
  in_flight u p (λ _, False) (run tc evs w) ∧ failing u p e (run tc evs w).
Proof.
  revert w. induction evs as [|ev evs IH]; intros w Hi Hf; [done|]. simpl. apply IH.
  - apply in_flight_exec; [|done]. by intros f json _ [].
  - by apply failing_exec.
Qed.


End Coalescing.

Lemma reachable_users : reachable toCamelCase users.
Proof. by exists "", (Some ∅), [Call_register "/user" "User"]. Qed.




(** ** Links between promises *)

Lemma settled_with_inj w p x y : settled_with w p x → settled_with w p y → x = y.
Proof.
  unfold settled_with. intros H1 H2. rewrite H1 in H2.
  destruct x, y; simpl in H2; congruence.
Qed.

Lemma settled_or_pending w p :
  p < length (promises w) → is_pending w p ∨ ∃ x, settled_with w p x.
Proof.
  intros Hp. destruct (lookup_lt_is_Some_2 _ _ Hp) as [[rs|v|e] Hst].
  - left. by exists rs.
  - right. by exists (inl v).
  - right. by exists (inr e).
Qed.

Lemma settle_not_pending d x w : ¬ is_pending (settle d x w) d.
Proof.
  intros [rs Hrs]. destruct (settle_eq d x w) as [[Heq Hn]|(rs' & Hd & _)].
  - rewrite Heq in Hrs. apply Hn. by exists rs.
  - rewrite (settle_promises_eq _ _ _ _ Hd) in Hrs. by destruct x.
Qed.

Lemma settle_settled_with d x w p y :
  settled_with w p y → settled_with (settle d x w) p y.
Proof. intros H. apply settle_settled; [exact H|]. intros rs. apply settlement_not_pending. Qed.

Lemma settle_target d x w y :
  settled_with (settle d x w) d y → settled_with w d y ∨ (is_pending w d ∧ y = x).
Proof.
  intros H. destruct (settle_eq d x w) as [[Heq Hn]|(rs & Hd & _)].
  - left. by rewrite Heq in H.
  - right. split; [by exists rs|].
    eapply settled_with_inj; [exact H|]. by eapply settle_promises_eq.
Qed.

Lemma settle_settled_back d x w p y :
  p ≠ d → settled_with (settle d x w) p y → settled_with w p y.
Proof. intros Hp H. unfold settled_with in *. by rewrite settle_promises_ne in H. Qed.

Lemma undisturbed_pending_back p S w w' :
  undisturbed p S w w' → p < length (promises w) → is_pending w' p → is_pending w p.
Proof.
  intros U Hp Hpend. destruct (settled_or_pending w p Hp) as [|[x Hx]]; [done|].
  exfalso. eapply is_pending_not_settled; [exact Hpend|]. by eapply und_settled.
Qed.

Lemma undisturbed_settled_back p S w w' x :
  undisturbed p S w w' → p < length (promises w) → settled_with w' p x → settled_with w p x.
Proof.
  intros U Hp Hx. destruct (settled_or_pending w p Hp) as [Hpend|[y Hy]].
  - exfalso. eapply is_pending_not_settled; [|exact Hx]. by eapply und_pending.
  - by rewrite (settled_with_inj w' p x y Hx (und_settled _ _ _ _ U _ _ Hy)).
Qed.

Lemma all_core_undisturbed a ps S w w' :
  all_core a ps w → undisturbed a S w w' → all_core a ps w'.
Proof.
  intros L U. pose proof (all_bound _ _ _ L) as Hb. split.
  - pose proof (und_length _ _ _ _ U). lia.
  - apply L.
  - destruct (all_slots _ _ _ L) as (slots & Ha & Hlen & Hfill).
    exists slots. rewrite (und_alls _ _ _ _ U). split_and!; [done..|].
    intros i v Hi. destruct (Hfill i v Hi) as (p & Hp & Hs).
    exists p. split; [done|]. by eapply und_settled.
  - intros q r Hr Ht. eapply all_holds; [exact L| |done]. by eapply und_holds.
  - intros f k Hf. eapply all_awaits; [exact L|]. by eapply und_awaits.
  - intros j Hj Ht.
    destruct (und_queued _ _ _ _ U j Hj Ht) as [Hq|[(q & r & x & -> & Hr & Hs)|(f & k & x & -> & Hf & _)]].
    + destruct (all_queued _ _ _ L j Hq Ht) as (i & p & x & -> & Hp & Hs).
      exists i, p, x. split_and!; [done..|]. by eapply und_settled.
    + destruct (all_holds _ _ _ L q r Hr Ht) as (i & -> & Hp). by exists i, q, x.
    + by destruct (all_awaits _ _ _ L f k).
  - intros y Hy. apply (undisturbed_settled_back _ _ _ _ _ U Hb) in Hy.
    destruct (all_fulfilled _ _ _ L y Hy) as (vs & -> & Hvs). exists vs. split; [done|].
    eapply Forall2_impl; [exact Hvs|]. intros p v Hs. by eapply und_settled.
  - intros e He. apply (undisturbed_settled_back _ _ _ _ _ U Hb) in He.
    destruct (all_rejected _ _ _ L e He) as (p & Hp & Hs). exists p. split; [done|].
    by eapply und_settled.
Qed.

Lemma all_link_undisturbed a ps S w w' :
  all_link a ps w → undisturbed a S w w' → all_link a ps w'.
Proof.
  intros [L W] U. split; [by eapply all_core_undisturbed|].
  intros Hpend. pose proof (all_bound _ _ _ L) as Hb.
  destruct (W (undisturbed_pending_back _ _ _ _ U Hb Hpend)) as (slots & Ha & Hnone & Hw).
  exists slots. rewrite (und_alls _ _ _ _ U). split_and!; [done..|].
  intros i p Hp Hi. destruct (Hw i p Hp Hi) as [Hh|(x & Hs & Hq)].
  - by apply (und_holds_fwd _ _ _ _ U).
  - right. exists x. split; [by eapply und_settled | by eapply und_queued_fwd].
Qed.

Lemma then_core_undisturbed tc p k d S w w' :
  then_core tc p k d w → undisturbed d S w w' → then_core tc p k d w'.
Proof.
  intros L U. pose proof (then_bound _ _ _ _ _ L) as Hb. split.
  - pose proof (und_length _ _ _ _ U). lia.
  - apply L.
  - intros q r Hr Ht. eapply then_holds; [exact L| |done]. by eapply und_holds.
  - intros f k' Hf. eapply then_awaits; [exact L|]. by eapply und_awaits.
  - intros j Hj Ht.
    destruct (und_queued _ _ _ _ U j Hj Ht) as [Hq|[(q & r & x & -> & Hr & Hs)|(f & k' & x & -> & Hf & _)]].
    + destruct (then_queued _ _ _ _ _ L j Hq Ht) as (x & -> & Hs).
      exists x. split; [done|]. by eapply und_settled.
    + destruct (then_holds _ _ _ _ _ L q r Hr Ht) as [-> ->]. by exists x.
    + by destruct (then_awaits _ _ _ _ _ L f k').
  - intros y Hy. apply (undisturbed_settled_back _ _ _ _ _ U Hb) in Hy.
    destruct (then_fulfilled _ _ _ _ _ L y Hy) as (v & Hv & Hc). exists v.
    split; [by eapply und_settled|].
    destruct k as [key|resource u|]; simpl in *; [done| |done].
    destruct Hc as (pairs & i & Hp & -> & Hi). exists pairs, i. split_and!; [done..|].
    by eapply und_heap.
  - intros e He. apply (undisturbed_settled_back _ _ _ _ _ U Hb) in He.
    destruct (then_rejected _ _ _ _ _ L e He) as [Hs|(v & Hs & Hc)].
    + left. by eapply und_settled.
    + right. exists v. split; [by eapply und_settled | done].
Qed.

Lemma then_link_undisturbed tc p k d S w w' :
  then_link tc p k d w → undisturbed d S w w' → then_link tc p k d w'.
Proof.
  intros [L W] U. split; [by eapply then_core_undisturbed|].
  intros Hpend. pose proof (then_bound _ _ _ _ _ L) as Hb.
  destruct (W (undisturbed_pending_back _ _ _ _ U Hb Hpend)) as [Hh|(x & Hs & Hq)].
  - by apply (und_holds_fwd _ _ _ _ U).
  - right. exists x. split; [by eapply und_settled | by eapply und_queued_fwd].
Qed.

(** *** Establishing the links *)

Lemma new_pending_holds w q r :
  holds (set_promises (λ ps, ps ++ [Pending []]) w) q r → holds w q r.
Proof.
  intros (rs & Hq & Hr). cbn [promises set_promises] in Hq.
  apply lookup_app_Some in Hq as [Hq|[_ Hq]]; [by exists rs|].
  apply list_lookup_singleton_Some in Hq as [_ Hq].
  injection Hq as <-. by apply elem_of_nil in Hr.
Qed.

Lemma new_pending_settled w st p x :
  settled_with w p x → settled_with (set_promises (λ ps, ps ++ [st]) w) p x.
Proof. intros H. unfold settled_with in *. cbn [promises set_promises]. by apply lookup_app_l_Some. Qed.

Lemma new_pending_is_pending w :
  is_pending (set_promises (λ ps, ps ++ [Pending []]) w) (length (promises w)).
Proof. exists []. cbn [promises set_promises]. by apply list_lookup_middle. Qed.

Lemma subscribe_is_pending p r w q : is_pending w q → is_pending (subscribe p r w) q.
Proof.
  intros [rs Hq]. destruct (subscribe_pending p r w q rs Hq) as (rs' & H & _). by eexists.
Qed.

Lemma subscribe_settled_with p r w q x :
  settled_with w q x → settled_with (subscribe p r w) q x.
Proof. intros H. apply subscribe_settled; [exact H|]. intros rs. apply settlement_not_pending. Qed.

Lemma subscribe_settled_back p r w q x :
  settled_with (subscribe p r w) q x → settled_with w q x.
Proof.
  intros H.
  assert (q < length (promises w)) as Hq.
  { rewrite <- (subscribe_length p r w). by eapply lookup_lt_Some. }
  destruct (settled_or_pending w q Hq) as [Hp|[y Hy]].
  - exfalso. eapply is_pending_not_settled; [|exact H]. by apply subscribe_is_pending.
  - by rewrite (settled_with_inj _ _ _ _ H (subscribe_settled_with p r w q y Hy)).
Qed.

Lemma subscribe_all_spec a l w :
  let w' := foldl (λ w' '(i, p), subscribe p (RAllElem a i) w') w l in
  length (promises w') = length (promises w) ∧
  alls w' = alls w ∧ fetches w' = fetches w ∧
  (∀ q x, settled_with w' q x ↔ settled_with w q x) ∧
  (∀ q, is_pending w q → is_pending w' q) ∧
  (∀ q r, holds w' q r → holds w q r ∨ ∃ i, r = RAllElem a i ∧ (i, q) ∈ l) ∧
  (∀ j, queued w' j → queued w j ∨
        ∃ i p x, j = JReaction (RAllElem a i) x ∧ (i, p) ∈ l ∧ settled_with w p x) ∧
  (∀ i p, (i, p) ∈ l → p < length (promises w) →
        holds w' p (RAllElem a i) ∨
        ∃ x, settled_with w p x ∧ queued w' (JReaction (RAllElem a i) x)).
Proof.
  induction l as [|[i p] l IH] using rev_ind; simpl.
  - split_and!; try done; [by left|by left|].
    intros i p H. by apply elem_of_nil in H.
  - rewrite foldl_app. simpl.
    set (w' := foldl (λ w' '(i, p), subscribe p (RAllElem a i) w') w l) in *.
    destruct IH as (Hlen & Halls & Hfet & Hset & Hpend & Hh & Hq & Hf).
    split_and!.
    + by rewrite subscribe_length.
    + by rewrite subscribe_alls.
    + by rewrite subscribe_fetches.
    + intros q x. rewrite <- Hset. split; [apply subscribe_settled_back | apply subscribe_settled_with].
    + intros q Hq'. by apply subscribe_is_pending, Hpend.
    + intros q r Hr. apply subscribe_holds in Hr as [Hr|(-> & -> & _)].
      * destruct (Hh q r Hr) as [|(i' & -> & Hi')]; [by left|].
        right. exists i'. split; [done|]. apply elem_of_app. by left.
      * right. exists i. split; [done|]. apply elem_of_app. right. by apply list_elem_of_singleton.
    + intros j Hj. apply subscribe_queued in Hj as [Hj|(x & -> & Hx)].
      * destruct (Hq j Hj) as [|(i' & p' & x & -> & Hi' & Hx)]; [by left|].
        right. exists i', p', x. split_and!; [done| |done]. apply elem_of_app. by left.
      * right. exists i, p, x. split_and!; [done| |by apply Hset].
        apply elem_of_app. right. by apply list_elem_of_singleton.
    + intros i' p' Hi' Hp'. apply elem_of_app in Hi' as [Hi'|Hi'].
      * destruct (Hf i' p' Hi' Hp') as [Hr|(x & Hx & Hj)].
        -- left. by apply subscribe_holds_fwd.
        -- right. exists x. split; [done|]. by apply subscribe_queued_fwd.
      * apply list_elem_of_singleton in Hi'. injection Hi' as -> ->.
        destruct (subscribe_registered p (RAllElem a i) w') as [Hr|(x & Hx & Hj)].
        -- by rewrite Hlen.
        -- by left.
        -- right. exists x. split; [by apply Hset | done].
Qed.

Lemma all_link_promise_all ps w :
  wf w → ps ≠ [] → Forall (λ p, p < length (promises w)) ps →
  all_link (length (promises w)) ps (promise_all ps w).2.
Proof.
  intros Hwf Hne Hps. rewrite promise_all_eq by done. cbn [snd].
  set (a := length (promises w)).
  set (w0 := set_alls (<[a := replicate (length ps) None]>)
               (set_promises (λ ps, ps ++ [Pending []]) w)).
  destruct (subscribe_all_spec a (imap pair ps) w0)
    as (Hlen & Halls & Hfet & Hset & Hpend & Hh & Hq & Hf).
  set (w' := foldl (λ w' '(i, p), subscribe p (RAllElem a i) w') w0 (imap pair ps)) in *.
  assert (length (promises w0) = S a) as Hlen0.
  { unfold w0. cbn [promises set_alls set_promises]. rewrite length_app. simpl. lia. }
  assert (is_pending w' a) as Hpa.
  { apply Hpend. apply new_pending_is_pending. }
  assert (alls w' !! a = Some (replicate (length ps) None)) as Ha.
  { rewrite Halls. unfold w0. cbn [alls set_alls set_promises]. apply lookup_insert_eq. }
  assert (∀ i p, ps !! i = Some p → p < a) as Hbefore.
  { intros i p Hi. by eapply (Forall_lookup_1 _ _ _ _ Hps). }
  split; [split|].
  - lia.
  - done.
  - exists (replicate (length ps) None). split_and!; [done|by rewrite length_replicate|].
    intros i v Hi. by apply lookup_replicate_1 in Hi as [? _].
  - intros q r Hr Ht. destruct (Hh q r Hr) as [Hr0|(i & -> & Hi)].
    + apply (new_pending_holds w) in Hr0. apply (wf_holds _ Hwf) in Hr0. fold a in Hr0. lia.
    + apply elem_of_lookup_imap_1 in Hi as (i' & q' & Heq & Hi'). injection Heq as -> ->.
      by exists i'.
  - intros f k Hf'. unfold awaits in Hf'. rewrite Hfet in Hf'.
    apply (wf_awaits _ Hwf) in Hf'. fold a in Hf'. lia.
  - intros j Hj Ht. destruct (Hq j Hj) as [Hj0|(i & p & x & -> & Hi & Hx)].
    + apply (wf_queued _ Hwf) in Hj0. fold a in Hj0. lia.
    + apply elem_of_lookup_imap_1 in Hi as (i' & q' & Heq & Hi'). injection Heq as -> ->.
      exists i', q', x. split_and!; [done..|]. by apply Hset.
  - intros y Hy. exfalso. by eapply is_pending_not_settled.
  - intros e He. exfalso. by eapply is_pending_not_settled.
  - intros _. exists (replicate (length ps) None). split_and!; [done| |].
    + exists 0. apply lookup_replicate_2. destruct ps; [done|simpl; lia].
    + intros i p Hi _.
      destruct (Hf i p) as [Hr|(x & Hx & Hj)].
      * by apply (elem_of_lookup_imap_2 pair).
      * apply Hbefore in Hi. lia.
      * by left.
      * right. exists x. split; [by apply Hset | done].
Qed.

Lemma then_link_then tc p k w :
  wf w → p < length (promises w) →
  then_link tc p k (length (promises w)) (then_ p k w).2.
Proof.
  intros Hwf Hp. rewrite then_eq. cbn [snd].
  set (d := length (promises w)).
  set (w0 := set_promises (λ ps, ps ++ [Pending []]) w).
  assert (length (promises w0) = S d) as Hlen0.
  { unfold w0. cbn [promises set_promises]. rewrite length_app. simpl. lia. }
  assert (is_pending (subscribe p (RThen k d) w0) d) as Hpd.
  { apply subscribe_is_pending, new_pending_is_pending. }
  split; [split|].
  - rewrite subscribe_length. lia.
  - done.
  - intros q r Hr Ht. apply subscribe_holds in Hr as [Hr|(-> & -> & _)]; [|done].
    apply new_pending_holds, (wf_holds _ Hwf) in Hr. fold d in Hr. lia.
  - intros f k' Hf. unfold awaits in Hf. rewrite subscribe_fetches in Hf.
    apply (wf_awaits _ Hwf) in Hf. fold d in Hf. lia.
  - intros j Hj Ht. apply subscribe_queued in Hj as [Hj|(x & -> & Hx)].
    + apply (wf_queued _ Hwf) in Hj. fold d in Hj. lia.
    + exists x. split; [done|]. by apply subscribe_settled_with.
  - intros y Hy. exfalso. by eapply is_pending_not_settled.
  - intros e He. exfalso. by eapply is_pending_not_settled.
  - intros _. destruct (subscribe_registered p (RThen k d) w0) as [Hr|(x & Hx & Hj)].
    + lia.
    + by left.
    + right. exists x. split; [by apply subscribe_settled_with | done].
Qed.

(** *** The job of a link *)

Lemma mapM_id_None {A} (l : list (option A)) :
  mapM id l = None → ∃ i, l !! i = Some None.
Proof.
  induction l as [|[x|] l IH]; simpl; [done| |by exists 0].
  intros H. destruct (mapM id l) as [k|]; [done|].
  destruct IH as [i Hi]; [done|]. by exists (S i).
Qed.

Lemma all_core_pop a ps j rest w :
  all_core a ps w → microtasks w = j :: rest →
  all_core a ps (set_microtasks (λ _, rest) w).
Proof.
  intros L Hm. split; try apply L.
  intros j' Hj'. apply (all_queued _ _ _ L).
  unfold queued in *. rewrite Hm. by apply list_elem_of_further.
Qed.

Lemma all_core_fill a ps slots i p v w :
  all_core a ps w → alls w !! a = Some slots → ps !! i = Some p →
  settled_with w p (inl v) →
  all_core a ps (set_alls (<[a := <[i := Some v]> slots]>) w).
Proof.
  intros L Ha Hp Hv. split; try apply L.
  destruct (all_slots _ _ _ L) as (slots' & Ha' & Hlen & Hfill).
  rewrite Ha in Ha'. injection Ha' as <-.
  exists (<[i := Some v]> slots). cbn [alls set_alls]. split_and!.
  - apply lookup_insert_eq.
  - by rewrite length_insert.
  - intros i' v' Hi'. apply list_lookup_insert_Some in Hi' as [(<- & Hv' & _)|[_ Hi']].
    + injection Hv' as <-. by exists p.
    + by apply Hfill.
Qed.

Lemma all_link_settle a ps x w :
  all_core a ps w →
  match x with
  | inl y => ∃ vs, y = VArr vs ∧ Forall2 (λ p v, settled_with w p (inl v)) ps vs
  | inr e => ∃ p, p ∈ ps ∧ settled_with w p (inr e)
  end →
  all_link a ps (settle a x w).
Proof.
  intros L Hx. split; [split|].
  - rewrite settle_length. apply L.
  - apply L.
  - destruct (all_slots _ _ _ L) as (slots & Ha & Hlen & Hfill).
    exists slots. rewrite settle_alls. split_and!; [done..|].
    intros i v Hi. destruct (Hfill i v Hi) as (p & Hp & Hs).
    exists p. split; [done|]. by apply settle_settled_with.
  - intros q r Hr Ht. eapply all_holds; [exact L| |done]. by eapply settle_holds.
  - intros f k Hf. unfold awaits in Hf. rewrite settle_fetches in Hf.
    by eapply all_awaits.
  - intros j Hj Ht. apply settle_queued in Hj as [Hj|(r & -> & Hr & _)].
    + destruct (all_queued _ _ _ L j Hj Ht) as (i & p & x' & -> & Hp & Hs).
      exists i, p, x'. split_and!; [done..|]. by apply settle_settled_with.
    + destruct (all_holds _ _ _ L a r Hr Ht) as (i & _ & Hi).
      apply (all_before _ _ _ L) in Hi. lia.
  - intros y Hy. apply settle_target in Hy as [Hy|[_ <-]].
    + destruct (all_fulfilled _ _ _ L y Hy) as (vs & -> & Hvs). exists vs. split; [done|].
      eapply Forall2_impl; [exact Hvs|]. intros p v. apply settle_settled_with.
    + destruct Hx as (vs & -> & Hvs). exists vs. split; [done|].
      eapply Forall2_impl; [exact Hvs|]. intros p v. apply settle_settled_with.
  - intros e He. apply settle_target in He as [He|[_ <-]].
    + destruct (all_rejected _ _ _ L e He) as (p & Hp & Hs). exists p.
      split; [done|]. by apply settle_settled_with.
    + destruct Hx as (p & Hp & Hs). exists p. split; [done|]. by apply settle_settled_with.
  - intros Hp. by apply settle_not_pending in Hp.
Qed.

Lemma all_link_run_job tc a ps j rest w :
  all_link a ps w → microtasks w = j :: rest → job_target j = a →
  all_link a ps (run_job tc j (set_microtasks (λ _, rest) w)).
Proof.
  intros [L W] Hm Ht.
  destruct (all_queued _ _ _ L j) as (i & p & x & -> & Hp & Hx); [|done|].
  { unfold queued. rewrite Hm. apply list_elem_of_here. }
  pose proof (all_core_pop _ _ _ _ _ L Hm) as L0.
  set (w0 := set_microtasks (λ _, rest) w) in *.
  destruct x as [v|e]; cbn [run_job].
  - unfold all_resolve_element.
    destruct (all_slots _ _ _ L0) as (slots & Ha & Hlen & Hfill). rewrite Ha.
    pose proof (all_core_fill _ _ _ _ _ _ _ L0 Ha Hp Hx) as Lc.
    set (slots' := <[i := Some v]> slots) in *.
    set (wc := set_alls (<[a := slots']>) w0) in *.
    destruct (mapM id slots') as [values|] eqn:Hvalues.
    + apply all_link_settle; [exact Lc|]. exists values. split; [done|].
      destruct (all_slots _ _ _ Lc) as (slots'' & Ha'' & Hlen'' & Hfill'').
      assert (slots'' = slots') as ->.
      { unfold wc in Ha''. cbn [alls set_alls] in Ha''.
        rewrite lookup_insert_eq in Ha''. by injection Ha''. }
      apply mapM_Some_1 in Hvalues.
      apply Forall2_same_length_lookup_2.
      * rewrite <- Hlen''. by eapply Forall2_length.
      * intros i' p' v' Hp' Hv'.
        destruct (Forall2_lookup_r _ _ _ _ _ Hvalues Hv') as (s & Hs & Hid).
        simpl in Hid. subst s.
        destruct (Hfill'' i' v' Hs) as (p'' & Hp'' & Hset). congruence.
    + split; [exact Lc|]. intros Hpend.
      exists slots'. split_and!.
      * unfold wc. cbn [alls set_alls]. apply lookup_insert_eq.
      * by apply mapM_id_None.
      * intros i' p' Hp' Hi'.
        apply list_lookup_insert_Some in Hi' as [(_ & ? & _)|[Hne Hi']]; [done|].
        destruct (W Hpend) as (slots0 & Ha0 & _ & Hw).
        assert (slots0 = slots) as -> by (unfold w0 in Ha; cbn [alls set_microtasks] in Ha; congruence).
        destruct (Hw i' p' Hp' Hi') as [Hr|(x & Hs & Hq)]; [by left|].
        right. exists x. split; [done|].
        unfold queued in *. rewrite Hm in Hq.
        apply elem_of_cons in Hq as [Hq|Hq]; [congruence|done].
  - apply all_link_settle; [exact L0|]. exists p. split; [|done].
    by eapply list_elem_of_lookup_2.
Qed.

Lemma then_core_pop tc p k d j rest w :
  then_core tc p k d w → microtasks w = j :: rest →
  then_core tc p k d (set_microtasks (λ _, rest) w).
Proof.
  intros L Hm. split; try apply L.
  intros j' Hj'. apply (then_queued _ _ _ _ _ L).
  unfold queued in *. rewrite Hm. by apply list_elem_of_further.
Qed.

Lemma run_callback_spec tc k v w :
  match (run_callback tc k v w).1 with
  | Return y => callback_value tc k v y (run_callback tc k v w).2
  | Throw e => callback_throws k v e
  end.
Proof.
  destruct k as [key|resource u|]; simpl; [done| |].
  - destruct (pairs_of v) as [pairs|] eqn:Hv; simpl; [|done].
    exists pairs, (length (heap w)). split_and!; [done..|].
    cbn [heap set_heap cache_set set_cache]. by apply list_lookup_middle.
  - destruct (pairs_of v) as [pairs|] eqn:Hv; simpl; [|done]. by exists pairs.
Qed.

Lemma then_link_settle tc p k d x w :
  then_core tc p k d w →
  match x with
  | inl y => ∃ v, settled_with w p (inl v) ∧ callback_value tc k v y w
  | inr e => settled_with w p (inr e) ∨ ∃ v, settled_with w p (inl v) ∧ callback_throws k v e
  end →
  then_link tc p k d (settle d x w).
Proof.
  intros L Hx.
  assert (∀ v y, callback_value tc k v y w → callback_value tc k v y (settle d x w)) as Hcv.
  { intros v y. destruct k; simpl; [done| |done]. by rewrite settle_heap. }
  split; [split|].
  - rewrite settle_length. apply L.
  - apply L.
  - intros q r Hr Ht. eapply then_holds; [exact L| |done]. by eapply settle_holds.
  - intros f k' Hf. unfold awaits in Hf. rewrite settle_fetches in Hf.
    by eapply then_awaits.
  - intros j Hj Ht. apply settle_queued in Hj as [Hj|(r & -> & Hr & _)].
    + destruct (then_queued _ _ _ _ _ L j Hj Ht) as (x' & -> & Hs).
      exists x'. split; [done|]. by apply settle_settled_with.
    + destruct (then_holds _ _ _ _ _ L d r Hr Ht) as [Hd _].
      pose proof (then_before _ _ _ _ _ L). lia.
  - intros y Hy. apply settle_target in Hy as [Hy|[_ <-]].
    + destruct (then_fulfilled _ _ _ _ _ L y Hy) as (v & Hv & Hc). exists v.
      split; [by apply settle_settled_with | by apply Hcv].
    + destruct Hx as (v & Hv & Hc). exists v.
      split; [by apply settle_settled_with | by apply Hcv].
  - intros e He. apply settle_target in He as [He|[_ <-]].
    + destruct (then_rejected _ _ _ _ _ L e He) as [Hs|(v & Hs & Hc)].
      * left. by apply settle_settled_with.
      * right. exists v. split; [by apply settle_settled_with | done].
    + destruct Hx as [Hs|(v & Hs & Hc)].
      * left. by apply settle_settled_with.
      * right. exists v. split; [by apply settle_settled_with | done].
  - intros Hp. by apply settle_not_pending in Hp.
Qed.

Lemma then_core_callback tc p k d k' v w :
  then_core tc p k d w → then_core tc p k d (run_callback tc k' v w).2.
Proof.
  intros L. eapply then_core_undisturbed; [exact L|].
  destruct (run_callback_frame tc k' v w) as (_ & _ & _ & _ & Ha & _ & _ & Hh).
  eapply (undisturbed_grow d (λ _ _, False)).
  - apply (after_callback_grow tc (JReaction (RThen k' 0) (inl v)) w).
  - apply L.
  - simpl. by rewrite Ha.
  - exact Hh.
Qed.

Lemma then_link_run_job tc p k d j rest w :
  then_link tc p k d w → microtasks w = j :: rest → job_target j = d →
  then_link tc p k d (run_job tc j (set_microtasks (λ _, rest) w)).
Proof.
  intros [L W] Hm Ht.
  destruct (then_queued _ _ _ _ _ L j) as (x & -> & Hx); [|done|].
  { unfold queued. rewrite Hm. apply list_elem_of_here. }
  pose proof (then_core_pop _ _ _ _ _ _ _ L Hm) as L0.
  set (w0 := set_microtasks (λ _, rest) w) in *.
  destruct x as [v|e]; cbn [run_job].
  - pose proof (run_callback_spec tc k v w0) as Hspec.
    pose proof (then_core_callback tc p k d k v w0 L0) as Lc.
    assert (settled_with (run_callback tc k v w0).2 p (inl v)) as Hv.
    { destruct (run_callback_frame tc k v w0) as (Hpr & _).
      unfold settled_with. by rewrite Hpr. }
    destruct (run_callback tc k v w0) as [[y|e] wc]; cbn [fst snd] in *.
    + apply then_link_settle; [exact Lc|]. by exists v.
    + apply then_link_settle; [exact Lc|]. right. by exists v.
  - apply then_link_settle; [exact L0|]. by left.
Qed.

Section Links.
Variable tc : string → string.

Lemma link_exec (I : World → Prop) d e w :
  (∀ w', undisturbed d (settles e) w w' → I w') →
  (∀ j rest, microtasks w = j :: rest → job_target j = d →
             I (run_job tc j (set_microtasks (λ _, rest) w))) →
  d < length (promises w) → I w → I (exec tc e w).
Proof.
  intros HU HJ Hd HI.
  assert (e = Tick ∨ e ≠ Tick) as [->|Hne] by (destruct e; (by left) || (by right)).
  - destruct (microtasks w) as [|j rest] eqn:Hm.
    + simpl. unfold tick. by rewrite Hm.
    + destruct (decide (job_target j = d)) as [Ht|Ht].
      * simpl. rewrite (tick_cons _ _ _ _ Hm). by apply HJ.
      * apply HU, exec_undisturbed; [done|]. intros j' rest' _ Hm'. congruence.
  - apply HU, exec_undisturbed; [done|]. intros j rest He. done.
Qed.

Lemma all_link_exec a ps e w : all_link a ps w → all_link a ps (exec tc e w).
Proof.
  intros L. apply (link_exec _ a); [| |apply L|done].
  - intros w'. by apply all_link_undisturbed.
  - intros j rest. by apply all_link_run_job.
Qed.

Lemma then_link_exec p k d e w : then_link tc p k d w → then_link tc p k d (exec tc e w).
Proof.
  intros L. apply (link_exec _ d); [| |apply L|done].
  - intros w'. by apply then_link_undisturbed.
  - intros j rest. by apply then_link_run_job.
Qed.

Lemma all_link_run a ps evs w : all_link a ps w → all_link a ps (run tc evs w).
Proof.
  revert w. induction evs as [|e evs IH]; intros w L; [done|].
  apply IH. by apply all_link_exec.
Qed.

Lemma then_link_run p k d evs w : then_link tc p k d w → then_link tc p k d (run tc evs w).
Proof.
  revert w. induction evs as [|e evs IH]; intros w L; [done|].
  apply IH. by apply then_link_exec.
Qed.

End Links.

(** ** The promises of the ledger exist *)

Lemma ledger_bound_same w w' :
  _promises w' = _promises w → length (promises w) ≤ length (promises w') →
  ledger_bound w → ledger_bound w'.
Proof. intros Hl Hlen H u p Hu. rewrite Hl in Hu. apply H in Hu. lia. Qed.

Lemma ledger_bound_then p k : preserves (keeps ledger_bound) (then_ p k).
Proof.
  intros w. unfold keeps. apply ledger_bound_same.
  - apply same_gets_then.
  - apply (grow_length _ _ _ (proj1 (ext_then p k w))).
Qed.

Lemma ledger_bound_promise_all ps : preserves (keeps ledger_bound) (promise_all ps).
Proof.
  intros w. unfold keeps. apply ledger_bound_same.
  - apply same_gets_promise_all.
  - apply (grow_length _ _ _ (proj1 (ext_promise_all ps w))).
Qed.

Lemma ledger_bound_promise_resolve v : preserves (keeps ledger_bound) (promise_resolve v).
Proof.
  intros w. unfold keeps. apply ledger_bound_same; [done|].
  simpl. rewrite length_app. lia.
Qed.

Lemma ledger_bound_get u o : preserves (keeps ledger_bound) (get u o).
Proof.
  intros w H. destruct (cache_get u w) as [i|] eqn:Hc.
  - rewrite (get_cached _ _ _ _ Hc). cbn [snd].
    eapply ledger_bound_same; [| |exact H]; [done|]. simpl. rewrite length_app. lia.
  - destruct (_promises w !! u) as [p|] eqn:Hl.
    + by rewrite (get_pending _ _ _ _ Hc Hl).
    + rewrite (get_miss _ _ _ Hc Hl). cbn [snd].
      intros u' p'. cbn [_promises promises set_ledger set_fetches set_promises].
      rewrite length_app. simpl. intros Hu'.
      apply lookup_insert_Some in Hu' as [[_ <-]|[_ Hu']]; [lia|].
      apply H in Hu'. lia.
Qed.

Lemma ledger_bound_fromPotionJSON j : preserves (keeps ledger_bound) (_fromPotionJSON j).
Proof.
  apply preserves_fromPotionJSON; try apply _.
  - apply ledger_bound_promise_resolve.
  - apply ledger_bound_then.
  - apply ledger_bound_promise_all.
  - apply ledger_bound_get.
Qed.

Lemma ledger_bound_new_fetch w uri o k d :
  ledger_bound w →
  ledger_bound (set_fetches (λ fs, fs ++ [{| fetch_uri := uri; fetch_options := o;
                                             fetch_state := FPending [(k, d)] |}])
                  (set_promises (λ ps, ps ++ [Pending []]) w)).
Proof.
  apply ledger_bound_same; [done|]. simpl. rewrite length_app. lia.
Qed.

Section LedgerBound.
Variable tc : string → string.

Lemma ledger_bound_after_callback j w :
  ledger_bound w → ledger_bound (after_callback tc j w).
Proof.
  intros H. destruct j as [[k d|a i|d] [v|e]|k d [json|e]|d q]; simpl; try done.
  - destruct (run_callback_frame tc k v w) as (Hp & _ & _ & Hl & _).
    eapply ledger_bound_same; [exact Hl| |exact H]. by rewrite Hp.
  - by destruct (alls w !! a).
  - destruct k as [u| |u]; simpl.
    + unfold bind, modify. simpl.
      pose proof (ledger_bound_fromPotionJSON json (set_ledger (delete u) w)) as Hk.
      destruct (_fromPotionJSON json (set_ledger (delete u) w)) as [[q|e] w']; simpl in *;
        apply Hk; intros u' p' Hu'; simpl in Hu';
        apply lookup_delete_Some in Hu' as [_ Hu']; by apply (H u' p').
    + unfold bind. pose proof (ledger_bound_fromPotionJSON json w) as Hk.
      destruct (_fromPotionJSON json w) as [[q|e] w']; simpl in *; by apply Hk.
    + unfold bind, modify. simpl. destruct (cache_get u w); exact H.
Qed.

Lemma ledger_bound_tick w : ledger_bound w → ledger_bound (tick tc w).
Proof.
  intros H. unfold tick. destruct (microtasks w) as [|j rest] eqn:Hm; [done|].
  assert (ledger_bound (set_microtasks (λ _, rest) w)) as H0 by exact H.
  revert H0. generalize (set_microtasks (λ _, rest) w). clear. intros w H.
  rewrite run_job_eq.
  pose proof (ledger_bound_after_callback j w H) as Hc.
  destruct j as [r x|k d x|d q].
  - destruct (job_finish tc (JReaction r x) w); [done| |done].
    eapply ledger_bound_same; [apply settle_ledger| |exact Hc]. by rewrite settle_length.
  - destruct (job_finish tc (JFetch k d x) w); [done| |done].
    eapply ledger_bound_same; [apply settle_ledger| |exact Hc]. by rewrite settle_length.
  - eapply ledger_bound_same; [apply subscribe_ledger| |exact H]. by rewrite subscribe_length.
Qed.

Lemma ledger_bound_exec e w : ledger_bound w → ledger_bound (exec tc e w).
Proof.
  intros H.
  destruct (mutations_keep ledger_bound) with (w := w) as (Hu & Hs & Hd); [|done|].
  { intros w' uri o k d _. apply ledger_bound_new_fetch. }
  destruct e; simpl.
  - by apply ledger_bound_get.
  - apply Hu.
  - apply Hs.
  - apply Hd.
  - by apply ledger_bound_fromPotionJSON.
  - exact H.
  - eapply ledger_bound_same; [apply settle_fetch_ledger| |exact H].
    by rewrite settle_fetch_promises.
  - eapply ledger_bound_same; [apply settle_fetch_ledger| |exact H].
    by rewrite settle_fetch_promises.
  - by apply ledger_bound_tick.
  - exact H.
  - exact H.
Qed.

Lemma reachable_ledger_bound w : reachable tc w → ledger_bound w.
Proof.
  intros (prefix & c & evs & ->).
  assert (ledger_bound (create prefix c)) as H by (intros u p Hu; done).
  revert H. generalize (create prefix c).
  induction evs as [|e evs IH]; intros w H; [done|].
  apply IH. by apply ledger_bound_exec.
Qed.

End LedgerBound.

(** ** Hydration returns a promise that exists *)

Lemma promise_all_returns ps w :
  (promise_all ps w).1 = Return (length (promises w)) ∧
  length (promises w) < length (promises (promise_all ps w).2).
Proof.
  destruct ps as [|p ps].
  - simpl. rewrite length_app. simpl. split; [done|lia].
  - rewrite promise_all_eq by done. split; [done|]. cbn [snd].
    match goal with |- _ < length (promises (foldl _ ?w0 ?l)) =>
      destruct (subscribe_all_spec (length (promises w)) l w0) as (Hlen & _) end.
    rewrite Hlen. cbn [promises set_alls set_promises]. rewrite length_app. simpl. lia.
Qed.

Lemma then_returns p k w :
  (then_ p k w).1 = Return (length (promises w)) ∧
  length (promises w) < length (promises (then_ p k w).2).
Proof.
  rewrite then_eq. split; [done|]. cbn [snd]. rewrite subscribe_length.
  cbn [promises set_promises]. rewrite length_app. simpl. lia.
Qed.

Lemma get_returns u o w : ∃ p, (get u o w).1 = Return p.
Proof.
  destruct (cache_get u w) as [i|] eqn:Hc.
  - rewrite (get_cached _ _ _ _ Hc). by eexists.
  - destruct (_promises w !! u) as [p|] eqn:Hl.
    + rewrite (get_pending _ _ _ _ Hc Hl). by eexists.
    + rewrite (get_miss _ _ _ Hc Hl). by eexists.
Qed.

Lemma get_bound u o w p w' :
  ledger_bound w → get u o w = (Return p, w') → p < length (promises w').
Proof.
  intros H. destruct (cache_get u w) as [i|] eqn:Hc.
  - rewrite (get_cached _ _ _ _ Hc). intros [= <- <-]. simpl. rewrite length_app. simpl. lia.
  - destruct (_promises w !! u) as [q|] eqn:Hl.
    + rewrite (get_pending _ _ _ _ Hc Hl). intros [= <- <-]. by eapply H.
    + rewrite (get_miss _ _ _ Hc Hl). intros [= <- <-]. simpl. rewrite length_app. simpl. lia.
Qed.

Lemma bounded_bind {A} (c : M A) (k : A → M nat) :
  (∀ a, bounded (k a)) → bounded (bind c k).
Proof.
  intros Hk w p w'. unfold bind. destruct (c w) as [[a|e] wa]; [|done]. apply Hk.
Qed.

Lemma bounded_then p k : bounded (then_ p k).
Proof.
  intros w d w' H. destruct (then_returns p k w) as [H1 H2].
  rewrite H in H1, H2. simpl in *. injection H1 as ->. done.
Qed.

Lemma bounded_promise_all ps : bounded (promise_all ps).
Proof.
  intros w d w' H. destruct (promise_all_returns ps w) as [H1 H2].
  rewrite H in H1, H2. simpl in *. injection H1 as ->. done.
Qed.

Lemma bounded_promise_resolve v : bounded (promise_resolve v).
Proof. intros w d w' [= <- <-]. simpl. rewrite length_app. simpl. lia. Qed.

Lemma fromPotionJSON_bound j w p w' :
  ledger_bound w → _fromPotionJSON j w = (Return p, w') → p < length (promises w').
Proof.
  intros Hl. destruct j as [|b|n|s|items|props]; try apply bounded_promise_resolve.
  - simpl. apply bounded_bind. intros ps. apply bounded_promise_all.
  - assert (bounded
      (ps ←M traverse (λ '(key, v), h ←M _fromPotionJSON v; then_ h (KPair key)) props;
       a ←M promise_all ps; then_ a KObject)) as Hplain.
    { apply bounded_bind. intros ps. apply bounded_bind. intros a. apply bounded_then. }
    simpl. destruct (JsObject.get "$uri" props) as [[| | |raw| |]|];
      try (destruct (length props =? 1); [|apply Hplain];
           destruct (JsObject.get "$ref" props) as [[| | |ref| |]|];
           try (destruct (JsObject.get "$date" props);
                [apply bounded_promise_resolve | apply Hplain]);
           unfold bind, parseURI_M; destruct (parseURI w ref); [by apply get_bound | done]).
    apply bounded_bind. intros r. apply bounded_bind. intros ps.
    apply bounded_bind. intros a. apply bounded_then.
Qed.

Lemma bind_returns {A B} (c : M A) (k : A → M B) w :
  (∃ a, (c w).1 = Return a) → (∀ a w', ∃ b, (k a w').1 = Return b) →
  ∃ b, (bind c k w).1 = Return b.
Proof.
  intros [a Ha] Hk. unfold bind. destruct (c w) as [o wa]. simpl in Ha. subst o. apply Hk.
Qed.

Lemma traverse_returns {A B} (f : A → M B) (Q : World → Prop) l w :
  (∀ x w, x ∈ l → Q w → Q (f x w).2) →
  (∀ x w, x ∈ l → Q w → ∃ b, (f x w).1 = Return b) →
  Q w → ∃ bs, (traverse f l w).1 = Return bs.
Proof.
  revert w. induction l as [|x l IH]; intros w HQ Hr Hw; simpl; [by eexists|].
  unfold bind. destruct (Hr x w) as [b Hb]; [apply list_elem_of_here|done|].
  pose proof (HQ x w (list_elem_of_here _ _) Hw) as Hwa.
  destruct (f x w) as [o wa]. simpl in Hb, Hwa. subst o.
  destruct (IH wa) as [bs Hbs]; [| |done|].
  { intros y w' Hy. apply HQ. by apply list_elem_of_further. }
  { intros y w' Hy. apply Hr. by apply list_elem_of_further. }
  destruct (traverse f l wa) as [o wb]. simpl in Hbs. subst o. by eexists.
Qed.

Lemma get_elem_of {V} k (v : V) o : JsObject.get k o = Some v → (k, v) ∈ o.
Proof.
  induction o as [|[k' v'] o IH]; simpl; [done|].
  destruct (String.eqb k k') eqn:E.
  - apply String.eqb_eq in E as ->. intros [= ->]. apply list_elem_of_here.
  - intros H. by apply list_elem_of_further, IH.
Qed.

Lemma uris_field key v props raw :
  (key, v) ∈ props → raw ∈ uris v → raw ∈ uris (JObj props).
Proof.
  intros Hin Hraw. simpl. apply list_elem_of_bind. exists (key, v). split; [|done].
  destruct v; try done. simpl in Hraw. by apply elem_of_nil in Hraw.
Qed.

Lemma uris_key key s props :
  (key, JStr s) ∈ props → key = "$uri" ∨ key = "$ref" → s ∈ uris (JObj props).
Proof.
  intros Hin Hkey. simpl. apply list_elem_of_bind. exists (key, JStr s). split; [|done].
  rewrite decide_True by done. apply list_elem_of_here.
Qed.

Lemma fromPotionJSON_config j w :
  _prefix (_fromPotionJSON j w).2 = _prefix w ∧
  resources (_fromPotionJSON j w).2 = resources w.
Proof.
  destruct (ext_fromPotionJSON j w) as [_ F]. split; apply F.
Qed.

Lemma then_config p k w :
  _prefix (then_ p k w).2 = _prefix w ∧ resources (then_ p k w).2 = resources w.
Proof. destruct (ext_then p k w) as [_ F]. split; apply F. Qed.

Lemma fromPotionJSON_returns j :
  ∀ w0 w, _prefix w = _prefix w0 → resources w = resources w0 →
    (∀ raw, raw ∈ uris j → ∃ r, parseURI w0 raw = Return r) →
    ∃ p, (_fromPotionJSON j w).1 = Return p.
Proof.
  induction j as [| | | |items IH|props IH] using json_ind'; intros w0 w Hp Hr Hu;
    try (by eexists).
  - simpl. apply bind_returns; [|intros ps w'; eexists; apply promise_all_returns].
    apply (traverse_returns _ (λ w, _prefix w = _prefix w0 ∧ resources w = resources w0));
      [| |done].
    + intros j w' _ [H1 H2]. destruct (fromPotionJSON_config j w') as [-> ->]. done.
    + intros j w' Hj [H1 H2]. eapply (proj1 (Forall_forall _ _) IH j Hj); [done..|].
      intros raw Hraw. apply Hu. simpl. apply list_elem_of_bind. by exists j.
  - set (Q := λ w, _prefix w = _prefix w0 ∧ resources w = resources w0).
    assert (∀ key v w', (key, v) ∈ props → Q w' →
              Q ((h ←M _fromPotionJSON v; then_ h (KPair key)) w').2) as HQ.
    { intros key v w' _ [H1 H2]. unfold bind.
      destruct (fromPotionJSON_config v w') as [H3 H4].
      destruct (_fromPotionJSON v w') as [[h|e] wa]; cbn [fst snd] in *; [|split; congruence].
      destruct (then_config h (KPair key) wa) as [H5 H6]. split; congruence. }
    assert (∀ key v w', (key, v) ∈ props → Q w' →
              ∃ b, ((h ←M _fromPotionJSON v; then_ h (KPair key)) w').1 = Return b) as HR.
    { intros key v w' Hin [H1 H2]. apply bind_returns.
      - eapply (proj1 (Forall_forall _ _) IH (key, v) Hin); [done..|].
        intros raw Hraw. apply Hu. by eapply uris_field.
      - intros h w''. eexists. apply then_returns. }
    assert (∀ w, Q w → ∃ p,
      ((ps ←M traverse (λ '(key, v), h ←M _fromPotionJSON v; then_ h (KPair key)) props;
        a ←M promise_all ps; then_ a KObject) w).1 = Return p) as Hplain.
    { intros w' Hw'. apply bind_returns.
      - apply (traverse_returns _ Q); [| |done].
        + intros [key v] w''. apply HQ.
        + intros [key v] w''. apply HR.
      - intros ps w''. apply bind_returns; [eexists; apply promise_all_returns|].
        intros a w'''. eexists. apply then_returns. }
    assert (Q w) as Hw by done.
    simpl. destruct (JsObject.get "$uri" props) as [[| | |raw| |]|] eqn:Huri;
      try (destruct (length props =? 1); [|by apply Hplain];
           destruct (JsObject.get "$ref" props) as [[| | |ref| |]|] eqn:Href;
           try (destruct (JsObject.get "$date" props); [by eexists | by apply Hplain]);
           destruct (Hu ref) as [r Hraw];
           [eapply uris_key; [by apply get_elem_of|by right]|];
           unfold bind, parseURI_M; rewrite (parseURI_config w0 w) by done;
           rewrite Hraw; apply get_returns).
    destruct (Hu raw) as [r Hraw].
    { eapply uris_key; [by apply get_elem_of|by left]. }
    unfold bind at 1. unfold parseURI_M. rewrite (parseURI_config w0 w) by done.
    rewrite Hraw. apply bind_returns.
    + apply (traverse_returns _ Q); [| |done].
      * intros [key v] w1 Hin HQ'. destruct (String.eqb key "$uri"); [done|].
        by apply HQ.
      * intros [key v] w1 Hin HQ'. destruct (String.eqb key "$uri"); [by eexists|].
        by apply HR.
    + intros ps w1. apply bind_returns; [eexists; apply promise_all_returns|].
      intros a w2. eexists. apply then_returns.
Qed.

Lemma traverse_Forall2 {A} (f : A → M nat) (Q : World → Prop)
    (P : A → nat → World → Prop) l :
  (∀ x w, x ∈ l → Q w → Q (f x w).2) →
  (∀ x w, x ∈ l → ext w (f x w).2) →
  (∀ x w b w', x ∈ l → Q w → f x w = (Return b, w') → P x b w') →
  (∀ x b w w', P x b w → ext w w' → P x b w') →
  ∀ w bs w', Q w → traverse f l w = (Return bs, w') →
    Q w' ∧ ext w w' ∧ Forall2 (λ x b, P x b w') l bs.
Proof.
  intros HQ He HP Hm. induction l as [|x l IH]; intros w bs w' Hw; simpl.
  - intros [= <- <-]. split_and!; [done|reflexivity|constructor].
  - unfold bind.
    pose proof (HQ x w (list_elem_of_here _ _) Hw) as Hwa.
    pose proof (He x w (list_elem_of_here _ _)) as Hea.
    pose proof (HP x w) as HPa.
    destruct (f x w) as [[b|e] wa]; [|done]. simpl in Hwa, Hea.
    specialize (HPa b wa (list_elem_of_here _ _) Hw eq_refl).
    destruct (traverse f l wa) as [[bs'|e] wb] eqn:Ht; [|done].
    intros [= <- <-].
    destruct (IH) with (w := wa) (bs := bs') (w' := wb) as (Hwb & Heb & Hall); [..|done|done|].
    { intros y w'' Hy. apply HQ. by apply list_elem_of_further. }
    { intros y w'' Hy. apply He. by apply list_elem_of_further. }
    { intros y w'' b' w''' Hy. apply HP. by apply list_elem_of_further. }
    split_and!; [done|by etrans|].
    constructor; [by eapply Hm|done].
Qed.

(** ** What a link yields *)

Lemma all_link_progress a ps w :
  all_link a ps w → (∀ p, p ∈ ps → ∃ v, settled_with w p (inl v)) →
  microtasks w = [] → ∃ y, settled_with w a (inl y).
Proof.
  intros [L W] Hall Hq.
  destruct (settled_or_pending w a (all_bound _ _ _ L)) as [Hp|[[y|e] Hx]].
  - exfalso. destruct (W Hp) as (slots & Ha & [i Hi] & Hw).
    destruct (all_slots _ _ _ L) as (slots' & Ha' & Hlen & _).
    rewrite Ha in Ha'. injection Ha' as <-.
    destruct (lookup_lt_is_Some_2 ps i) as [p Hpi].
    { rewrite <- Hlen. by eapply lookup_lt_Some. }
    destruct (Hall p) as [v Hv]; [by eapply list_elem_of_lookup_2|].
    destruct (Hw i p Hpi Hi) as [(rs & Hrs & _)|(x & _ & Hj)].
    + unfold settled_with in Hv. rewrite Hrs in Hv. done.
    + unfold queued in Hj. rewrite Hq in Hj. by apply elem_of_nil in Hj.
  - by exists y.
  - exfalso. destruct (all_rejected _ _ _ L e Hx) as (p & Hp & Hs).
    destruct (Hall p Hp) as [v Hv]. by pose proof (settled_with_inj _ _ _ _ Hs Hv).
Qed.

Lemma then_link_progress tc p k d v w :
  then_link tc p k d w → settled_with w p (inl v) → (∀ e, ¬ callback_throws k v e) →
  microtasks w = [] → ∃ y, settled_with w d (inl y).
Proof.
  intros [L W] Hv Hk Hq.
  destruct (settled_or_pending w d (then_bound _ _ _ _ _ L)) as [Hp|[[y|e] Hx]].
  - exfalso. destruct (W Hp) as [(rs & Hrs & _)|(x & _ & Hj)].
    + unfold settled_with in Hv. rewrite Hrs in Hv. done.
    + unfold queued in Hj. rewrite Hq in Hj. by apply elem_of_nil in Hj.
  - by exists y.
  - exfalso. destruct (then_rejected _ _ _ _ _ L e Hx) as [Hs|(v' & Hs & Hc)].
    + by pose proof (settled_with_inj _ _ _ _ Hs Hv).
    + pose proof (settled_with_inj _ _ _ _ Hs Hv) as [= ->]. by eapply Hk.
Qed.

Lemma ext_wf w w' : ext w w' → wf w → wf w'.
Proof. intros He Hw. eapply wf_grow; [exact Hw|]. by apply ext_grow. Qed.

Lemma ext_length w w' : ext w w' → length (promises w) ≤ length (promises w').
Proof. intros [G _]. apply G. Qed.

Lemma ext_settled_with w w' p x : ext w w' → settled_with w p x → settled_with w' p x.
Proof. intros [G _]. by eapply grow_settled_with. Qed.

Section Arrays.
Variable tc : string → string.


End Arrays.

(** ** Objects *)

Lemma get_set_ne {V} k k' (v : V) o :
  k ≠ k' → JsObject.get k (JsObject.set k' v o) = JsObject.get k o.
Proof.
  intros Hne. apply String.eqb_neq in Hne.
  unfold JsObject.set. destruct (JsObject.get k' o) as [v0|] eqn:Hg.
  - clear Hg. induction o as [|[k1 v1] o IH]; simpl; [done|].
    destruct (String.eqb k' k1) eqn:E; simpl.
    + apply String.eqb_eq in E as ->. by rewrite Hne.
    + by rewrite IH.
  - clear Hg. destruct (JsString.array_index k') as [i|].
    + induction o as [|[k1 v1] o IH]; simpl; [by rewrite Hne|].
      destruct (JsString.array_index k1) as [j|]; [destruct (j <? i)%N|]; simpl;
        rewrite ?Hne, ?IH; done.
    + induction o as [|[k1 v1] o IH]; simpl; [by rewrite Hne|]. by rewrite IH.
Qed.

Lemma keys_set {V} k k' (v : V) o :
  k ∈ JsObject.keys (JsObject.set k' v o) → k = k' ∨ k ∈ JsObject.keys o.
Proof.
  unfold JsObject.keys, JsObject.set. destruct (JsObject.get k' o) as [v0|].
  - induction o as [|[k1 v1] o IH]; simpl; [by right|].
    destruct (String.eqb k' k1); simpl; [by right|].
    intros [->|H]%elem_of_cons; [right; apply list_elem_of_here|].
    destruct (IH H) as [|]; [by left|right; by apply list_elem_of_further].
  - destruct (JsString.array_index k') as [i|].
    + induction o as [|[k1 v1] o IH]; simpl.
      * intros H%list_elem_of_singleton. by left.
      * destruct (JsString.array_index k1) as [j|]; [destruct (j <? i)%N|]; simpl.
        -- intros [->|H]%elem_of_cons; [right; apply list_elem_of_here|].
           destruct (IH H) as [|]; [by left|right; by apply list_elem_of_further].
        -- intros [->|H]%elem_of_cons; [by left|by right].
        -- intros [->|H]%elem_of_cons; [by left|by right].
    + rewrite fmap_app. simpl. intros [H|H%list_elem_of_singleton]%elem_of_app;
        [by right|by left].
Qed.

Lemma keys_foldl_set {V} (f : string → V) k ks o :
  k ∈ JsObject.keys (foldl (λ obj key, JsObject.set key (f key) obj) o ks) →
  k ∈ ks ∨ k ∈ JsObject.keys o.
Proof.
  revert o. induction ks as [|k' ks IH]; intros o; simpl; [by right|].
  intros H. destruct (IH _ H) as [|[->|]%keys_set].
  - left. by apply list_elem_of_further.
  - left. apply list_elem_of_here.
  - by right.
Qed.

Lemma entity_properties_keys properties :
  "$uri" ∉ JsObject.keys (entity_properties properties).
Proof.
  unfold entity_properties. intros [|H]%keys_set; [done|].
  apply keys_foldl_set in H as [H|H].
  - apply list_elem_of_filter in H as [H _]. done.
  - by apply elem_of_nil in H.
Qed.

Lemma get_pairsToObject k x pairs :
  (∀ v, (k, v) ∈ pairs → v = x) → (∃ v, (k, v) ∈ pairs) →
  JsObject.get k (pairsToObject pairs) = Some x.
Proof.
  unfold pairsToObject. generalize (@nil (string * value)).
  induction pairs as [|[k' v'] pairs IH] using rev_ind; intros o Hall [v Hv].
  - by apply elem_of_nil in Hv.
  - rewrite foldl_app. simpl. destruct (decide (k = k')) as [<-|Hne].
    + rewrite get_set_eq. f_equal. apply Hall. apply elem_of_app. right.
      apply list_elem_of_here.
    + rewrite get_set_ne by done. apply IH.
      * intros v0 Hv0. apply Hall. apply elem_of_app. by left.
      * apply elem_of_app in Hv as [Hv|Hv]; [by exists v|].
        apply list_elem_of_singleton in Hv. congruence.
Qed.

(** ** Entities *)

Lemma Forall2_exists_Forall3 {A B C} (R : A → C → B → Prop) l k :
  Forall2 (λ x y, ∃ z, R x z y) l k → ∃ zs, Forall3 R l zs k.
Proof.
  induction 1 as [|x y l k [z Hz] _ [zs IH]]; [exists []; constructor|].
  exists (z :: zs). by constructor.
Qed.

Lemma Forall3_elem_of_l {A B C} (R : A → B → C → Prop) l k k' x :
  Forall3 R l k k' → x ∈ l → ∃ y z, y ∈ k ∧ z ∈ k' ∧ R x y z.
Proof.
  induction 1 as [|x' y z l k k' HR _ IH]; intros Hx; [by apply elem_of_nil in Hx|].
  apply elem_of_cons in Hx as [->|Hx].
  - exists y, z. split_and!; [apply list_elem_of_here..|done].
  - destruct (IH Hx) as (y' & z' & ? & ? & ?). exists y', z'.
    split_and!; [by apply list_elem_of_further..|done].
Qed.

Lemma Forall3_elem_of_r {A B C} (R : A → B → C → Prop) l k k' z :
  Forall3 R l k k' → z ∈ k' → ∃ x y, x ∈ l ∧ y ∈ k ∧ R x y z.
Proof.
  induction 1 as [|x y z' l k k' HR _ IH]; intros Hz; [by apply elem_of_nil in Hz|].
  apply elem_of_cons in Hz as [->|Hz].
  - exists x, y. split_and!; [apply list_elem_of_here..|done].
  - destruct (IH Hz) as (x' & y' & ? & ? & ?). exists x', y'.
    split_and!; [by apply list_elem_of_further..|done].
Qed.

Lemma field_link_undisturbed tc r w0 kv oh e w w' :
  field_link tc r w0 kv oh e w → (∀ S, undisturbed e S w w') →
  field_link tc r w0 kv oh e w'.
Proof.
  intros [Hb H] U. split.
  - pose proof (und_length _ _ _ _ (U (λ _ _, False))). lia.
  - destruct oh as [h|].
    + destruct H as (Hk & Hh & L). split_and!; [done..|].
      eapply (then_link_undisturbed _ _ _ _ (λ _ _, False)); [exact L|apply U].
    + destruct H as (Hk & Hs). split; [done|].
      eapply und_settled; [apply (U (λ _ _, False))|done].
Qed.

Lemma field_link_ext tc r w0 kv oh e w w' :
  field_link tc r w0 kv oh e w → ext w w' → field_link tc r w0 kv oh e w'.
Proof.
  intros L He. eapply field_link_undisturbed; [exact L|].
  intros S. apply undisturbed_ext; [done|]. apply L.
Qed.

Lemma all_link_ext a ps w w' : all_link a ps w → ext w w' → all_link a ps w'.
Proof.
  intros L He. eapply (all_link_undisturbed _ _ (λ _ _, False)); [exact L|].
  apply undisturbed_ext; [done|]. apply L.
Qed.

Lemma fields_of_values tc r w0 w props hs es vs :
  Forall3 (λ kv oh e, field_link tc r w0 kv oh e w) props hs es →
  Forall2 (λ e v, settled_with w e (inl v)) es vs →
  ∃ fields, mapM pair_of vs = Some fields ∧ Forall3 (field_of tc r w0 w) props hs fields.
Proof.
  intros H. revert vs. induction H as [|kv oh e props hs es [_ Hl] _ IH]; intros vs Hvs.
  - apply Forall2_nil_inv_l in Hvs as ->. exists []. split; [done|constructor].
  - apply Forall2_cons_inv_l in Hvs as (v & vs' & Hv & Hvs & ->).
    destruct (IH vs' Hvs) as (fields & Hm & Hf).
    destruct oh as [h|].
    + destruct Hl as (Hk & Hh & L).
      destruct (then_fulfilled _ _ _ _ _ (proj1 L) v Hv) as (vh & Hvh & Hc).
      simpl in Hc. subst v.
      exists ((tc kv.1, vh) :: fields). split; [simpl; by rewrite Hm|].
      constructor; [|done]. by split_and!.
    + destruct Hl as (Hk & Hs).
      pose proof (settled_with_inj _ _ _ _ Hv Hs) as [= ->].
      exists (("$uri", VStr (uri r)) :: fields). split; [simpl; by rewrite Hm|].
      constructor; [|done]. by split.
Qed.

Lemma fields_fulfilled tc r w0 w props hs es :
  Forall3 (λ kv oh e, field_link tc r w0 kv oh e w) props hs es →
  (∀ h, Some h ∈ hs → ∃ v, settled_with w h (inl v)) → microtasks w = [] →
  ∀ e, e ∈ es → ∃ v, settled_with w e (inl v).
Proof.
  intros H Hfull Hq e He.
  destruct (Forall3_elem_of_r _ _ _ _ _ H He) as (kv & oh & _ & Hoh & _ & Hl).
  destruct oh as [h|].
  - destruct Hl as (_ & _ & L). destruct (Hfull h Hoh) as [v Hv].
    apply (then_link_progress tc h (KPair kv.1) e v); [done..| |done].
    intros e' [].
  - destruct Hl as (_ & Hs). by eexists.
Qed.

Section Entities.
Variable tc : string → string.

Lemma field_link_exec r w0 kv oh e ev w :
  field_link tc r w0 kv oh e w → field_link tc r w0 kv oh e (exec tc ev w).
Proof.
  intros [Hb H]. split.
  - pose proof (exec_length tc ev w). lia.
  - destruct oh as [h|].
    + destruct H as (Hk & Hh & L). split_and!; [done..|]. by apply then_link_exec.
    + destruct H as (Hk & Hs). split; [done|]. by apply exec_settled_with.
Qed.

Lemma entity_link_run r w0 props hs es a d evs w :
  entity_link tc r w0 props hs es a d w →
  entity_link tc r w0 props hs es a d (run tc evs w).
Proof.
  revert w. induction evs as [|ev evs IH]; intros w L; [done|].
  apply IH. destruct L as [Hf Ha Ht]. split.
  - eapply Forall3_impl; [exact Hf|]. intros kv oh e. apply field_link_exec.
  - by apply all_link_exec.
  - by apply then_link_exec.
Qed.

Lemma entity_link_fromPotionJSON w props raw r d w1 :
  wf w → ledger_bound w →
  JsObject.get "$uri" props = Some (JStr raw) → parseURI w raw = Return r →
  _fromPotionJSON (JObj props) w = (Return d, w1) →
  ∃ hs es a, entity_link tc r w props hs es a d w1.
Proof.
  intros Hwf Hlb Huri Hr. rewrite (fromPotionJSON_entity _ _ Huri).
  unfold bind at 1. unfold parseURI_M. rewrite Hr. unfold bind.
  set (f := λ '(key, v),
              if String.eqb key "$uri"
              then promise_resolve (VArr [VStr key; VStr (uri r)])
              else (λ w, match _fromPotionJSON v w with
                         | (Return a, w') => then_ a (KPair key) w'
                         | (Throw e, w') => (Throw e, w')
                         end)).
  destruct (traverse f props w) as [[es|e] w0] eqn:Ht; [|done].
  destruct (promise_all_returns es w0) as [Hpa _].
  destruct (promise_all es w0) as [o wA] eqn:Hall. cbn [fst] in Hpa. subst o.
  destruct (then_returns (length (promises w0)) (KInstance (resource r) (uri r)) wA)
    as [Hth _].
  destruct (then_ (length (promises w0)) (KInstance (resource r) (uri r)) wA)
    as [o w1'] eqn:Hthen. cbn [fst] in Hth. subst o.
  intros [= <- <-].
  assert (∀ kv w', ext w' (f kv w').2) as Hext.
  { intros [key v] w'. unfold f. destruct (String.eqb key "$uri").
    - apply ext_promise_resolve.
    - pose proof (ext_fromPotionJSON v w') as H1.
      destruct (_fromPotionJSON v w') as [[h|e] wh]; [|done].
      etrans; [exact H1|]. apply ext_then. }
  destruct (traverse_Forall2 f (λ w', ext w w' ∧ wf w' ∧ ledger_bound w')
              (λ kv e w', ∃ oh, field_link tc r w kv oh e w') props)
    with (w := w) (bs := es) (w' := w0) as ((He0 & Hwf0 & Hlb0) & _ & Hes);
    [..|done|done|].
  { intros [key v] w' _ (H1 & H2 & H3). split_and!.
    - etrans; [exact H1|]. apply Hext.
    - eapply ext_wf; [apply Hext|done].
    - unfold f. destruct (String.eqb key "$uri").
      + by apply ledger_bound_promise_resolve.
      + pose proof (ledger_bound_fromPotionJSON v w' H3) as H4.
        destruct (_fromPotionJSON v w') as [[h|e] wh]; [|done].
        by apply ledger_bound_then. }
  { intros kv w' _. apply Hext. }
  { intros [key v] w' e w'' _ (H1 & H2 & H3). unfold f.
    destruct (String.eqb key "$uri") eqn:Ekey.
    - apply String.eqb_eq in Ekey as ->. intros [= <- <-]. exists None. split.
      + simpl. rewrite length_app. simpl. lia.
      + split; [done|]. unfold settled_with. simpl. by apply list_lookup_middle.
    - apply String.eqb_neq in Ekey.
      pose proof (fromPotionJSON_bound v w') as Hb.
      pose proof (ext_fromPotionJSON v w') as Heh.
      destruct (_fromPotionJSON v w') as [[h|err] wh] eqn:Hh; [|done].
      specialize (Hb h wh H3 eq_refl). cbn [snd] in Heh.
      intros Hth'. exists (Some h).
      assert (wf wh) as Hwfh by by eapply ext_wf.
      pose proof (then_link_then tc h (KPair key) wh Hwfh Hb) as L.
      destruct (then_returns h (KPair key) wh) as [H4 H5].
      rewrite Hth' in L, H4, H5. cbn [fst snd] in *. injection H4 as ->.
      split; [done|]. split_and!; [done| |done].
      by exists w', wh. }
  { intros kv e w' w'' [oh L] He. exists oh. by eapply field_link_ext. }
  apply Forall2_exists_Forall3 in Hes as [hs Hes].
  assert (es ≠ []) as Hne.
  { intros ->. apply Forall3_length_lr in Hes. destruct props; [done|]. done. }
  assert (wf wA) as HwfA.
  { eapply ext_wf; [|exact Hwf0]. pose proof (ext_promise_all es w0) as H.
    by rewrite Hall in H. }
  assert (all_link (length (promises w0)) es wA) as LA.
  { replace wA with (promise_all es w0).2 by by rewrite Hall.
    apply all_link_promise_all; [done..|].
    apply Forall_forall. intros e He.
    destruct (Forall3_elem_of_r _ _ _ _ _ Hes He) as (kv & oh & _ & _ & Hl).
    apply Hl. }
  pose proof (then_link_then tc (length (promises w0)) (KInstance (resource r) (uri r)) wA
                HwfA (all_bound _ _ _ (proj1 LA))) as LT.
  rewrite Hthen in LT. cbn [snd] in LT.
  assert (ext w0 wA) as HeA.
  { pose proof (ext_promise_all es w0) as H. by rewrite Hall in H. }
  assert (ext wA w1') as He1.
  { pose proof (ext_then (length (promises w0)) (KInstance (resource r) (uri r)) wA) as H.
    by rewrite Hthen in H. }
  exists hs, es, (length (promises w0)). split.
  - eapply Forall3_impl; [exact Hes|]. intros kv oh e L.
    eapply field_link_ext; [|exact He1]. eapply field_link_ext; [exact L|exact HeA].
  - by eapply all_link_ext.
  - done.
Qed.

Lemma then_instance_cached p resource u d e i w :
  then_link tc p (KInstance resource u) d w → is_pending w d →
  settled_with (exec tc e w) d (inl (VInst i)) → is_Some (cache w) →
  cache_get u (exec tc e w) = Some i.
Proof.
  intros L Hp Hs Hc.
  assert (∀ w', undisturbed d (settles e) w w' → ¬ settled_with w' d (inl (VInst i))) as HU.
  { intros w' U Hs'. eapply is_pending_not_settled; [|exact Hs']. by eapply und_pending. }
  assert (e = Tick ∨ e ≠ Tick) as [->|Hne] by (destruct e; (by left) || (by right)).
  2: { exfalso. eapply HU; [|exact Hs]. apply exec_undisturbed; [apply L|].
       intros j rest He. done. }
  destruct (microtasks w) as [|j rest] eqn:Hm.
  { simpl in Hs. unfold tick in Hs. rewrite Hm in Hs. exfalso.
    by eapply is_pending_not_settled. }
  destruct (decide (job_target j = d)) as [Ht|Ht].
  2: { exfalso. eapply HU; [|exact Hs]. apply exec_undisturbed; [apply L|].
       intros j' rest' _ Hm'. congruence. }
  destruct (then_queued _ _ _ _ _ (proj1 L) j) as (x & -> & Hx); [|done|].
  { unfold queued. rewrite Hm. apply list_elem_of_here. }
  simpl in Hs |- *. rewrite (tick_cons _ _ _ _ Hm) in Hs |- *.
  set (w0 := set_microtasks (λ _, rest) w) in *.
  assert (is_pending w0 d) as Hp0 by exact Hp.
  destruct x as [v|err]; cbn [run_job run_callback] in Hs |- *.
  - destruct (pairs_of v) as [pairs|].
    + unfold bind, construct, modify, ret in Hs |- *. cbn [fst snd] in Hs |- *.
      apply settle_target in Hs as [Hs|[_ [= ->]]].
      { exfalso. eapply is_pending_not_settled; [exact Hp0|exact Hs]. }
      unfold cache_get. rewrite cache_settle.
      cbn [cache cache_set set_cache set_heap].
      destruct Hc as [m Hc]. unfold w0. cbn [cache set_microtasks]. rewrite Hc. simpl.
      apply lookup_insert_eq.
    + unfold throw in Hs. apply settle_target in Hs as [Hs|[_ [=]]].
      exfalso. eapply is_pending_not_settled; [exact Hp0|exact Hs].
  - apply settle_target in Hs as [Hs|[_ [=]]].
    exfalso. eapply is_pending_not_settled; [exact Hp0|exact Hs].
Qed.


End Entities.

(** ** Host naming *)

Lemma toCamelCase_cons a s :
  toCamelCase (String a s) =
  if Ascii.eqb a "_" then
    match s with
    | String c rest =>
        let n := N_of_ascii c in
        if ((97 <=? n) && (n <=? 122))%N then String (ascii_of_N (n - 32)) (toCamelCase rest)
        else if ((48 <=? n) && (n <=? 57))%N then String c (toCamelCase rest)
        else String "_" (toCamelCase s)
    | EmptyString => String a EmptyString
    end
  else String a (toCamelCase s).
Proof.
  destruct a as [[] [] [] [] [] [] [] []]; try reflexivity; destruct s; reflexivity.
Qed.

(** A name without upper-case letters and digits is in host naming only
    if it was in wire naming as well. *)
Lemma toCamelCase_lower_name s t : toCamelCase s = t → lower_name t = true → s = t.
Proof.
  remember (String.length s) as n eqn:Hn. revert s t Hn.
  induction n as [n IH] using lt_wf_ind. intros s t Hn Ht Hl.
  destruct s as [|a s]; [done|]. rewrite toCamelCase_cons in Ht.
  destruct (Ascii.eqb a "_") eqn:Ea.
  - apply Ascii.eqb_eq in Ea as ->. destruct s as [|c rest]; [done|].
    cbv zeta in Ht. destruct ((97 <=? N_of_ascii c) && (N_of_ascii c <=? 122))%N eqn:E1.
    + exfalso. subst t. cbn [lower_name] in Hl. cbv zeta in Hl.
      apply andb_prop in E1 as [H1 H2]. apply N.leb_le in H1, H2.
      rewrite N_ascii_embedding in Hl by lia.
      apply andb_prop in Hl as [Hl _]. apply andb_prop in Hl as [Hl _].
      apply negb_true_iff, andb_false_iff in Hl as [Hl|Hl]; apply N.leb_gt in Hl; lia.
    + destruct ((48 <=? N_of_ascii c) && (N_of_ascii c <=? 57))%N eqn:E2.
      * exfalso. subst t. cbn [lower_name] in Hl. cbv zeta in Hl. rewrite E2 in Hl.
        apply andb_prop in Hl as [Hl _]. apply andb_prop in Hl as [_ Hl]. done.
      * destruct t as [|b t]; [done|]. injection Ht as <- Ht.
        simpl in Hl. f_equal. apply (IH (String.length (String c rest))); [simpl in *; lia|done..].
  - destruct t as [|b t]; [done|]. injection Ht as <- Ht.
    cbn [lower_name] in Hl. apply andb_prop in Hl as [_ Hl].
    f_equal. apply (IH (String.length s)); [simpl in *; lia|done..].
Qed.

Lemma toCamelCase_uri key : key ≠ "$uri" → toCamelCase key ≠ "$uri".
Proof. intros Hne H. apply Hne. by apply toCamelCase_lower_name. Qed.

(** ** Examples of hydration *)


(** The array of §8.1: two dates, in the order of the document; and an
    array of two references of which the second is answered first: its
    entity is constructed first and is still the second element. *)
Lemma array_order_example :
  let dates := JArr [JObj [("$date", JNum 1)]; JObj [("$date", JNum 2)]] in
  let refs := JArr [JObj [("$ref", JStr "/user/1")]; JObj [("$ref", JStr "/user/2")]] in
  let w := drain toCamelCase 9 (_fromPotionJSON dates users).2 in
  let w1 := (_fromPotionJSON refs users).2 in
  let w2 := drain toCamelCase 9
              (run toCamelCase [Respond 1 (JObj [("$uri", JStr "/user/2")])] w1) in
  let w3 := drain toCamelCase 9
              (run toCamelCase [Respond 0 (JObj [("$uri", JStr "/user/1")])] w2) in
  (_fromPotionJSON dates users).1 = Return 2 ∧
  promises w !! 2 = Some (Fulfilled (VArr [VDate (JNum 1); VDate (JNum 2)])) ∧
  (_fromPotionJSON refs users).1 = Return 2 ∧
  promises w2 !! 0 = Some (Pending [RAllElem 2 0]) ∧
  promises w2 !! 1 = Some (Fulfilled (VInst 0)) ∧
  promises w3 !! 0 = Some (Fulfilled (VInst 1)) ∧
  promises w3 !! 2 = Some (Fulfilled (VArr [VInst 1; VInst 0])) ∧
  Item_uri <$> heap w3 = [Some "/user/2"; Some "/user/1"].
Proof. vm_compute. split_and!; reflexivity. Qed.


(** The entity of §8.2: a [User] with [uri] [/user/5] and [firstName]
    [Ann], stored in the cache under [/user/5]; its property bag has
    neither [$uri] nor [first_name]. *)
Lemma entity_hydration_example :
  let doc := JObj [("$uri", JStr "/user/5"); ("first_name", JStr "Ann")] in
  let w := drain toCamelCase 9 (_fromPotionJSON doc users).2 in
  (_fromPotionJSON doc users).1 = Return 4 ∧
  promises w !! 4 = Some (Fulfilled (VInst 0)) ∧
  heap w = [{| Item_constructor := "User";
               Item_properties := [("firstName", VStr "Ann"); ("uri", VStr "/user/5")] |}] ∧
  cache_get "/user/5" w = Some 0 ∧
  microtasks w = [].
Proof. vm_compute. split_and!; reflexivity. Qed.

(** * Further properties of the resolver and the dispatcher *)

Lemma append_assoc (a b c : string) : (a +:+ b) +:+ c = a +:+ (b +:+ c).
Proof.
  induction a as [|x a IH]; [done|].
  change (String x ((a +:+ b) +:+ c) = String x (a +:+ (b +:+ c))). by rewrite IH.
Qed.

Lemma append_nil_r (a : string) : a +:+ "" = a.
Proof.
  induction a as [|x a IH]; [done|]. change (String x (a +:+ "") = String x a). by rewrite IH.
Qed.

Lemma split_go_cons c cur s : ∃ first rest, JsString.split_go c cur s = first :: rest.
Proof.
  revert cur. induction s as [|a s IH]; intros cur; simpl; [eauto|].
  destruct (Ascii.eqb a c); eauto.
Qed.

Lemma rev_app_append s t u : String.rev_app s t +:+ u = String.rev_app s (t +:+ u).
Proof. revert t. induction s as [|a s IH]; intros t; [done|]. simpl. by rewrite IH. Qed.

Lemma concat_split_go c cur s :
  String.concat (String c "") (JsString.split_go c cur s) = String.rev_app cur s.
Proof.
  revert cur. induction s as [|a s IH]; intros cur; cbn [JsString.split_go]; [done|].
  destruct (Ascii.eqb a c) eqn:E.
  - apply Ascii.eqb_eq in E as ->.
    specialize (IH ""). destruct (split_go_cons c "" s) as (first & rest & Hs).
    rewrite Hs in IH |- *.
    change (String.concat (String c "") (String.rev cur :: first :: rest))
      with (String.rev cur +:+ String c "" +:+ String.concat (String c "") (first :: rest)).
    rewrite IH. unfold String.rev. by rewrite rev_app_append.
  - by rewrite IH.
Qed.

(** Joining the pieces of [s.split(c)] with [c] gives [s] back. *)
Lemma concat_split c s : String.concat (String c "") (JsString.split c s) = s.
Proof. unfold JsString.split. by rewrite concat_split_go. Qed.

Lemma find_resource_elem_of u es p c : find_resource u es = Some (p, c) → (p, c) ∈ es.
Proof.
  intros (before & after & -> & _)%find_resource_spec.
  apply elem_of_app. right. apply list_elem_of_here.
Qed.

(** X1: what [parseURI] returns can be put together again: the resource
    is registered under a prefix [p], there is at least one parameter, and
    the resolved uri is [p], a slash, and the parameters joined by
    slashes. *)
Theorem parseURI_reassembles (w : World) (raw : string) (r : ParsedURI) :
  parseURI w raw = Return r →
  ∃ p, (p, resource r) ∈ JsObject.entries (resources w) ∧
       params r ≠ [] ∧
       uri r = p +:+ "/" +:+ String.concat "/" (params r).
Proof.
  intros (decoded & p & Hd & Hu & Hf & Hp)%parseURI_Return. exists p. split_and!.
  - by eapply find_resource_elem_of.
  - rewrite Hp. destruct (split_cons "/" (JsString.substring (String.length p + 1) (uri r)))
      as (first & rest & ->). done.
  - rewrite Hp, concat_split.
    apply find_resource_spec in Hf as (_ & _ & _ & [rest Hrest] & _).
    rewrite Hrest at 2. rewrite <- (length_append_1 p "/"%char), substring_append.
    rewrite Hrest. by rewrite append_assoc.
Qed.

Lemma parseURI_reassembles_witness :
  ∃ p, (p, "User") ∈ JsObject.entries (resources users) ∧
       ["5"; "friends"] ≠ [] ∧
       "/user/5/friends" = p +:+ "/" +:+ String.concat "/" ["5"; "friends"].
Proof.
  apply (parseURI_reassembles users "/user/5/friends"
           {| uri := "/user/5/friends"; resource := "User"; params := ["5"; "friends"] |}).
  reflexivity.
Defined.

(** X2: [parseURI] throws in two cases only: a [URIError] when the uri
    is not a well-formed percent-encoding, whatever is registered, and
    otherwise the [Error] that names the decoded uri without the prefix,
    when no registered prefix followed by a slash starts it. *)
Theorem parseURI_throws (w : World) (raw : string) (e : error) :
  parseURI w raw = Throw e ↔
  (JsString.decodeURIComponent raw = None ∧ e = URIError) ∨
  (∃ decoded,
     JsString.decodeURIComponent raw = Some decoded ∧
     (∀ p c, (p, c) ∈ JsObject.entries (resources w) →
             ¬ starts_with (strip_prefix (_prefix w) decoded) (p +:+ "/")) ∧
     e = Error ("Uninterpretable or unknown resource URI: "
                +:+ strip_prefix (_prefix w) decoded)).
Proof.
  unfold parseURI, JsObject.entries.
  destruct (JsString.decodeURIComponent raw) as [decoded|].
  - destruct (find_resource _ _) as [[p c]|] eqn:Hf.
    + split; [done|]. intros [[? _]|(d & [= <-] & Hnone & _)]; [done|].
      apply find_resource_none in Hnone. congruence.
    + split.
      * intros [= <-]. right. exists decoded. split_and!; [done| |done].
        by apply find_resource_none.
      * intros [[? _]|(d & [= <-] & _ & ->)]; done.
  - split.
    + intros [= <-]. by left.
    + intros [[_ ->]|(d & ? & _)]; done.
Qed.

(** ** Registration *)

Lemma find_resource_skip x u c es1 es2 :
  ¬ starts_with x (u +:+ "/") →
  find_resource x (es1 ++ (u, c) :: es2) = find_resource x (es1 ++ es2).
Proof.
  intros Hn. induction es1 as [|[q c'] es1 IH]; simpl.
  - rewrite decide_False; [done|]. by rewrite indexOf_0.
  - by rewrite IH.
Qed.

Lemma replace_split {V} u (c c0 : V) o :
  JsObject.get u o = Some c0 →
  ∃ o1 o2, o = o1 ++ (u, c0) :: o2 ∧ JsObject.replace u c o = o1 ++ (u, c) :: o2.
Proof.
  induction o as [|[k v] o IH]; simpl; [done|].
  destruct (String.eqb u k) eqn:E.
  - apply String.eqb_eq in E as <-. intros [= ->]. by exists [], o.
  - intros H. destruct (IH H) as (o1 & o2 & -> & ->). by exists ((k, v) :: o1), o2.
Qed.

Lemma insert_index_split {V} i u (c : V) o :
  ∃ o1 o2, o = o1 ++ o2 ∧ JsObject.insert_index i u c o = o1 ++ (u, c) :: o2.
Proof.
  induction o as [|[k v] o IH]; simpl; [by exists [], []|].
  destruct (JsString.array_index k) as [j|]; [destruct (j <? i)%N|].
  - destruct IH as (o1 & o2 & -> & ->). by exists ((k, v) :: o1), o2.
  - by exists [], ((k, v) :: o).
  - by exists [], ((k, v) :: o).
Qed.

(** What [o[u] = c] does to the enumeration of [o]: the entry of [u] is
    replaced where it is, or a new entry is put somewhere; the other
    entries keep their order. *)
Lemma set_split {V} u (c : V) o :
  ∃ o1 o2, JsObject.set u c o = o1 ++ (u, c) :: o2 ∧
           (o = o1 ++ o2 ∨ ∃ c0, o = o1 ++ (u, c0) :: o2).
Proof.
  unfold JsObject.set. destruct (JsObject.get u o) as [c0|] eqn:Hg.
  - destruct (replace_split u c c0 o Hg) as (o1 & o2 & -> & ->). exists o1, o2. eauto.
  - destruct (JsString.array_index u) as [i|].
    + destruct (insert_index_split i u c o) as (o1 & o2 & -> & ->). exists o1, o2. eauto.
    + exists o, []. rewrite app_nil_r. eauto.
Qed.

(** X3: [register(u, c)] changes how a uri resolves only if the uri,
    decoded and without the prefix, starts with [u/]: every other uri
    resolves, or fails, as before. *)
Theorem register_frame (w : World) (u raw : string) (c : ItemConstructor) :
  (∀ decoded, JsString.decodeURIComponent raw = Some decoded →
              ¬ starts_with (strip_prefix (_prefix w) decoded) (u +:+ "/")) →
  parseURI (register u c w) raw = parseURI w raw.
Proof.
  intros Hn. unfold parseURI, JsObject.entries.
  destruct (JsString.decodeURIComponent raw) as [decoded|]; [|done].
  specialize (Hn decoded eq_refl). cbn [_prefix resources register set_resources].
  destruct (set_split u c (resources w)) as (o1 & o2 & -> & [->|[c0 ->]]);
    by rewrite !find_resource_skip.
Qed.

Lemma register_frame_witness :
  parseURI (register "/group" "Group" users) "/user/5" = parseURI users "/user/5".
Proof.
  apply register_frame. intros decoded [= <-] [t Ht]. vm_compute in Ht. discriminate.
Defined.

Lemma find_resource_key x u es :
  starts_with x (u +:+ "/") →
  (∀ q c, (q, c) ∈ es → q ≠ u → ¬ starts_with x (q +:+ "/")) →
  find_resource x es = (λ c, (u, c)) <$> JsObject.get u es.
Proof.
  intros Hu Hn. induction es as [|[q c] es IH]; simpl; [done|].
  destruct (String.eqb u q) eqn:E.
  - apply String.eqb_eq in E as <-. rewrite decide_True; [done|]. by rewrite indexOf_0.
  - apply String.eqb_neq in E. rewrite decide_False.
    + apply IH. intros q' c' Hin. apply (Hn q' c'). by apply list_elem_of_further.
    + rewrite indexOf_0. apply (Hn q c); [apply list_elem_of_here|done].
Qed.



(** ** Requests *)

(** X5: [request] adds the prefix at most once: a uri that [request]
    has prefixed goes out unchanged when requested again. *)
Theorem request_prefix_once (w : World) (u : string) (o : PotionRequestOptions) :
  prefixed w (prefixed w u) = prefixed w u ∧
  request (prefixed w u) o w = request u o w.
Proof.
  assert (prefixed w (prefixed w u) = prefixed w u) as H.
  { unfold prefixed. destruct (JsString.indexOf u (_prefix w)) as [n|] eqn:Hi.
    - by rewrite Hi.
    - assert (JsString.indexOf (_prefix w +:+ u) (_prefix w) = Some 0) as ->; [|done].
      apply indexOf_0. by exists u. }
  split; [done|]. unfold request. by rewrite H.
Qed.

(** X6: the prefix that [parseURI] takes off a reference is put back by
    [request]: hydrating a reference stub whose decoded uri starts with
    the prefix, with nothing cached or pending for it, calls the
    transport once, with method [GET], for exactly the decoded uri --
    provided the prefix does not occur in the rest of the uri, where
    [request] would take it for the prefix and add nothing. *)
Theorem reference_request (w : World) (raw decoded : string) (r : ParsedURI) :
  parseURI w raw = Return r →
  JsString.decodeURIComponent raw = Some decoded →
  starts_with decoded (_prefix w) →
  _prefix w = "" ∨ JsString.indexOf (uri r) (_prefix w) = None →
  cache_get (uri r) w = None → _promises w !! uri r = None →
  ∃ p w',
    _fromPotionJSON (JObj [("$ref", JStr raw)]) w = (Return p, w') ∧
    fetches w' = fetches w ++
      [{| fetch_uri := decoded; fetch_options := with_method GET no_options;
          fetch_state := FPending [(KGetThen (uri r), p)] |}].
Proof.
  intros Hr Hd Hs Hp Hc Hl. rewrite fromPotionJSON_ref. unfold bind, parseURI_M.
  rewrite Hr, (get_miss _ _ _ Hc Hl). eexists _, _. split; [done|].
  cbn [fetches set_ledger set_fetches set_promises]. do 3 f_equal.
  apply parseURI_Return in Hr as (decoded' & q & Hd' & Hu & _).
  rewrite Hd in Hd'. injection Hd' as <-. symmetry in Hu.
  apply strip_prefix_spec in Hu as [Hu|[Hn _]]; [|done].
  unfold prefixed. destruct Hp as [Hp|Hp].
  - rewrite Hp in Hu |- *. rewrite Hu.
    assert (JsString.indexOf (uri r) "" = Some 0) as ->; [|done].
    apply indexOf_0. by exists (uri r).
  - by rewrite Hp.
Qed.

Lemma reference_request_witness :
  let w := registered [("/user", "User")] (create "/api" None) in
  ∃ p w',
    _fromPotionJSON (JObj [("$ref", JStr "/api/user/%35")]) w = (Return p, w') ∧
    fetches w' = fetches w ++
      [{| fetch_uri := "/api/user/5"; fetch_options := with_method GET no_options;
          fetch_state := FPending [(KGetThen "/user/5", p)] |}].
Proof.
  intros w.
  apply (reference_request w "/api/user/%35" "/api/user/5"
           {| uri := "/user/5"; resource := "User"; params := ["5"] |}).
  - reflexivity.
  - reflexivity.
  - by exists "/user/5".
  - right. reflexivity.
  - reflexivity.
  - reflexivity.
Defined.


(** X8: [update] and [destroy] of an entity whose uri is unset throw a
    [TypeError] to the caller and leave the engine as it was: no promise
    is made and the transport is not called. *)
Theorem mutation_without_uri (w : World) (item : Item) (data : option json) :
  JsObject.get "uri" (Item_properties item) = None →
  update item data w = (Throw TypeError, w) ∧
  destroy item w = (Throw TypeError, w).
Proof.
  intros H. assert (Item_uri item = None) as Hu by (unfold Item_uri; by rewrite H).
  split; [unfold update | unfold destroy]; by rewrite (mutation_throws _ _ _ Hu).
Qed.

Lemma mutation_without_uri_witness :
  let fresh := {| Item_constructor := "User"; Item_properties := [("name", VStr "Ann")] |} in
  update fresh None users = (Throw TypeError, users) ∧
  destroy fresh users = (Throw TypeError, users).
Proof. intros fresh. apply (mutation_without_uri users fresh None). reflexivity. Defined.

(** ** One transport call per uri *)

Lemma NoDup_bind_lookup {A B} (f : A → list B) l i j x y b :
  NoDup (l ≫= f) → l !! i = Some x → l !! j = Some y → b ∈ f x → b ∈ f y → i = j.
Proof.
  revert i j. induction l as [|a l IH]; intros i j Hnd Hi Hj Hx Hy; [done|].
  rewrite bind_cons in Hnd. apply NoDup_app in Hnd as (_ & Hdis & Hnd).
  destruct i as [|i], j as [|j]; simpl in *; simplify_eq; [done| | |f_equal; eauto].
  - destruct (Hdis b Hx). apply list_elem_of_bind. exists y. split; [done|].
    by eapply list_elem_of_lookup_2.
  - destruct (Hdis b Hy). apply list_elem_of_bind. exists x. split; [done|].
    by eapply list_elem_of_lookup_2.
Qed.

Lemma awaits_get_of w f u d :
  awaits w f (KGetThen u) d → ∃ x, fetches w !! f = Some x ∧ u ∈ gets_of_fetch x.
Proof.
  intros (x & rs & Hf & Hs & Hin). exists x. split; [done|].
  unfold gets_of_fetch. rewrite Hs. apply list_elem_of_bind.
  exists (KGetThen u). split; [apply list_elem_of_here|].
  apply list_elem_of_fmap. by exists (KGetThen u, d).
Qed.

Section SingleFlight.
Variable tc : string → string.


End SingleFlight.


(** * Further properties of the hydrator *)

Lemma bind_throws {A B} (c : M A) (k : A → M B) w e w' :
  bind c k w = (Throw e, w') →
  c w = (Throw e, w') ∨ ∃ a wa, c w = (Return a, wa) ∧ k a wa = (Throw e, w').
Proof.
  unfold bind. destruct (c w) as [[a|e0] wa]; [|intros [= -> ->]; by left].
  intros H. right. by exists a, wa.
Qed.

Lemma traverse_throws {A B} (f : A → M B) (Q : World → Prop) l w e w' :
  (∀ x w, x ∈ l → Q w → Q (f x w).2) → Q w →
  traverse f l w = (Throw e, w') →
  ∃ x wa wb, x ∈ l ∧ Q wa ∧ f x wa = (Throw e, wb).
Proof.
  revert w. induction l as [|x l IH]; intros w HQ Hw; simpl; [done|].
  intros [H|(b & wa & Hb & H)]%bind_throws.
  - exists x, w, w'. split_and!; [apply list_elem_of_here|done..].
  - apply bind_throws in H as [H|(bs & wb & _ & H)]; [|done].
    destruct (IH wa) as (y & wc & wd & Hy & Hc & Hd); [| |done|].
    + intros y w'' Hy. apply HQ. by apply list_elem_of_further.
    + pose proof (HQ x w (list_elem_of_here _ _) Hw) as Hwa. by rewrite Hb in Hwa.
    + exists y, wc, wd. split_and!; [by apply list_elem_of_further|done..].
Qed.

Lemma returns_not_throws {A} (c : M A) w a e w' :
  (c w).1 = Return a → c w = (Throw e, w') → False.
Proof. intros H1 H2. rewrite H2 in H1. done. Qed.

Lemma get_not_throws u o w e w' : get u o w = (Throw e, w') → False.
Proof. intros H. destruct (get_returns u o w) as [p Hp]. by rewrite H in Hp. Qed.

Lemma fromPotionJSON_throws j :
  ∀ w0 w e w', _prefix w = _prefix w0 → resources w = resources w0 →
    _fromPotionJSON j w = (Throw e, w') →
    ∃ raw, raw ∈ uris j ∧ parseURI w0 raw = Throw e.
Proof.
  induction j as [| | | |items IH|props IH] using json_ind'; intros w0 w e w' Hp Hr;
    try done.
  - simpl. intros [H|(ps & wa & _ & H)]%bind_throws.
    + apply (traverse_throws _ (λ w, _prefix w = _prefix w0 ∧ resources w = resources w0))
        in H as (j & wa & wb & Hj & [H1 H2] & H); [| |done].
      * destruct (proj1 (Forall_forall _ _) IH j Hj w0 wa e wb H1 H2 H) as (raw & Hraw & He).
        exists raw. split; [|done]. simpl. apply list_elem_of_bind. by exists j.
      * intros j w1 _ [H1 H2]. destruct (fromPotionJSON_config j w1) as [-> ->]. done.
    + destruct (returns_not_throws _ _ _ _ _ (proj1 (promise_all_returns ps wa)) H).
  - set (Q := λ w, _prefix w = _prefix w0 ∧ resources w = resources w0).
    assert (∀ key v w1, (key, v) ∈ props → Q w1 →
              Q ((h ←M _fromPotionJSON v; then_ h (KPair key)) w1).2) as HQ.
    { intros key v w1 _ [H1 H2]. unfold bind.
      destruct (fromPotionJSON_config v w1) as [H3 H4].
      destruct (_fromPotionJSON v w1) as [[h|e1] wa]; cbn [fst snd] in *; [|split; congruence].
      destruct (then_config h (KPair key) wa) as [H5 H6]. split; congruence. }
    assert (∀ key v w1 w2, (key, v) ∈ props → Q w1 →
              (h ←M _fromPotionJSON v; then_ h (KPair key)) w1 = (Throw e, w2) →
              ∃ raw, raw ∈ uris (JObj props) ∧ parseURI w0 raw = Throw e) as HT.
    { intros key v w1 w2 Hin [H1 H2] [H|(h & wa & _ & H)]%bind_throws.
      - destruct (proj1 (Forall_forall _ _) IH (key, v) Hin w0 w1 e w2 H1 H2 H)
          as (raw & Hraw & He).
        exists raw. split; [|done]. by eapply uris_field.
      - destruct (returns_not_throws _ _ _ _ _ (proj1 (then_returns h (KPair key) wa)) H). }
    assert (∀ w1, Q w1 →
      (ps ←M traverse (λ '(key, v), h ←M _fromPotionJSON v; then_ h (KPair key)) props;
       a ←M promise_all ps; then_ a KObject) w1 = (Throw e, w') →
      ∃ raw, raw ∈ uris (JObj props) ∧ parseURI w0 raw = Throw e) as Hplain.
    { intros w1 Hw1 [H|(ps & wa & _ & H)]%bind_throws.
      - apply (traverse_throws _ Q) in H as ([key v] & wb & wc & Hin & Hwb & H); [| |done].
        + by eapply HT.
        + intros [key v] w2. apply HQ.
      - apply bind_throws in H as [H|(a & wb & _ & H)].
        + destruct (returns_not_throws _ _ _ _ _ (proj1 (promise_all_returns ps wa)) H).
        + destruct (returns_not_throws _ _ _ _ _ (proj1 (then_returns a KObject wb)) H). }
    assert (Q w) as Hw by done.
    simpl. destruct (JsObject.get "$uri" props) as [[| | |raw| |]|] eqn:Huri;
      try (destruct (length props =? 1); [|by apply Hplain];
           destruct (JsObject.get "$ref" props) as [[| | |ref| |]|] eqn:Href;
           try (destruct (JsObject.get "$date" props); [done | by apply Hplain]);
           unfold bind, parseURI_M; rewrite (parseURI_config w0 w) by done;
           destruct (parseURI w0 ref) as [r|e0] eqn:Hraw;
           [intros H; destruct (get_not_throws _ _ _ _ _ H)
           |intros [= -> ->]; exists ref; split;
            [eapply uris_key; [by apply get_elem_of|by right]|done]]).
    unfold bind at 1. unfold parseURI_M. rewrite (parseURI_config w0 w) by done.
    destruct (parseURI w0 raw) as [r|e0] eqn:Hraw.
    + intros [H|(ps & wa & _ & H)]%bind_throws.
      * apply (traverse_throws _ Q) in H as ([key v] & wb & wc & Hin & Hwb & H); [| |done].
        -- destruct (String.eqb key "$uri"); [done|]. by eapply HT.
        -- intros [key v] w2 Hin Hw2. destruct (String.eqb key "$uri"); [done|].
           by apply HQ.
      * apply bind_throws in H as [H|(a & wb & _ & H)].
        -- destruct (returns_not_throws _ _ _ _ _ (proj1 (promise_all_returns ps wa)) H).
        -- destruct (returns_not_throws _ _ _ _ _
                       (proj1 (then_returns a (KInstance (resource r) (uri r)) wb)) H).
    + intros [= -> ->]. exists raw. split; [|done].
      eapply uris_key; [by apply get_elem_of|by left].
Qed.

(** X10: when hydration throws, the error is the one the resolver
    throws for a [$uri] or [$ref] string of the document, at any depth;
    what the call did before it reached that string stays done: the
    transport calls made for earlier references, and their ledger
    entries, are still there. *)
Theorem hydration_throws (w : World) (j : json) (e : error) (w' : World) :
  _fromPotionJSON j w = (Throw e, w') →
  (∃ raw, raw ∈ uris j ∧ parseURI w raw = Throw e) ∧
  (∃ fs, fetches w' = fetches w ++ fs) ∧
  (∀ u p, _promises w !! u = Some p → _promises w' !! u = Some p) ∧
  cache w' = cache w ∧ heap w' = heap w.
Proof.
  intros H. pose proof (ext_fromPotionJSON j w) as [G F]. rewrite H in G, F. cbn [snd] in *.
  split_and!.
  - by eapply (fromPotionJSON_throws j w w).
  - destruct (grow_fetches _ _ _ G) as (fs & Hfs & _). by exists fs.
  - apply F.
  - apply F.
  - apply F.
Qed.

Lemma hydration_throws_witness :
  let j := JArr [JObj [("$ref", JStr "/user/1")];
                 JObj [("$uri", JStr "/user/2"); ("owner", JObj [("$ref", JStr "/ghost/%")])]] in
  let w' := (_fromPotionJSON j users).2 in
  (∃ raw, raw ∈ uris j ∧ parseURI users raw = Throw URIError) ∧
  (∃ fs, fetches w' = fetches users ++ fs) ∧
  (∀ u p, _promises users !! u = Some p → _promises w' !! u = Some p) ∧
  cache w' = cache users ∧ heap w' = heap users.
Proof.
  intros j w'. apply (hydration_throws users j URIError w'). vm_compute. reflexivity.
Defined.

(** A reference is requested before a later part of the document makes
    the call throw: the transport call and the ledger entry remain. *)
Lemma hydration_throws_example :
  let j := JArr [JObj [("$ref", JStr "/user/1")]; JObj [("$ref", JStr "/ghost/1")]] in
  let w' := (_fromPotionJSON j users).2 in
  (_fromPotionJSON j users).1 =
    Throw (Error "Uninterpretable or unknown resource URI: /ghost/1") ∧
  fetch_uri <$> fetches w' = ["/user/1"] ∧
  _promises w' !! "/user/1" = Some 0.
Proof. vm_compute. split_and!; reflexivity. Qed.

Global Instance same_gets_reflexive : Reflexive same_gets.
Proof. intros w. apply same_gets_refl. Qed.

Global Instance same_gets_transitive : Transitive same_gets.
Proof. intros w1 w2 w3. apply same_gets_trans. Qed.

Lemma bind_nil_elem {A B} (f : A → list B) l x : l ≫= f = [] → x ∈ l → f x = [].
Proof.
  intros H Hx. destruct (f x) as [|b bs] eqn:E; [done|].
  assert (b ∈ l ≫= f) as Hb.
  { apply list_elem_of_bind. exists x. split; [|done]. rewrite E. apply list_elem_of_here. }
  rewrite H in Hb. by apply elem_of_nil in Hb.
Qed.

Lemma uris_nil_field props key v :
  uris (JObj props) = [] → (key, v) ∈ props →
  uris v = [] ∧ ∀ s, v = JStr s → key ≠ "$uri" ∧ key ≠ "$ref".
Proof.
  intros H Hin. simpl in H. pose proof (bind_nil_elem _ _ _ H Hin) as Hv. simpl in Hv.
  split.
  - by destruct v.
  - intros s ->. case_decide as Hk; [done|]. split; intros ->; apply Hk; [by left|by right].
Qed.

Lemma fromPotionJSON_quiet j : uris j = [] → preserves same_gets (_fromPotionJSON j).
Proof.
  induction j as [| | | |items IH|props IH] using json_ind'; intros Hu; try done.
  - simpl. apply preserves_bind; try apply _.
    + apply preserves_traverse; try apply _. apply Forall_forall. intros j Hj.
      apply (proj1 (Forall_forall _ _) IH j Hj). by eapply (bind_nil_elem uris).
    + intros ps w. apply same_gets_promise_all.
  - assert (preserves same_gets
      (ps ←M traverse (λ '(key, v), h ←M _fromPotionJSON v; then_ h (KPair key)) props;
       a ←M promise_all ps; then_ a KObject)) as Hplain.
    { apply preserves_bind; try apply _.
      - apply preserves_traverse; try apply _. apply Forall_forall. intros [key v] Hin.
        apply preserves_bind; try apply _.
        + apply (proj1 (Forall_forall _ _) IH (key, v) Hin).
          by apply (uris_nil_field props key v).
        + intros h w. apply same_gets_then.
      - intros ps. apply preserves_bind; try apply _.
        + intros w. apply same_gets_promise_all.
        + intros a w. apply same_gets_then. }
    simpl. destruct (JsObject.get "$uri" props) as [[| | |raw| |]|] eqn:Huri;
      try (destruct (length props =? 1); [|exact Hplain];
           destruct (JsObject.get "$ref" props) as [[| | |ref| |]|] eqn:Href;
           try (destruct (JsObject.get "$date" props); [done | exact Hplain]);
           apply get_elem_of in Href;
           by destruct (proj2 (uris_nil_field _ _ _ Hu Href) ref eq_refl)).
    apply get_elem_of in Huri.
    by destruct (proj2 (uris_nil_field _ _ _ Hu Huri) raw eq_refl).
Qed.

(** X11: hydrating a document in which no [$uri] and no [$ref] holds a
    string never throws, calls neither the resolver nor the transport,
    and leaves ledger, cache and heap as they are. *)
Theorem hydration_without_references (w : World) (j : json) :
  uris j = [] →
  ∃ p w', _fromPotionJSON j w = (Return p, w') ∧
    fetches w' = fetches w ∧ _promises w' = _promises w ∧
    cache w' = cache w ∧ heap w' = heap w.
Proof.
  intros Hu. destruct (fromPotionJSON_returns j w w eq_refl eq_refl) as [p Hp].
  { intros raw Hraw. rewrite Hu in Hraw. by apply elem_of_nil in Hraw. }
  pose proof (fromPotionJSON_quiet j Hu w) as (Hf & _ & Hl).
  pose proof (ext_fromPotionJSON j w) as [_ F].
  destruct (_fromPotionJSON j w) as [o w'] eqn:Hh. cbn [fst snd] in *. subst o.
  exists p, w'. split_and!; [done..| |]; apply F.
Qed.

Lemma hydration_without_references_witness :
  let j := JObj [("$uri", JNum 5); ("tags", JArr [JStr "a"; JNull]);
                 ("since", JObj [("$date", JNum 0)])] in
  ∃ p w', _fromPotionJSON j users = (Return p, w') ∧
    fetches w' = fetches users ∧ _promises w' = _promises users ∧
    cache w' = cache users ∧ heap w' = heap users.
Proof. intros j. apply (hydration_without_references users j). reflexivity. Defined.

(** ** Plain objects *)

Lemma fromPotionJSON_plain props :
  plain_object props →
  _fromPotionJSON (JObj props) =
  (ps ←M traverse (λ '(key, v), h ←M _fromPotionJSON v; then_ h (KPair key)) props;
   a ←M promise_all ps;
   then_ a KObject).
Proof.
  intros [Huri Hone]. simpl.
  destruct (JsObject.get "$uri" props) as [[| | |raw| |]|] eqn:Hu;
    try (by destruct (Huri raw));
    (destruct (length props =? 1) eqn:Hlen; [|done];
     apply Nat.eqb_eq in Hlen; destruct (Hone Hlen) as [Href Hdate];
     destruct (JsObject.get "$ref" props) as [[| | |ref| |]|];
     try (by destruct (Href ref)); by rewrite Hdate).
Qed.

Section Objects.
Variable tc : string → string.

Lemma object_link_run w0 props hs es a d evs w :
  object_link tc w0 props hs es a d w → object_link tc w0 props hs es a d (run tc evs w).
Proof.
  revert w. induction evs as [|ev evs IH]; intros w L; [done|].
  apply IH. destruct L as [Hf Ha Ht]. split.
  - eapply Forall3_impl; [exact Hf|]. intros kv h e (Hb & Hh & L). split_and!; [|done|].
    + pose proof (exec_length tc ev w). lia.
    + by apply then_link_exec.
  - destruct Ha as [Ha|[-> Ha]]; [left; by apply all_link_exec|right].
    split; [done|]. by apply exec_settled_with.
  - by apply then_link_exec.
Qed.

Lemma object_link_fromPotionJSON w props d w1 :
  wf w → ledger_bound w → plain_object props →
  _fromPotionJSON (JObj props) w = (Return d, w1) →
  ∃ hs es a, object_link tc w props hs es a d w1.
Proof.
  intros Hwf Hlb Hplain. rewrite (fromPotionJSON_plain _ Hplain).
  set (f := λ '(key, v), h ←M _fromPotionJSON v; then_ h (KPair key)).
  unfold bind.
  destruct (traverse f props w) as [[es|e] w0] eqn:Ht; [|done].
  destruct (promise_all_returns es w0) as [Hpa _].
  destruct (promise_all es w0) as [o wA] eqn:Hall. cbn [fst] in Hpa. subst o.
  destruct (then_returns (length (promises w0)) KObject wA) as [Hth _].
  destruct (then_ (length (promises w0)) KObject wA) as [o w1'] eqn:Hthen.
  cbn [fst] in Hth. subst o. intros [= <- <-].
  assert (∀ kv w', ext w' (f kv w').2) as Hext.
  { intros [key v] w'. unfold f, bind.
    pose proof (ext_fromPotionJSON v w') as H1.
    destruct (_fromPotionJSON v w') as [[h|e] wh]; [|done].
    etrans; [exact H1|]. apply ext_then. }
  destruct (traverse_Forall2 f (λ w', ext w w' ∧ wf w' ∧ ledger_bound w')
              (λ kv e w', ∃ h, e < length (promises w') ∧ hydrated w kv.2 h ∧
                               then_link tc h (KPair kv.1) e w') props)
    with (w := w) (bs := es) (w' := w0) as ((He0 & Hwf0 & Hlb0) & _ & Hes);
    [..|done|done|].
  { intros [key v] w' _ (H1 & H2 & H3). split_and!.
    - etrans; [exact H1|]. apply Hext.
    - eapply ext_wf; [apply Hext|done].
    - unfold f, bind. pose proof (ledger_bound_fromPotionJSON v w' H3) as H4.
      destruct (_fromPotionJSON v w') as [[h|e] wh]; [|done].
      by apply ledger_bound_then. }
  { intros kv w' _. apply Hext. }
  { intros [key v] w' e w'' _ (H1 & H2 & H3). unfold f, bind.
    pose proof (fromPotionJSON_bound v w') as Hb.
    pose proof (ext_fromPotionJSON v w') as Heh.
    destruct (_fromPotionJSON v w') as [[h|err] wh] eqn:Hh; [|done].
    specialize (Hb h wh H3 eq_refl). cbn [snd] in Heh.
    intros Hth'. exists h.
    assert (wf wh) as Hwfh by by eapply ext_wf.
    pose proof (then_link_then tc h (KPair key) wh Hwfh Hb) as L.
    destruct (then_returns h (KPair key) wh) as [H4 H5].
    rewrite Hth' in L, H4, H5. cbn [fst snd] in *. injection H4 as ->.
    split_and!; [done| |done]. by exists w', wh. }
  { intros kv e w' w'' (h & Hb & Hh & L) He. exists h. split_and!; [|done|].
    - apply ext_length in He. lia.
    - eapply (then_link_undisturbed _ _ _ _ (λ _ _, False)); [exact L|].
      by apply undisturbed_ext. }
  apply Forall2_exists_Forall3 in Hes as [hs Hes].
  assert (ext w0 wA) as HeA.
  { pose proof (ext_promise_all es w0) as H. by rewrite Hall in H. }
  assert (ext wA w1') as He1.
  { pose proof (ext_then (length (promises w0)) KObject wA) as H. by rewrite Hthen in H. }
  assert (wf wA) as HwfA by by eapply ext_wf.
  assert (length (promises w0) < length (promises wA)) as HbA.
  { destruct (promise_all_returns es w0) as [_ H]. by rewrite Hall in H. }
  pose proof (then_link_then tc (length (promises w0)) KObject wA HwfA HbA) as LT.
  rewrite Hthen in LT. cbn [snd] in LT.
  assert (∀ w' w'', ext w' w'' →
            Forall3 (λ kv h e, e < length (promises w') ∧ hydrated w kv.2 h ∧
                               then_link tc h (KPair kv.1) e w') props hs es →
            Forall3 (λ kv h e, e < length (promises w'') ∧ hydrated w kv.2 h ∧
                               then_link tc h (KPair kv.1) e w'') props hs es) as Hmono.
  { intros w' w'' He H. eapply Forall3_impl; [exact H|].
    intros kv h e (Hb & Hh & L). split_and!; [|done|].
    - apply ext_length in He. lia.
    - eapply (then_link_undisturbed _ _ _ _ (λ _ _, False)); [exact L|].
      by apply undisturbed_ext. }
  exists hs, es, (length (promises w0)). split.
  - eapply Hmono; [exact He1|]. by eapply Hmono.
  - destruct es as [|e0 es].
    + right. split; [done|]. eapply ext_settled_with; [exact He1|].
      injection Hall as <-. unfold settled_with. cbn [promises set_promises].
      by apply list_lookup_middle.
    + left. eapply all_link_ext; [|exact He1].
      replace wA with (promise_all (e0 :: es) w0).2 by by rewrite Hall.
      apply all_link_promise_all; [done..|].
      apply Forall_forall. intros e He.
      destruct (Forall3_elem_of_r _ _ _ _ _ Hes He) as (kv & h & _ & _ & Hl).
      apply Hl.
  - done.
Qed.

Lemma object_fields_values w0 w props hs es vs :
  Forall3 (λ kv h e, e < length (promises w) ∧ hydrated w0 kv.2 h ∧
                     then_link tc h (KPair kv.1) e w) props hs es →
  Forall2 (λ e v, settled_with w e (inl v)) es vs →
  ∃ fields, mapM pair_of vs = Some fields ∧
    Forall3 (λ kv h f, f.1 = tc kv.1 ∧ hydrated w0 kv.2 h ∧ settled_with w h (inl f.2))
      props hs fields.
Proof.
  intros H. revert vs. induction H as [|kv h e props hs es (_ & Hh & L) _ IH]; intros vs Hvs.
  - apply Forall2_nil_inv_l in Hvs as ->. exists []. split; [done|constructor].
  - apply Forall2_cons_inv_l in Hvs as (v & vs' & Hv & Hvs & ->).
    destruct (IH vs' Hvs) as (fields & Hm & Hf).
    destruct (then_fulfilled _ _ _ _ _ (proj1 L) v Hv) as (vh & Hvh & Hc).
    simpl in Hc. subst v.
    exists ((tc kv.1, vh) :: fields). split; [simpl; by rewrite Hm|].
    constructor; [|done]. by split_and!.
Qed.

Lemma object_all_fulfilled a es w y :
  all_link a es w ∨ (es = [] ∧ settled_with w a (inl (VArr []))) →
  settled_with w a (inl y) →
  ∃ vs, y = VArr vs ∧ Forall2 (λ e v, settled_with w e (inl v)) es vs.
Proof.
  intros [L|[-> Ha]] Hy.
  - by apply (all_fulfilled _ _ _ (proj1 L)).
  - pose proof (settled_with_inj _ _ _ _ Hy Ha) as [= ->]. exists []. split; [done|constructor].
Qed.


End Objects.


(** A plain object with a nested date and a key in wire naming, and one
    whose only key is [$date] but which has a second key as well: the
    second is not a date. *)
Lemma plain_object_example :
  let j := JObj [("created_at", JObj [("$date", JNum 5)]); ("$date", JNum 7)] in
  let w := drain toCamelCase 9 (_fromPotionJSON j users).2 in
  (_fromPotionJSON j users).1 = Return 5 ∧
  promises w !! 5 =
    Some (Fulfilled (VObj [("createdAt", VDate (JNum 5)); ("$date", VNum 7)])).
Proof. vm_compute. split_and!; reflexivity. Qed.

(** ** Hydration and the cache *)

Section Served.
Variable tc : string → string.


(** X14: the cache and the instances change only when a microtask runs
    or when the owner of the cache changes it: calls of [get], [update],
    [save], [destroy], [register] and of the hydrator, and the transport
    settling a call, leave both as they are. *)
Theorem cache_changes_in_microtasks (e : event) (w : World) :
  e ≠ Tick → (∀ u i, e ≠ Cache_set u i) → (∀ u, e ≠ Cache_clear u) →
  cache (exec tc e w) = cache w ∧ heap (exec tc e w) = heap w.
Proof.
  intros Ht Hs Hc.
  destruct e as [u o|item data|rootUri data|item|json|u c|f json|f err| |u i|u]; simpl;
    try done.
  - destruct (ext_get u o w) as [_ F]. split; apply F.
  - destruct (ext_update item data w) as [_ F]. split; apply F.
  - destruct (ext_save rootUri data w) as [_ F]. split; apply F.
  - destruct (ext_destroy item w) as [_ F]. split; apply F.
  - destruct (ext_fromPotionJSON json w) as [_ F]. split; apply F.
  - split; [apply cache_settle_fetch | apply settle_fetch_heap].
  - split; [apply cache_settle_fetch | apply settle_fetch_heap].
  - by destruct (Hs u i).
  - by destruct (Hc u).
Qed.

End Served.


(** The three inner hypotheses of the statement above hold on that run. *)
Lemma hydrated_entity_is_served_example :
  let props := [("$uri", JStr "/user/5"); ("first_name", JStr "Ann")] in
  let w2 := run toCamelCase [Tick; Tick; Tick] (_fromPotionJSON (JObj props) users).2 in
  let w3 := exec toCamelCase Tick w2 in
  (_fromPotionJSON (JObj props) users).1 = Return 4 ∧
  is_Some (cache w2) ∧ promises w2 !! 4 = Some (Pending []) ∧
  promises w3 !! 4 = Some (Fulfilled (VInst 0)) ∧
  fetches (get "/user/5" no_options w3).2 = [].
Proof. vm_compute. split_and!; [reflexivity|by eexists|reflexivity..]. Qed.

Lemma cache_changes_in_microtasks_witness :
  let w := cache_set "/user/5" 0 users in
  cache (exec toCamelCase (Call_destroy ann) w) = cache w ∧
  heap (exec toCamelCase (Call_destroy ann) w) = heap w.
Proof. intros w. apply (cache_changes_in_microtasks toCamelCase (Call_destroy ann) w); done. Defined.

(** * Stores *)

Lemma unescape_plain c rest :
  c ≠ "%"%char →
  JsString.unescape (String c rest) =
  match JsString.unescape rest with Some ts => Some (inl c :: ts) | None => None end.
Proof.
  intros Hc. destruct c as [[] [] [] [] [] [] [] []]; try reflexivity. done.
Qed.

(** A uri without [%] is its own decoding. *)
Lemma decodeURIComponent_plain s :
  "%"%char ∉ String.list_ascii_of_string s → JsString.decodeURIComponent s = Some s.
Proof.
  unfold JsString.decodeURIComponent. intros Hs.
  assert (∃ ts, JsString.unescape s = Some ts ∧ JsString.utf8 0 128 191 ts = Some s)
    as (ts & -> & Hts); [|done].
  induction s as [|c s IH]; [by exists []|].
  simpl in Hs. apply not_elem_of_cons in Hs as [Hc Hs].
  destruct (IH Hs) as (ts & Hu & Ht). exists (inl c :: ts).
  rewrite unescape_plain, Hu by done. split; [done|]. simpl. by rewrite Ht.
Qed.

Lemma list_ascii_of_string_app a b :
  String.list_ascii_of_string (a +:+ b) =
  String.list_ascii_of_string a ++ String.list_ascii_of_string b.
Proof.
  induction a as [|c a IH]; [done|].
  change (c :: String.list_ascii_of_string (a +:+ b) =
          c :: String.list_ascii_of_string a ++ String.list_ascii_of_string b).
  by rewrite IH.
Qed.

Lemma split_go_single c cur s :
  c ∉ String.list_ascii_of_string s → ∃ x, JsString.split_go c cur s = [x].
Proof.
  revert cur. induction s as [|a s IH]; intros cur Hs; simpl; [by eexists|].
  simpl in Hs. apply not_elem_of_cons in Hs as [Ha Hs].
  assert (Ascii.eqb a c = false) as -> by (apply Ascii.eqb_neq; congruence).
  by apply IH.
Qed.

(** A string without the separator is the only piece of its split. *)
Lemma split_single c s :
  c ∉ String.list_ascii_of_string s → JsString.split c s = [s].
Proof.
  intros Hs. pose proof (concat_split c s) as Hc.
  destruct (split_go_single c "" s Hs) as [x Hx]. unfold JsString.split in *.
  rewrite Hx in Hc |- *. simpl in Hc. by subst.
Qed.

Lemma pretty_N_char_digit d :
  (d < 10)%N →
  JsString.is_digit (pretty_N_char d) = true ∧
  N_of_ascii (pretty_N_char d) = (48 + d)%N.
Proof.
  intros Hd.
  assert (d = 0 ∨ d = 1 ∨ d = 2 ∨ d = 3 ∨ d = 4 ∨ d = 5 ∨ d = 6 ∨ d = 7 ∨ d = 8 ∨ d = 9)%N
    as Hcases by lia.
  repeat (destruct Hcases as [->|Hcases]; [done|]). by subst.
Qed.

Lemma digit_char c :
  JsString.is_digit c = true →
  c ≠ "%"%char ∧ c ≠ "/"%char ∧ c ≠ "-"%char ∧ c ≠ "+"%char ∧ JsString.is_space c = false.
Proof.
  unfold JsString.is_digit, JsString.is_space. intros [H1 H2]%andb_prop.
  apply N.leb_le in H1, H2.
  split_and!; try (intros ->; vm_compute in H1, H2; done).
  apply orb_false_iff. split.
  - apply andb_false_iff. right. apply N.leb_gt. lia.
  - apply N.eqb_neq. lia.
Qed.

Lemma pretty_N_go_digits x s :
  Forall (λ c, JsString.is_digit c = true) (String.list_ascii_of_string s) →
  Forall (λ c, JsString.is_digit c = true) (String.list_ascii_of_string (pretty_N_go x s)).
Proof.
  revert s. induction (N.lt_wf_0 x) as [x _ IH]. intros s Hs.
  destruct (decide (x = 0)%N) as [->|Hx]; [by rewrite pretty_N_go_0|].
  rewrite pretty_N_go_step by lia. apply IH.
  - apply N.div_lt; lia.
  - simpl. constructor; [|done]. apply pretty_N_char_digit. by apply N.mod_lt.
Qed.

Lemma Number_toString_digits n :
  Forall (λ c, JsString.is_digit c = true) (String.list_ascii_of_string (Number_toString n)).
Proof.
  unfold Number_toString, pretty, pretty_N. case_decide.
  - by repeat constructor.
  - by apply pretty_N_go_digits.
Qed.

Lemma leading_digits_pretty x s :
  (0 < x)%N →
  JsString.leading_digits None (pretty_N_go x s) =
  JsString.leading_digits (Some (Z.of_N x)) s.
Proof.
  revert s. induction (N.lt_wf_0 x) as [x _ IH]. intros s Hx.
  rewrite pretty_N_go_step by done.
  destruct (pretty_N_char_digit (x mod 10)) as [Hd Hn]; [by apply N.mod_lt|].
  destruct (decide (x / 10 = 0)%N) as [H0|H0].
  - rewrite H0, pretty_N_go_0. simpl. rewrite Hd, Hn. f_equal. f_equal.
    pose proof (N.div_mod x 10). lia.
  - rewrite IH.
    + simpl. rewrite Hd, Hn. f_equal. f_equal. pose proof (N.div_mod x 10). lia.
    + apply N.div_lt; lia.
    + by apply N.neq_0_lt_0.
Qed.

Lemma parseInt10_digit c s :
  JsString.is_digit c = true →
  JsString.parseInt10 (String c s) = JsString.leading_digits None (String c s).
Proof.
  intros Hc. destruct (digit_char c Hc) as (_ & _ & Hm & Hp & Hsp).
  unfold JsString.parseInt10. cbn [JsString.skip_spaces]. rewrite Hsp.
  destruct c as [[] [] [] [] [] [] [] []]; try reflexivity; done.
Qed.

(** [parseInt] reads back the numeral of a non-negative integer. *)
Lemma parseInt10_Number_toString n :
  JsString.parseInt10 (Number_toString n) = Some (Z.of_N n).
Proof.
  unfold Number_toString, pretty, pretty_N. case_decide as Hn; [by subst|].
  pose proof (pretty_N_go_digits n "" ltac:(constructor)) as Hd.
  pose proof (leading_digits_pretty n "" ltac:(lia)) as Hl.
  destruct (pretty_N_go n "") as [|c s]; [done|].
  rewrite parseInt10_digit; [done|]. simpl in Hd. by apply Forall_cons in Hd as [Hc _].
Qed.

Lemma Store_uri_plain rootURI id :
  "%"%char ∉ String.list_ascii_of_string rootURI →
  "%"%char ∉ String.list_ascii_of_string (Store_uri rootURI id).
Proof.
  intros Hr. unfold Store_uri. rewrite !list_ascii_of_string_app.
  rewrite !not_elem_of_app. split_and!; [done| |].
  - simpl. apply not_elem_of_cons. split; [done|apply not_elem_of_nil].
  - intros Hin. pose proof (Number_toString_digits id) as Hd.
    apply (proj1 (Forall_forall _ _) Hd) in Hin. by apply digit_char in Hin as [? _].
Qed.

(** X15: the uri that [Store.fetch(id)] asks for is read back by the
    [id] getter: for a resource registered at a root uri without [%],
    that no other registered prefix shadows, an entity whose uri is the
    root uri, a slash and the numeral of [id] has [id] as its id. *)
Theorem Store_uri_id (w : World) (rootURI : string) (c : ItemConstructor) (id : N)
    (item : Item) :
  (id ≤ 9007199254740991)%N →
  "%"%char ∉ String.list_ascii_of_string rootURI →
  _prefix w = "" ∨ ¬ starts_with (Store_uri rootURI id) (_prefix w) →
  JsObject.get rootURI (resources w) = Some c →
  (∀ q c', (q, c') ∈ JsObject.entries (resources w) → q ≠ rootURI →
           ¬ starts_with (Store_uri rootURI id) (q +:+ "/")) →
  Item_uri item = Some (Store_uri rootURI id) →
  parseURI w (Store_uri rootURI id) =
    Return {| uri := Store_uri rootURI id; resource := c;
              params := [Number_toString id] |} ∧
  Item_id w item = Return (Some (Some (Z.of_N id))).
Proof.
  intros _ Hplain Hprefix Hreg Hshadow Huri.
  assert (parseURI w (Store_uri rootURI id) =
          Return {| uri := Store_uri rootURI id; resource := c;
                    params := [Number_toString id] |}) as Hparse.
  { unfold parseURI. rewrite (decodeURIComponent_plain _ (Store_uri_plain _ id Hplain)).
    assert (strip_prefix (_prefix w) (Store_uri rootURI id) = Store_uri rootURI id) as ->.
    { apply strip_prefix_spec. destruct Hprefix as [->|Hn]; [by left|by right]. }
    unfold JsObject.entries in *.
    rewrite (find_resource_key _ rootURI);
      [|exists (Number_toString id); unfold Store_uri; by rewrite append_assoc|done].
    rewrite Hreg. simpl. do 2 f_equal.
    unfold Store_uri. rewrite <- (length_append_1 rootURI "/"%char).
    change (rootURI +:+ "/" +:+ Number_toString id)
      with (rootURI +:+ ("/" +:+ Number_toString id)).
    rewrite <- append_assoc, substring_append. apply split_single.
    intros Hin. pose proof (Number_toString_digits id) as Hd.
    apply (proj1 (Forall_forall _ _) Hd) in Hin. by apply digit_char in Hin as (_ & ? & _). }
  split; [done|]. unfold Item_id. rewrite Huri.
  destruct (Store_uri rootURI id) as [|a u] eqn:Hu.
  { unfold Store_uri in Hu. by destruct rootURI. }
  rewrite Hparse. simpl. by rewrite parseInt10_Number_toString.
Qed.

Lemma Store_uri_id_witness :
  let item := {| Item_constructor := "User";
                 Item_properties := [("uri", VStr (Store_uri "/user" 42))] |} in
  parseURI users (Store_uri "/user" 42) =
    Return {| uri := Store_uri "/user" 42; resource := "User";
              params := [Number_toString 42] |} ∧
  Item_id users item = Return (Some (Some (Z.of_N 42))).
Proof.
  intros item. apply (Store_uri_id users "/user" "User" 42 item).
  - vm_compute. discriminate.
  - vm_compute. intros H. repeat (apply elem_of_cons in H as [H|H]; [discriminate|]).
    by apply elem_of_nil in H.
  - by left.
  - reflexivity.
  - intros q c' Hin Hq. vm_compute in Hin.
    apply list_elem_of_singleton in Hin. injection Hin as -> ->. done.
  - reflexivity.
Defined.

(** * Routes *)

Lemma get_fetches u o w :
  ∃ p, (get u o w).1 = Return p ∧
    (fetches (get u o w).2 = fetches w ∨
     fetches (get u o w).2 = fetches w ++
       [{| fetch_uri := prefixed w u; fetch_options := with_method GET o;
           fetch_state := FPending [(KGetThen u, p)] |}]).
Proof.
  destruct (cache_get u w) as [i|] eqn:Hc.
  - rewrite (get_cached _ _ _ _ Hc). eexists. split; [done|]. by left.
  - destruct (_promises w !! u) as [p|] eqn:Hl.
    + rewrite (get_pending _ _ _ _ Hc Hl). eexists. split; [done|]. by left.
    + rewrite (get_miss _ _ _ Hc Hl). eexists. split; [done|]. by right.
Qed.

Lemma route_call_registered rt this options h root :
  rootUris h !! Receiver_class this = Some root →
  route_call rt this options h =
    ({| Route_uri := Receiver_root h this +:+ Route_uri rt; Route_method := Route_method rt |},
     (get (Receiver_root h this +:+ Route_uri rt)
          (route_options (Route_method rt) options) (engine h)).1,
     {| engine := (get (Receiver_root h this +:+ Route_uri rt)
                       (route_options (Route_method rt) options) (engine h)).2;
        rootUris := rootUris h |}).
Proof. intros H. unfold route_call. rewrite H. by destruct (get _ _ _). Qed.

(** X16: a route closure keeps the uri it has built: every call on a
    registered class puts the root uri of the class before the uri left
    by the call before, so that after [n] calls the closure holds the
    root uri [n] times before the uri it was declared with, and the next
    call is a [get] of one more. *)
Theorem route_accumulates (n : nat) (rt : Route) (c : ItemConstructor) (root : string)
    (options : option PotionRequestOptions) (h : Host) :
  rootUris h !! c = Some root →
  let '(rt_n, h_n) := route_calls n rt c options h in
  Route_uri rt_n = Nat.iter n (String.append root) (Route_uri rt) ∧
  Route_method rt_n = Route_method rt ∧
  rootUris h_n = rootUris h ∧
  let uri := Nat.iter (S n) (String.append root) (Route_uri rt) in
  route_call rt_n (OnClass c) options h_n =
    ({| Route_uri := uri; Route_method := Route_method rt |},
     (get uri (route_options (Route_method rt) options) (engine h_n)).1,
     {| engine := (get uri (route_options (Route_method rt) options) (engine h_n)).2;
        rootUris := rootUris h |}).
Proof.
  revert rt h. induction n as [|n IH]; intros rt h Hc.
  - simpl. split_and!; [done..|]. rewrite (route_call_registered rt (OnClass c) options h root Hc).
    simpl. by rewrite Hc.
  - cbn [route_calls]. rewrite (route_call_registered rt (OnClass c) options h root Hc).
    cbn [Receiver_root]. rewrite Hc. simpl default.
    set (rt1 := {| Route_uri := root +:+ Route_uri rt; Route_method := Route_method rt |}).
    set (h1 := {| engine := _; rootUris := rootUris h |}).
    specialize (IH rt1 h1 Hc). destruct (route_calls n rt1 c options h1) as [rt_n h_n].
    destruct IH as (Hu & Hm & Hr & Hcall). split_and!; [|done..|].
    + rewrite Hu. cbn [Route_uri rt1]. by rewrite Nat.iter_succ_r.
    + rewrite Hcall. cbn [Route_uri Route_method rt1]. by rewrite <- !Nat.iter_succ_r.
Qed.

Lemma route_accumulates_witness :
  let rt := {| Route_uri := "/names"; Route_method := Some POST |} in
  let h := Host_register "/user" "User" {| engine := create "" None; rootUris := ∅ |} in
  let '(rt_n, h_n) := route_calls 1 rt "User" None h in
  Route_uri rt_n = Nat.iter 1 (String.append "/user") (Route_uri rt) ∧
  Route_method rt_n = Route_method rt ∧
  rootUris h_n = rootUris h ∧
  let uri := Nat.iter 2 (String.append "/user") (Route_uri rt) in
  route_call rt_n (OnClass "User") None h_n =
    ({| Route_uri := uri; Route_method := Route_method rt |},
     (get uri (route_options (Route_method rt) None) (engine h_n)).1,
     {| engine := (get uri (route_options (Route_method rt) None) (engine h_n)).2;
        rootUris := rootUris h |}).
Proof.
  intros rt h. apply (route_accumulates 1 rt "User" "/user" None h). reflexivity.
Defined.

(** The first call asks for [/user/names], the second for
    [/user/user/names], both with method [GET] although the route was
    declared with [POST]. *)
Lemma route_accumulates_example :
  let rt := {| Route_uri := "/names"; Route_method := Some POST |} in
  let h := Host_register "/user" "User" {| engine := create "" None; rootUris := ∅ |} in
  let '(_, h2) := route_calls 2 rt "User" None h in
  (λ f, (fetch_uri f, method (fetch_options f))) <$> fetches (engine h2) =
    [("/user/names", Some GET); ("/user/user/names", Some GET)].
Proof. vm_compute. reflexivity. Qed.



(** ** Failures inside a document *)

Lemma all_link_fails a ps p e w :
  all_link a ps w → p ∈ ps → settled_with w p (inr e) → microtasks w = [] →
  ∃ e', settled_with w a (inr e').
Proof.
  intros [L W] Hin He Hq.
  destruct (settled_or_pending w a (all_bound _ _ _ L)) as [Hp|[[y|e'] Hx]].
  - exfalso. destruct (W Hp) as (slots & Ha & _ & Hw).
    destruct (all_slots _ _ _ L) as (slots' & Ha' & Hlen & Hfilled).
    rewrite Ha in Ha'. injection Ha' as <-.
    apply list_elem_of_lookup_1 in Hin as [i Hi].
    destruct (lookup_lt_is_Some_2 slots i) as [o Ho].
    { rewrite Hlen. by eapply lookup_lt_Some. }
    destruct o as [v|].
    + destruct (Hfilled i v Ho) as (p' & Hp' & Hv). simplify_eq.
      by pose proof (settled_with_inj _ _ _ _ He Hv).
    + destruct (Hw i p Hi Ho) as [(rs & Hrs & _)|(x & _ & Hj)].
      * unfold settled_with in He. rewrite Hrs in He. done.
      * unfold queued in Hj. rewrite Hq in Hj. by apply elem_of_nil in Hj.
  - exfalso. destruct (all_fulfilled _ _ _ L y Hx) as (vs & _ & Hvs).
    apply list_elem_of_lookup_1 in Hin as [i Hi].
    destruct (Forall2_lookup_l _ _ _ _ _ Hvs Hi) as (v & _ & Hv).
    by pose proof (settled_with_inj _ _ _ _ He Hv).
  - by exists e'.
Qed.

Lemma all_link_never a ps p e w :
  all_link a ps w → p ∈ ps → settled_with w p (inr e) → ∀ y, ¬ settled_with w a (inl y).
Proof.
  intros [L _] Hin He y Hx.
  destruct (all_fulfilled _ _ _ L y Hx) as (vs & _ & Hvs).
  apply list_elem_of_lookup_1 in Hin as [i Hi].
  destruct (Forall2_lookup_l _ _ _ _ _ Hvs Hi) as (v & _ & Hv).
  by pose proof (settled_with_inj _ _ _ _ He Hv).
Qed.

Lemma then_link_fails tc p k d e w :
  then_link tc p k d w → settled_with w p (inr e) → microtasks w = [] →
  settled_with w d (inr e).
Proof.
  intros [L W] He Hq.
  destruct (settled_or_pending w d (then_bound _ _ _ _ _ L)) as [Hp|[[y|e'] Hx]].
  - exfalso. destruct (W Hp) as [(rs & Hrs & _)|(x & _ & Hj)].
    + unfold settled_with in He. rewrite Hrs in He. done.
    + unfold queued in Hj. rewrite Hq in Hj. by apply elem_of_nil in Hj.
  - exfalso. destruct (then_fulfilled _ _ _ _ _ L y Hx) as (v & Hv & _).
    by pose proof (settled_with_inj _ _ _ _ He Hv).
  - destruct (then_rejected _ _ _ _ _ L e' Hx) as [Hs|(v & Hs & _)].
    + by pose proof (settled_with_inj _ _ _ _ Hs He) as [= ->].
    + by pose proof (settled_with_inj _ _ _ _ He Hs).
Qed.

Lemma then_link_never tc p k d e w :
  then_link tc p k d w → settled_with w p (inr e) → ∀ y, ¬ settled_with w d (inl y).
Proof.
  intros [L _] He y Hx.
  destruct (then_fulfilled _ _ _ _ _ L y Hx) as (v & Hv & _).
  by pose proof (settled_with_inj _ _ _ _ He Hv).
Qed.

Lemma pair_link_rejected tc h key e err w :
  then_link tc h (KPair key) e w → settled_with w e (inr err) → settled_with w h (inr err).
Proof.
  intros [L _] He. by destruct (then_rejected _ _ _ _ _ L err He) as [Hs|(v & _ & [])].
Qed.

Lemma Forall3_Forall2_lm {A B C} (P : A → B → C → Prop) (Q : A → B → Prop) l k m :
  (∀ x y z, P x y z → Q x y) → Forall3 P l k m → Forall2 Q l k.
Proof. intros HPQ H. induction H; constructor; eauto. Qed.

Lemma Forall3_elem_of_m {A B C} (R : A → B → C → Prop) l k k' y :
  Forall3 R l k k' → y ∈ k → ∃ x z, x ∈ l ∧ z ∈ k' ∧ R x y z.
Proof.
  induction 1 as [|x y' z l k k' HR _ IH]; intros Hy; [by apply elem_of_nil in Hy|].
  apply elem_of_cons in Hy as [->|Hy].
  - exists x, z. split_and!; [apply list_elem_of_here..|done].
  - destruct (IH Hy) as (x' & z' & ? & ? & ?). exists x', z'.
    split_and!; [by apply list_elem_of_further..|done].
Qed.

Section Failures.
Variable tc : string → string.

Lemma array_link_fromPotionJSON w items a w1 :
  wf w → ledger_bound w →
  _fromPotionJSON (JArr items) w = (Return a, w1) →
  ∃ ps w0, traverse _fromPotionJSON items w = (Return ps, w0) ∧
    Forall2 (hydrated w) items ps ∧
    (all_link a ps w1 ∨ (ps = [] ∧ settled_with w1 a (inl (VArr [])))).
Proof.
  intros Hwf Hlb. simpl. unfold bind.
  destruct (traverse _fromPotionJSON items w) as [[ps|e] w0] eqn:Ht; [|done].
  destruct (promise_all_returns ps w0) as [Hpa _].
  destruct (promise_all ps w0) as [o wA] eqn:Hall. simpl in Hpa. subst o.
  intros [= <- <-]. exists ps, w0. split; [done|].
  destruct (traverse_Forall2 _fromPotionJSON (λ w', ext w w' ∧ wf w' ∧ ledger_bound w')
              (λ j p w', p < length (promises w') ∧ hydrated w j p) items)
    with (w := w) (bs := ps) (w' := w0) as ((He0 & Hwf0 & Hlb0) & _ & Hps); [..|done|done|].
  { intros j w' _ (H0 & H1 & H2). split_and!.
    - etrans; [exact H0|]. apply ext_fromPotionJSON.
    - eapply ext_wf; [apply ext_fromPotionJSON|done].
    - by apply ledger_bound_fromPotionJSON. }
  { intros j w' _. apply ext_fromPotionJSON. }
  { intros j w' p w'' _ (H0 & _ & H2) Hj. split; [by eapply fromPotionJSON_bound|].
    by exists w', w''. }
  { intros j p w' w'' [Hp Hh] He. split; [|done]. apply ext_length in He. lia. }
  split.
  { eapply Forall2_impl; [exact Hps|]. by intros j p [_ H]. }
  destruct ps as [|p ps].
  - right. split; [done|]. injection Hall as <-. unfold settled_with.
    cbn [promises set_promises]. by apply list_lookup_middle.
  - left. replace wA with (promise_all (p :: ps) w0).2 by by rewrite Hall.
    apply all_link_promise_all; [done..|].
    apply Forall_forall. intros q Hq.
    apply list_elem_of_lookup_1 in Hq as [i Hi].
    destruct (Forall2_lookup_r _ _ _ _ _ Hps Hi) as (j & _ & Hj & _). done.
Qed.




End Failures.


(** An array of two references of which the second fails: the promise of
    the array is rejected with that failure while the first reference is
    still pending. *)
Lemma array_failure_example :
  let refs := JArr [JObj [("$ref", JStr "/user/1")]; JObj [("$ref", JStr "/user/2")]] in
  let w2 := run toCamelCase [Fail 1 (Failure "down"); Tick; Tick] (_fromPotionJSON refs users).2 in
  (_fromPotionJSON refs users).1 = Return 2 ∧
  promises w2 =
    [Pending [RAllElem 2 0]; Rejected (Failure "down"); Rejected (Failure "down")] ∧
  microtasks w2 = [].
Proof. vm_compute. split_and!; reflexivity. Qed.


(** An entity whose reference fails: its promise is rejected with the
    failure of the transport, nothing is constructed and nothing is
    cached. *)
Lemma entity_failure_example :
  let body := JObj [("$uri", JStr "/user/1");
                    ("best_friend", JObj [("$ref", JStr "/user/2")])] in
  let w2 := run toCamelCase [Fail 0 (Failure "down"); Tick; Tick; Tick; Tick; Tick]
              (_fromPotionJSON body users).2 in
  (_fromPotionJSON body users).1 = Return 4 ∧
  promises w2 !! 4 = Some (Rejected (Failure "down")) ∧
  microtasks w2 = [] ∧ heap w2 = [] ∧ cache w2 = Some ∅.
Proof. vm_compute. split_and!; reflexivity. Qed.


(** ** The promise of a request *)

Lemma answered_app evs l f x : answered evs f x → answered (evs ++ l) f x.
Proof. intros (e & He & Hs). exists e. split; [|done]. apply elem_of_app. by left. Qed.

Lemma continued_app tc k f p w1 evs l json wa :
  continued tc k f p w1 evs json wa → continued tc k f p w1 (evs ++ l) json wa.
Proof.
  intros (evs1 & evs2 & rest & -> & Ha & Hm & Hw).
  exists evs1, (evs2 ++ l), rest. split_and!; [|done..].
  by rewrite <- app_assoc.
Qed.

Lemma followed_app tc k f p w1 evs l q :
  followed tc k f p w1 evs q → followed tc k f p w1 (evs ++ l) q.
Proof.
  intros (Hne & json & wa & Hc & Hr). split; [done|].
  exists json, wa. split; [by apply continued_app|done].
Qed.

Lemma response_core_undisturbed tc k f p w1 evs l S w w' :
  response_core tc k f p w1 evs w → undisturbed p S w w' →
  (∀ x, S f x → answered (evs ++ l) f x) →
  response_core tc k f p w1 (evs ++ l) w'.
Proof.
  intros L U HS. pose proof (response_bound _ _ _ _ _ _ _ L) as Hb. split.
  - pose proof (und_length _ _ _ _ U). lia.
  - intros q r Hr Ht.
    destruct (response_holds _ _ _ _ _ _ _ L q r (und_holds _ _ _ _ U q r Hr Ht) Ht) as [-> Hf].
    split; [done|]. by apply followed_app.
  - intros f' k' Hf. eapply response_awaits; [exact L|]. by eapply und_awaits.
  - intros j Hj Ht.
    destruct (und_queued _ _ _ _ U j Hj Ht)
      as [Hq|[(q & r & x & -> & Hr & Hs)|(f' & k' & x & -> & Hf & HSx)]].
    + destruct (response_queued _ _ _ _ _ _ _ L j Hq Ht)
        as [(x & -> & Ha)|[(q & -> & Hf & Hq')|(q & x & -> & Hf & Hs)]].
      * left. exists x. split; [done|]. by apply answered_app.
      * right. left. exists q. split_and!; [done|by apply followed_app|].
        pose proof (und_length _ _ _ _ U). lia.
      * right. right. exists q, x. split_and!; [done|by apply followed_app|].
        by eapply und_settled.
    + simpl in Ht. destruct (response_holds _ _ _ _ _ _ _ L q r Hr Ht) as [-> Hf].
      right. right. exists q, x. split_and!; [done|by apply followed_app|done].
    + destruct (response_awaits _ _ _ _ _ _ _ L f' k' Hf) as [-> ->].
      left. exists x. split; [done|]. by apply HS.
  - intros x Hx. apply (undisturbed_settled_back _ _ _ _ _ U Hb) in Hx.
    destruct (response_settled _ _ _ _ _ _ _ L x Hx) as [(e & -> & Ha)|(json & wa & Hc & Hm)].
    + left. exists e. split; [done|]. by apply answered_app.
    + right. exists json, wa. split; [by apply continued_app|].
      destruct (run_fcallback k json wa).1 as [[v|q]|e']; [done| |done].
      destruct Hm as [Hne Hs]. split; [done|]. by eapply und_settled.
Qed.

Lemma response_link_undisturbed tc k f p w1 evs l S w w' :
  response_link tc k f p w1 evs w → undisturbed p S w w' →
  (∀ x, S f x → answered (evs ++ l) f x) →
  response_link tc k f p w1 (evs ++ l) w'.
Proof.
  intros [L W] U HS. split; [by eapply response_core_undisturbed|].
  intros Hpend. pose proof (response_bound _ _ _ _ _ _ _ L) as Hb.
  destruct (W (undisturbed_pending_back _ _ _ _ U Hb Hpend))
    as [Ha|[(x & Hq)|(q & Hf & [Hq|[Hh|(x & Hs & Hq)]])]].
  - destruct (und_awaits_fwd _ _ _ _ U _ _ Ha) as [Ha'|(x & Hq & _)]; [by left|].
    right. left. by exists x.
  - right. left. exists x. by eapply und_queued_fwd.
  - right. right. exists q. split; [by apply followed_app|]. left.
    by eapply und_queued_fwd.
  - right. right. exists q. split; [by apply followed_app|].
    destruct (und_holds_fwd _ _ _ _ U _ _ Hh eq_refl) as [Hh'|(x & Hs & Hq)].
    + right. by left.
    + right. right. by exists x.
  - right. right. exists q. split; [by apply followed_app|]. right. right.
    exists x. split; [by eapply und_settled|by eapply und_queued_fwd].
Qed.

Lemma response_core_pop tc k f p w1 evs j rest w :
  response_core tc k f p w1 evs w → microtasks w = j :: rest →
  response_core tc k f p w1 evs (set_microtasks (λ _, rest) w).
Proof.
  intros L Hm. split; try apply L.
  intros j' Hj'. apply (response_queued _ _ _ _ _ _ _ L).
  unfold queued in *. rewrite Hm. by apply list_elem_of_further.
Qed.

Lemma response_link_settle tc k f p w1 evs x w :
  response_core tc k f p w1 evs w →
  ((∃ e, x = inr e ∧ answered evs f (inr e)) ∨
   (∃ json wa, continued tc k f p w1 evs json wa ∧
      match (run_fcallback k json wa).1 with
      | Return (inl v) => x = inl v
      | Return (inr q) => q ≠ p ∧ settled_with w q x
      | Throw e => x = inr e
      end)) →
  response_link tc k f p w1 evs (settle p x w).
Proof.
  intros L Hx.
  assert (∀ y, (∃ e, y = inr e ∧ answered evs f (inr e)) ∨
               (∃ json wa, continued tc k f p w1 evs json wa ∧
                  match (run_fcallback k json wa).1 with
                  | Return (inl v) => y = inl v
                  | Return (inr q) => q ≠ p ∧ settled_with w q y
                  | Throw e => y = inr e
                  end) →
               (∃ e, y = inr e ∧ answered evs f (inr e)) ∨
               (∃ json wa, continued tc k f p w1 evs json wa ∧
                  match (run_fcallback k json wa).1 with
                  | Return (inl v) => y = inl v
                  | Return (inr q) => q ≠ p ∧ settled_with (settle p x w) q y
                  | Throw e => y = inr e
                  end)) as Hmove.
  { intros y [H|(json & wa & Hc & Hm)]; [by left|right]. exists json, wa. split; [done|].
    destruct (run_fcallback k json wa).1 as [[v|q]|e']; [done| |done].
    destruct Hm as [Hne Hs]. split; [done|]. by apply settle_settled_with. }
  split; [split|].
  - rewrite settle_length. apply L.
  - intros q r Hr Ht. eapply response_holds; [exact L| |done]. by eapply settle_holds.
  - intros f' k' Hf. unfold awaits in Hf. rewrite settle_fetches in Hf.
    by eapply response_awaits.
  - intros j Hj Ht. apply settle_queued in Hj as [Hj|(r & -> & Hr & _)].
    + destruct (response_queued _ _ _ _ _ _ _ L j Hj Ht)
        as [(y & -> & Ha)|[(q & -> & Hf & Hq)|(q & y & -> & Hf & Hs)]].
      * left. by exists y.
      * right. left. exists q. split_and!; [done..|]. by rewrite settle_length.
      * right. right. exists q, y. split_and!; [done..|]. by apply settle_settled_with.
    + simpl in Ht. destruct (response_holds _ _ _ _ _ _ _ L p r Hr Ht) as [_ [Hne _]]. done.
  - intros y Hy. apply Hmove. apply settle_target in Hy as [Hy|[_ ->]]; [|done].
    by apply (response_settled _ _ _ _ _ _ _ L).
  - intros Hp. by apply settle_not_pending in Hp.
Qed.

Lemma response_link_follow tc k f p w1 evs q w :
  response_core tc k f p w1 evs w → followed tc k f p w1 evs q →
  q < length (promises w) →
  response_link tc k f p w1 evs (enqueue (JThenable p q) w).
Proof.
  intros L Hf Hq. split; [split|]; try apply L.
  - intros j [Hj|Hj%list_elem_of_singleton]%elem_of_app Ht.
    + by apply (response_queued _ _ _ _ _ _ _ L).
    + right. left. by exists q.
  - intros _. right. right. exists q. split; [done|]. left.
    unfold queued, enqueue. simpl. apply elem_of_app. right. by apply list_elem_of_singleton.
Qed.

Lemma response_link_subscribe tc k f p w1 evs q w :
  response_core tc k f p w1 evs w → followed tc k f p w1 evs q →
  q < length (promises w) →
  response_link tc k f p w1 evs (subscribe q (RAdopt p) w).
Proof.
  intros L Hf Hq. split; [split|].
  - rewrite subscribe_length. apply L.
  - intros q' r Hr Ht. apply subscribe_holds in Hr as [Hr|(-> & -> & _)].
    + by apply (response_holds _ _ _ _ _ _ _ L).
    + done.
  - intros f' k' Ha. unfold awaits in Ha. rewrite subscribe_fetches in Ha.
    by eapply response_awaits.
  - intros j Hj Ht. apply subscribe_queued in Hj as [Hj|(x & -> & Hx)].
    + destruct (response_queued _ _ _ _ _ _ _ L j Hj Ht)
        as [(y & -> & Ha)|[(q' & -> & Hf' & Hq')|(q' & y & -> & Hf' & Hs)]].
      * left. by exists y.
      * right. left. exists q'. split_and!; [done..|]. by rewrite subscribe_length.
      * right. right. exists q', y. split_and!; [done..|]. by apply subscribe_settled_with.
    + right. right. exists q, x. split_and!; [done..|]. by apply subscribe_settled_with.
  - intros x Hx. apply subscribe_settled_back in Hx.
    destruct (response_settled _ _ _ _ _ _ _ L x Hx) as [H|(json & wa & Hc & Hm)]; [by left|].
    right. exists json, wa. split; [done|].
    destruct (run_fcallback k json wa).1 as [[v|q']|e']; [done| |done].
    destruct Hm as [Hne Hs]. split; [done|]. by apply subscribe_settled_with.
  - intros _. right. right. exists q. split; [done|]. right.
    destruct (subscribe_registered q (RAdopt p) w Hq) as [Hh|(x & Hs & Hj)]; [by left|].
    right. exists x. split; [by apply subscribe_settled_with|done].
Qed.

(** *** The ledger does not hold the promise of a request twice *)

Lemma ledger_only_same k p w w' :
  _promises w' = _promises w → length (promises w) ≤ length (promises w') →
  ledger_only k p w → ledger_only k p w'.
Proof. intros Hl Hlen [Hb H]. split; [lia|]. intros u. rewrite Hl. apply H. Qed.

Lemma ledger_only_then k p q k' : preserves (keeps (ledger_only k p)) (then_ q k').
Proof.
  intros w. unfold keeps. apply ledger_only_same.
  - apply same_gets_then.
  - apply (grow_length _ _ _ (proj1 (ext_then q k' w))).
Qed.

Lemma ledger_only_promise_all k p ps : preserves (keeps (ledger_only k p)) (promise_all ps).
Proof.
  intros w. unfold keeps. apply ledger_only_same.
  - apply same_gets_promise_all.
  - apply (grow_length _ _ _ (proj1 (ext_promise_all ps w))).
Qed.

Lemma ledger_only_promise_resolve k p v :
  preserves (keeps (ledger_only k p)) (promise_resolve v).
Proof.
  intros w. unfold keeps. apply ledger_only_same; [done|].
  simpl. rewrite length_app. lia.
Qed.

Lemma ledger_only_get k p u o : preserves (keeps (ledger_only k p)) (get u o).
Proof.
  intros w H. destruct (cache_get u w) as [i|] eqn:Hc.
  - rewrite (get_cached _ _ _ _ Hc). cbn [snd].
    eapply ledger_only_same; [| |exact H]; [done|]. simpl. rewrite length_app. lia.
  - destruct (_promises w !! u) as [q|] eqn:Hl.
    + by rewrite (get_pending _ _ _ _ Hc Hl).
    + rewrite (get_miss _ _ _ Hc Hl). cbn [snd]. destruct H as [Hb H]. split.
      * cbn [_promises promises set_ledger set_fetches set_promises].
        rewrite length_app. lia.
      * intros u'. cbn [_promises promises set_ledger set_fetches set_promises].
        intros Hu'. apply lookup_insert_Some in Hu' as [[_ Hp]|[_ Hu']]; [lia|].
        by apply H.
Qed.

Lemma ledger_only_fromPotionJSON k p j :
  preserves (keeps (ledger_only k p)) (_fromPotionJSON j).
Proof.
  apply preserves_fromPotionJSON; try apply _.
  - apply ledger_only_promise_resolve.
  - apply ledger_only_then.
  - apply ledger_only_promise_all.
  - apply ledger_only_get.
Qed.

Lemma ledger_only_delete k p u w : ledger_only k p w → ledger_only k p (set_ledger (delete u) w).
Proof.
  intros [Hb H]. split; [done|]. intros u' Hu'. simpl in Hu'.
  apply lookup_delete_Some in Hu' as [_ Hu']. by apply H.
Qed.

Section LedgerOnly.
Variable tc : string → string.

Lemma ledger_only_after_callback k p j w :
  ledger_only k p w → ledger_only k p (after_callback tc j w).
Proof.
  intros H. destruct j as [[k' d|a i|d] [v|e]|k' d [json|e]|d q]; simpl; try done.
  - destruct (run_callback_frame tc k' v w) as (Hp & _ & _ & Hl & _).
    eapply ledger_only_same; [exact Hl| |exact H]. by rewrite Hp.
  - by destruct (alls w !! a).
  - destruct k' as [u| |u]; simpl.
    + unfold bind, modify. simpl.
      pose proof (ledger_only_fromPotionJSON k p json (set_ledger (delete u) w)) as Hk.
      destruct (_fromPotionJSON json (set_ledger (delete u) w)) as [[q|e] w']; simpl in *;
        by apply Hk, ledger_only_delete.
    + unfold bind. pose proof (ledger_only_fromPotionJSON k p json w) as Hk.
      destruct (_fromPotionJSON json w) as [[q|e] w']; simpl in *; by apply Hk.
    + unfold bind, modify. simpl. destruct (cache_get u w); exact H.
Qed.

Lemma ledger_only_tick k p w : ledger_only k p w → ledger_only k p (tick tc w).
Proof.
  intros H. unfold tick. destruct (microtasks w) as [|j rest] eqn:Hm; [done|].
  assert (ledger_only k p (set_microtasks (λ _, rest) w)) as H0 by exact H.
  revert H0. generalize (set_microtasks (λ _, rest) w). clear. intros w H.
  rewrite run_job_eq.
  pose proof (ledger_only_after_callback k p j w H) as Hc.
  destruct j as [r x|k' d x|d q].
  - destruct (job_finish tc (JReaction r x) w); [done| |done].
    eapply ledger_only_same; [apply settle_ledger| |exact Hc]. by rewrite settle_length.
  - destruct (job_finish tc (JFetch k' d x) w); [done| |done].
    eapply ledger_only_same; [apply settle_ledger| |exact Hc]. by rewrite settle_length.
  - eapply ledger_only_same; [apply subscribe_ledger| |exact H]. by rewrite subscribe_length.
Qed.

Lemma ledger_only_exec k p e w : ledger_only k p w → ledger_only k p (exec tc e w).
Proof.
  intros H.
  destruct (mutations_keep (ledger_only k p)) with (w := w) as (Hu & Hs & Hd); [|done|].
  { intros w' uri o k' d _. apply ledger_only_same; [done|]. simpl. rewrite length_app. lia. }
  destruct e; simpl.
  - by apply ledger_only_get.
  - apply Hu.
  - apply Hs.
  - apply Hd.
  - by apply ledger_only_fromPotionJSON.
  - exact H.
  - eapply ledger_only_same; [apply settle_fetch_ledger| |exact H].
    by rewrite settle_fetch_promises.
  - eapply ledger_only_same; [apply settle_fetch_ledger| |exact H].
    by rewrite settle_fetch_promises.
  - by apply ledger_only_tick.
  - exact H.
  - exact H.
Qed.

Lemma ledger_only_run k p evs w : ledger_only k p w → ledger_only k p (run tc evs w).
Proof.
  revert w. induction evs as [|e evs IH]; intros w H; [done|].
  apply IH. by apply ledger_only_exec.
Qed.

Lemma ledger_bound_run evs w : ledger_bound w → ledger_bound (run tc evs w).
Proof.
  revert w. induction evs as [|e evs IH]; intros w H; [done|].
  apply IH. by apply ledger_bound_exec.
Qed.

End LedgerOnly.

(** *** The hydrator returns a new promise or one of the ledger *)

Lemma lower_bind {A} n (c : M A) (k : A → M nat) :
  preserves ext c → (∀ a, lower n (k a)) → lower n (bind c k).
Proof.
  intros Hc Hk w q w' Hn. unfold bind. pose proof (Hc w) as He.
  destruct (c w) as [[a|e] wa]; [|done]. apply Hk.
  apply ext_length in He. simpl in He. lia.
Qed.

Lemma lower_then n p k : lower n (then_ p k).
Proof.
  intros w q w' Hn H. destruct (then_returns p k w) as [H1 _].
  rewrite H in H1. simpl in H1. injection H1 as ->. done.
Qed.

Lemma lower_promise_all n ps : lower n (promise_all ps).
Proof.
  intros w q w' Hn H. destruct (promise_all_returns ps w) as [H1 _].
  rewrite H in H1. simpl in H1. injection H1 as ->. done.
Qed.

Lemma lower_promise_resolve n v : lower n (promise_resolve v).
Proof. intros w q w' Hn [= <- <-]. done. Qed.

Lemma ext_traverse_fromPotionJSON items : preserves ext (traverse _fromPotionJSON items).
Proof.
  apply preserves_traverse; try apply _.
  apply Forall_forall. intros j _. apply ext_fromPotionJSON.
Qed.

Lemma fromPotionJSON_new j w q w' :
  _fromPotionJSON j w = (Return q, w') →
  length (promises w) ≤ q ∨ ∃ u, _promises w !! u = Some q.
Proof.
  set (n := length (promises w)).
  assert (∀ c : M nat, lower n c → c w = (Return q, w') →
            n ≤ q ∨ ∃ u, _promises w !! u = Some q) as Hlow.
  { intros c Hc H. left. eapply Hc; [|exact H]. unfold n. lia. }
  assert (∀ f : string * json → M nat, (∀ kv, preserves ext (f kv)) →
            ∀ props, preserves ext (traverse f props)) as Htr.
  { intros f Hf props. apply preserves_traverse; try apply _.
    apply Forall_forall. intros kv _. apply Hf. }
  destruct j as [|b|s|s|items|props]; try (apply Hlow, lower_promise_resolve).
  - apply Hlow. simpl. apply lower_bind; [apply ext_traverse_fromPotionJSON|].
    intros ps. apply lower_promise_all.
  - assert (lower n
      (ps ←M traverse (λ '(key, v), h ←M _fromPotionJSON v; then_ h (KPair key)) props;
       a ←M promise_all ps; then_ a KObject)) as Hplain.
    { apply lower_bind.
      - apply Htr. intros [key v]. apply preserves_bind; try apply _.
        + apply ext_fromPotionJSON.
        + intros h. apply ext_then.
      - intros ps. apply lower_bind; [apply ext_promise_all|]. intros a. apply lower_then. }
    assert (∀ ref, (r ←M parseURI_M ref; get (uri r) no_options) w = (Return q, w') →
              n ≤ q ∨ ∃ u, _promises w !! u = Some q) as Href.
    { intros ref. unfold bind, parseURI_M. destruct (parseURI w ref) as [r|e]; [|done].
      destruct (cache_get (uri r) w) as [i|] eqn:Hc.
      - rewrite (get_cached _ _ _ _ Hc). intros [= <- <-]. by left.
      - destruct (_promises w !! uri r) as [q'|] eqn:Hl.
        + rewrite (get_pending _ _ _ _ Hc Hl). intros [= <- <-]. right. by exists (uri r).
        + rewrite (get_miss _ _ _ Hc Hl). intros [= <- <-]. by left. }
    simpl. destruct (JsObject.get "$uri" props) as [[| | |raw| |]|];
      try (destruct (length props =? 1); [|apply Hlow, Hplain];
           destruct (JsObject.get "$ref" props) as [[| | |ref| |]|];
           try (destruct (JsObject.get "$date" props);
                [apply Hlow, lower_promise_resolve | apply Hlow, Hplain]);
           apply Href).
    apply Hlow. apply lower_bind; [apply preserves_parseURI_M; apply _|]. intros r.
    apply lower_bind.
    + apply Htr. intros [key v]. destruct (String.eqb key "$uri").
      * apply ext_promise_resolve.
      * apply preserves_bind; try apply _; [apply ext_fromPotionJSON|].
        intros h. apply ext_then.
    + intros ps. apply lower_bind; [apply ext_promise_all|]. intros a. apply lower_then.
Qed.

Lemma run_fcallback_returns k json w q wc p :
  ledger_bound w → ledger_only k p w →
  run_fcallback k json w = (Return (inr q), wc) →
  q ≠ p ∧ q < length (promises wc).
Proof.
  intros Hlb [Hb Hl]. destruct k as [u| |u]; simpl.
  - unfold bind, modify, ret. cbn [fst snd].
    destruct (_fromPotionJSON json (set_ledger (delete u) w)) as [[q'|e] w'] eqn:Hh; [|done].
    intros [= -> ->]. split.
    + intros ->. apply fromPotionJSON_new in Hh as [Hn|[u' Hu']].
      * simpl in Hn. lia.
      * simpl in Hu'. apply lookup_delete_Some in Hu' as [Hne Hu'].
        apply Hl in Hu'. congruence.
    + eapply fromPotionJSON_bound; [|exact Hh]. intros u' p' Hu'. simpl in Hu'.
      apply lookup_delete_Some in Hu' as [_ Hu']. by apply (Hlb u' p').
  - unfold bind, ret.
    destruct (_fromPotionJSON json w) as [[q'|e] w'] eqn:Hh; [|done].
    intros [= -> ->]. split.
    + intros ->. apply fromPotionJSON_new in Hh as [Hn|[u' Hu']]; [lia|].
      apply Hl in Hu'. done.
    + by eapply fromPotionJSON_bound.
  - unfold bind, modify, ret. cbn [fst snd]. done.
Qed.

Lemma response_core_moved tc k f p w1 evs w w' :
  response_core tc k f p w1 evs w → undisturbed p (λ _ _, False) w w' →
  response_core tc k f p w1 evs w'.
Proof.
  intros L U. rewrite <- (app_nil_r evs).
  by eapply (response_core_undisturbed _ _ _ _ _ _ _ (λ _ _, False)).
Qed.

Lemma run_fcallback_undisturbed k json p w :
  p < length (promises w) → undisturbed p (λ _ _, False) w (run_fcallback k json w).2.
Proof.
  intros Hp. eapply undisturbed_grow; [apply run_fcallback_grow|done| |].
  - by apply run_fcallback_framed.
  - exists []. rewrite app_nil_r. apply run_fcallback_framed.
Qed.

(** The request as it is made: a new promise, and a new transport call
    with the continuation registered on it. *)
Lemma response_link_sent tc k w w1 W fs :
  wf w →
  promises W = promises w ++ [Pending []] →
  fetches W = fetches w ++ [{| fetch_uri := fs.1; fetch_options := fs.2;
                               fetch_state := FPending [(k, length (promises w))] |}] →
  microtasks W = microtasks w →
  response_link tc k (length (fetches w)) (length (promises w)) w1 [] W.
Proof.
  intros [H1 H2 H3] Hp Hf Hm. split; [split|].
  - rewrite Hp, length_app. simpl. lia.
  - intros q r (rs & Hq & Hr) Ht. rewrite Hp in Hq.
    apply lookup_app_Some in Hq as [Hq|[_ Hq]].
    + assert (holds w q r) as Hh by (by exists rs). apply H1 in Hh. lia.
    + apply list_lookup_singleton_Some in Hq as [_ [= <-]]. by apply elem_of_nil in Hr.
  - intros f' k' (x & rs & Hx & Hs & Hk). rewrite Hf in Hx.
    apply lookup_app_Some in Hx as [Hx|[Hlen Hx]].
    + assert (awaits w f' k' (length (promises w))) as Ha by (by exists x, rs).
      apply H2 in Ha. lia.
    + apply list_lookup_singleton_Some in Hx as [Hx <-]. simpl in Hs. simplify_eq.
      apply list_elem_of_singleton in Hk. simplify_eq. split; [lia|done].
  - intros j Hj Ht. unfold queued in Hj. rewrite Hm in Hj. apply H3 in Hj. lia.
  - intros x Hx. unfold settled_with in Hx. rewrite Hp in Hx.
    rewrite list_lookup_middle in Hx by done. by destruct x.
  - intros _. left. eexists _, _. rewrite Hf. split_and!.
    + by apply list_lookup_middle.
    + done.
    + by apply list_elem_of_singleton.
Qed.

Section Responses.
Variable tc : string → string.

Lemma response_link_run_job k f p w1 evs j rest :
  ledger_only k p (run tc evs w1) → ledger_bound (run tc evs w1) →
  response_link tc k f p w1 evs (run tc evs w1) →
  microtasks (run tc evs w1) = j :: rest → job_target j = p →
  response_link tc k f p w1 (evs ++ [Tick])
    (run_job tc j (set_microtasks (λ _, rest) (run tc evs w1))).
Proof.
  intros HL Hlb [L _] Hm Ht.
  set (w := run tc evs w1) in *.
  set (w0 := set_microtasks (λ _, rest) w).
  assert (response_core tc k f p w1 (evs ++ [Tick]) w0) as L0.
  { eapply (response_core_undisturbed _ _ _ _ _ _ _ (λ _ _, False));
      [by eapply response_core_pop|apply undisturbed_refl|done]. }
  assert (ledger_only k p w0) as HL0 by exact HL.
  assert (ledger_bound w0) as Hlb0 by exact Hlb.
  destruct (response_queued _ _ _ _ _ _ _ L j)
    as [(x & -> & Ha)|[(q & -> & Hf & Hq)|(q & x & -> & Hf & Hs)]]; [|done|..].
  { unfold queued. rewrite Hm. apply list_elem_of_here. }
  - destruct x as [json|e]; cbn [run_job].
    + assert (continued tc k f p w1 (evs ++ [Tick]) json w0) as Hc.
      { by exists evs, [], rest. }
      pose proof (run_fcallback_undisturbed k json p w0 (response_bound _ _ _ _ _ _ _ L0)) as U.
      pose proof (response_core_moved _ _ _ _ _ _ _ _ L0 U) as Lc.
      pose proof (run_fcallback_returns k json w0) as Hret.
      destruct (run_fcallback k json w0) as [[[v|q]|e] wc] eqn:Hcb;
        cbn [fst snd resolve_with] in *.
      * apply response_link_settle; [done|]. right. exists json, w0. by rewrite Hcb.
      * destruct (Hret q wc p Hlb0 HL0 eq_refl) as [Hne Hq]. rewrite decide_False by done.
        apply response_link_follow; [done| |done]. split; [done|].
        exists json, w0. by rewrite Hcb.
      * apply response_link_settle; [done|]. right. exists json, w0. by rewrite Hcb.
    + apply response_link_settle; [done|]. left. exists e. split; [done|].
      by apply answered_app.
  - cbn [run_job]. apply response_link_subscribe; [done|by apply followed_app|done].
  - cbn [run_job]. apply response_link_settle; [done|]. right.
    destruct Hf as (Hne & json & wa & Hc & Hr). exists json, wa.
    split; [by apply continued_app|]. by rewrite Hr.
Qed.

Lemma response_link_exec k f p w1 evs e :
  ledger_only k p (run tc evs w1) → ledger_bound (run tc evs w1) →
  response_link tc k f p w1 evs (run tc evs w1) →
  response_link tc k f p w1 (evs ++ [e]) (run tc (evs ++ [e]) w1).
Proof.
  intros HL Hlb L. rewrite run_snoc. set (w := run tc evs w1) in *.
  pose proof (response_bound _ _ _ _ _ _ _ (proj1 L)) as Hb.
  assert ((∀ j rest, e = Tick → microtasks w = j :: rest → job_target j ≠ p) →
          response_link tc k f p w1 (evs ++ [e]) (exec tc e w)) as HU.
  { intros Hhead. eapply response_link_undisturbed; [exact L|by apply exec_undisturbed|].
    intros x Hx. exists e. split; [|done]. apply elem_of_app. right.
    by apply list_elem_of_singleton. }
  assert (e = Tick ∨ e ≠ Tick) as [->|Hne] by (destruct e; (by left) || (by right)).
  - destruct (microtasks w) as [|j rest] eqn:Hm.
    + apply HU. intros j rest _ Hm'. congruence.
    + destruct (decide (job_target j = p)) as [Ht|Ht].
      * simpl. rewrite (tick_cons _ _ _ _ Hm). by apply response_link_run_job.
      * apply HU. intros j' rest' _ Hm'. congruence.
  - apply HU. intros j rest He. done.
Qed.

Lemma response_link_run k f p w1 evs :
  ledger_only k p w1 → ledger_bound w1 → response_link tc k f p w1 [] w1 →
  response_link tc k f p w1 evs (run tc evs w1).
Proof.
  intros HL Hlb L. induction evs as [|e evs IH] using rev_ind; [done|].
  apply response_link_exec; [by apply ledger_only_run|by apply ledger_bound_run|done].
Qed.

End Responses.

Lemma answered_respond evs f json : answered evs f (inl json) → Respond f json ∈ evs.
Proof.
  intros (e & He & Hs). destruct e; simpl in Hs; try done.
  - by destruct Hs as [-> [= ->]].
  - by destruct Hs as [_ [=]].
Qed.

Lemma answered_fail evs f err : answered evs f (inr err) → Fail f err ∈ evs.
Proof.
  intros (e & He & Hs). destruct e; simpl in Hs; try done.
  - by destruct Hs as [_ [=]].
  - by destruct Hs as [-> [= ->]].
Qed.

Section Settlement.
Variable tc : string → string.

(** X21: what the promise of a [get()] that made a transport call is
    settled with, whatever happens in between: the failure of the
    transport; or, the continuation having run on the document of the
    response when its job was the first of the queue, the error that the
    hydrator threw on the document in the world of that moment, the
    ledger entry removed, or else the settlement of the promise that the
    hydrator returned -- which is another promise.  With an empty queue
    the promise is pending only while the transport call is, or while the
    promise that the hydrator returned is. *)
Theorem get_settles_as_hydration (w : World) (u : string) (o : PotionRequestOptions)
    (evs : list event) :
  reachable tc w →
  cache_get u w = None → _promises w !! u = None →
  let p := length (promises w) in
  let f := length (fetches w) in
  let w1 := (get u o w).2 in
  let w2 := run tc evs w1 in
  let hydration json evs1 rest :=
    _fromPotionJSON json
      (set_ledger (delete u) (set_microtasks (λ _, rest) (run tc evs1 w1))) in
  let continuation json evs1 rest :=
    (∃ evs2, evs = evs1 ++ Tick :: evs2) ∧ Respond f json ∈ evs1 ∧
    microtasks (run tc evs1 w1) = JFetch (KGetThen u) p (inl json) :: rest in
  (∀ x, settled_with w2 p x →
     (∃ e, x = inr e ∧ Fail f e ∈ evs) ∨
     (∃ json evs1 rest, continuation json evs1 rest ∧
        match hydration json evs1 rest with
        | (Return q, _) => q ≠ p ∧ settled_with w2 q x
        | (Throw e, _) => x = inr e
        end)) ∧
  (is_pending w2 p → microtasks w2 = [] →
     awaits w2 f (KGetThen u) p ∨
     (∃ q json evs1 rest, continuation json evs1 rest ∧
        (hydration json evs1 rest).1 = Return q ∧ q ≠ p ∧ is_pending w2 q)).
Proof.
  intros Hreach Hc Hl p f w1 w2 hydration continuation.
  pose proof (reachable_wf tc w Hreach) as Hwf.
  pose proof (reachable_ledger_bound tc w Hreach) as Hlb.
  assert (response_link tc (KGetThen u) f p w1 evs w2) as [L W].
  { apply response_link_run.
    - subst w1. rewrite (get_miss _ _ _ Hc Hl). cbn [snd]. split.
      + cbn [promises set_ledger set_fetches set_promises]. rewrite length_app. simpl. lia.
      + intros u'. cbn [_promises set_ledger set_fetches set_promises]. intros Hu'.
        apply lookup_insert_Some in Hu' as [[-> _]|[_ Hu']]; [done|].
        apply Hlb in Hu'. unfold p in Hu'. lia.
    - subst w1. by apply ledger_bound_get.
    - subst w1. rewrite (get_miss _ _ _ Hc Hl). cbn [snd].
      by apply (response_link_sent tc (KGetThen u) w _ _ (prefixed w u, with_method GET o)). }
  assert (∀ json wa, continued tc (KGetThen u) f p w1 evs json wa →
            ∃ evs1 rest, continuation json evs1 rest ∧
              (run_fcallback (KGetThen u) json wa).1 =
              match hydration json evs1 rest with
              | (Return q, _) => Return (inr q)
              | (Throw e, _) => Throw e
              end) as Hcont.
  { intros json wa (evs1 & evs2 & rest & He & Ha & Hm & ->). exists evs1, rest. split.
    - split_and!; [by exists evs2|by apply answered_respond|done].
    - unfold hydration. simpl. unfold bind, modify, ret. cbn [fst snd].
      by destruct (_fromPotionJSON json _) as [[q|e] wb]. }
  split.
  - intros x Hx.
    destruct (response_settled _ _ _ _ _ _ _ L x Hx) as [(e & -> & Ha)|(json & wa & Hk & Hm)].
    + left. exists e. split; [done|]. by apply answered_fail.
    + right. destruct (Hcont json wa Hk) as (evs1 & rest & Hk' & Hr).
      exists json, evs1, rest. split; [done|]. rewrite Hr in Hm.
      by destruct (hydration json evs1 rest) as [[q|e] wb].
  - intros Hp Hq.
    assert (∀ j, ¬ queued w2 j) as Hempty.
    { intros j Hj. unfold queued in Hj. rewrite Hq in Hj. by apply elem_of_nil in Hj. }
    destruct (W Hp) as [Ha|[(x & Hj)|(q & Hf & [Hj|[Hh|(x & _ & Hj)]])]];
      [by left|by destruct (Hempty _ Hj)..| |by destruct (Hempty _ Hj)].
    right. destruct Hf as (Hne & json & wa & Hk & Hr).
    destruct (Hcont json wa Hk) as (evs1 & rest & Hk' & Hr').
    exists q, json, evs1, rest. split; [done|]. rewrite Hr in Hr'.
    destruct Hh as (rs & Hrs & _). split_and!; [|done|by exists rs].
    destruct (hydration json evs1 rest) as [[q'|e] wb]; simpl; congruence.
Qed.

(** X22: the promise of [update] and of [save] is settled in the same
    way, by the hydration of the document of the response; nothing is
    removed from the ledger before. *)
Theorem mutation_settles_as_hydration (w : World) (item : Item) (rootUri : string)
    (data : option json) (w1 : World) (evs : list event) :
  reachable tc w →
  let p := length (promises w) in
  let f := length (fetches w) in
  update item data w = (Return p, w1) ∨ save rootUri data w = (Return p, w1) →
  let w2 := run tc evs w1 in
  let hydration json evs1 rest :=
    _fromPotionJSON json (set_microtasks (λ _, rest) (run tc evs1 w1)) in
  let continuation json evs1 rest :=
    (∃ evs2, evs = evs1 ++ Tick :: evs2) ∧ Respond f json ∈ evs1 ∧
    microtasks (run tc evs1 w1) = JFetch KHydrate p (inl json) :: rest in
  (∀ x, settled_with w2 p x →
     (∃ e, x = inr e ∧ Fail f e ∈ evs) ∨
     (∃ json evs1 rest, continuation json evs1 rest ∧
        match hydration json evs1 rest with
        | (Return q, _) => q ≠ p ∧ settled_with w2 q x
        | (Throw e, _) => x = inr e
        end)) ∧
  (is_pending w2 p → microtasks w2 = [] →
     awaits w2 f KHydrate p ∨
     (∃ q json evs1 rest, continuation json evs1 rest ∧
        (hydration json evs1 rest).1 = Return q ∧ q ≠ p ∧ is_pending w2 q)).
Proof.
  intros Hreach p f Hcall w2 hydration continuation.
  pose proof (reachable_wf tc w Hreach) as Hwf.
  pose proof (reachable_ledger_bound tc w Hreach) as Hlb.
  assert (∃ target m,
            w1 = set_fetches
                   (λ fs, fs ++ [{| fetch_uri := prefixed w target;
                                    fetch_options :=
                                      {| method := Some m; cache_option := None;
                                         data := Some (default (JObj []) data) |};
                                    fetch_state := FPending [(KHydrate, p)] |}])
                   (set_promises (λ ps, ps ++ [Pending []]) w)) as (target & m & Hw1).
  { destruct Hcall as [Hcall|Hcall].
    - destruct (Item_uri item) as [uri|] eqn:Huri.
      + rewrite (update_eq _ _ _ _ Huri) in Hcall. injection Hcall as <-. by exists uri, PUT.
      + unfold update in Hcall. by rewrite (mutation_throws _ _ _ Huri) in Hcall.
    - rewrite save_eq in Hcall. injection Hcall as <-. by exists rootUri, POST. }
  assert (response_link tc KHydrate f p w1 evs w2) as [L W].
  { apply response_link_run.
    - subst w1. split.
      + cbn [promises set_fetches set_promises]. rewrite length_app. simpl. lia.
      + intros u'. cbn [_promises set_fetches set_promises]. intros Hu'.
        apply Hlb in Hu'. unfold p in Hu'. lia.
    - subst w1. by apply ledger_bound_new_fetch.
    - subst w1.
      by apply (response_link_sent tc KHydrate w _ _
                  (prefixed w target, {| method := Some m; cache_option := None;
                                         data := Some (default (JObj []) data) |})). }
  assert (∀ json wa, continued tc KHydrate f p w1 evs json wa →
            ∃ evs1 rest, continuation json evs1 rest ∧
              (run_fcallback KHydrate json wa).1 =
              match hydration json evs1 rest with
              | (Return q, _) => Return (inr q)
              | (Throw e, _) => Throw e
              end) as Hcont.
  { intros json wa (evs1 & evs2 & rest & He & Ha & Hm & ->). exists evs1, rest. split.
    - split_and!; [by exists evs2|by apply answered_respond|done].
    - unfold hydration. simpl. unfold bind, ret.
      by destruct (_fromPotionJSON json _) as [[q|e] wb]. }
  split.
  - intros x Hx.
    destruct (response_settled _ _ _ _ _ _ _ L x Hx) as [(e & -> & Ha)|(json & wa & Hk & Hm)].
    + left. exists e. split; [done|]. by apply answered_fail.
    + right. destruct (Hcont json wa Hk) as (evs1 & rest & Hk' & Hr).
      exists json, evs1, rest. split; [done|]. rewrite Hr in Hm.
      by destruct (hydration json evs1 rest) as [[q|e] wb].
  - intros Hp Hq.
    assert (∀ j, ¬ queued w2 j) as Hempty.
    { intros j Hj. unfold queued in Hj. rewrite Hq in Hj. by apply elem_of_nil in Hj. }
    destruct (W Hp) as [Ha|[(x & Hj)|(q & Hf & [Hj|[Hh|(x & _ & Hj)]])]];
      [by left|by destruct (Hempty _ Hj)..| |by destruct (Hempty _ Hj)].
    right. destruct Hf as (Hne & json & wa & Hk & Hr).
    destruct (Hcont json wa Hk) as (evs1 & rest & Hk' & Hr').
    exists q, json, evs1, rest. split; [done|]. rewrite Hr in Hr'.
    destruct Hh as (rs & Hrs & _). split_and!; [|done|by exists rs].
    destruct (hydration json evs1 rest) as [[q'|e] wb]; simpl; congruence.
Qed.

End Settlement.

Lemma get_settles_as_hydration_witness :
  let u := "/user/1" in
  let body := JObj [("$uri", JStr "/user/1"); ("first_name", JStr "Ann")] in
  let evs := [Respond 0 body; Tick; Tick; Tick; Tick; Tick; Tick; Tick] in
  let p := length (promises users) in
  let f := length (fetches users) in
  let w1 := (get u no_options users).2 in
  let w2 := run toCamelCase evs w1 in
  let hydration json evs1 rest :=
    _fromPotionJSON json
      (set_ledger (delete u) (set_microtasks (λ _, rest) (run toCamelCase evs1 w1))) in
  let continuation json evs1 rest :=
    (∃ evs2, evs = evs1 ++ Tick :: evs2) ∧ Respond f json ∈ evs1 ∧
    microtasks (run toCamelCase evs1 w1) = JFetch (KGetThen u) p (inl json) :: rest in
  (∀ x, settled_with w2 p x →
     (∃ e, x = inr e ∧ Fail f e ∈ evs) ∨
     (∃ json evs1 rest, continuation json evs1 rest ∧
        match hydration json evs1 rest with
        | (Return q, _) => q ≠ p ∧ settled_with w2 q x
        | (Throw e, _) => x = inr e
        end)) ∧
  (is_pending w2 p → microtasks w2 = [] →
     awaits w2 f (KGetThen u) p ∨
     (∃ q json evs1 rest, continuation json evs1 rest ∧
        (hydration json evs1 rest).1 = Return q ∧ q ≠ p ∧ is_pending w2 q)).
Proof.
  intros u body evs.
  apply (get_settles_as_hydration toCamelCase users u no_options evs reachable_users);
    vm_compute; reflexivity.
Defined.

(** A [get()] answered with the body of an entity: the continuation runs
    at the first tick, the hydrator returns promise 5, and the promise of
    the [get()] is fulfilled with the instance that promise 5 is
    fulfilled with. *)
Lemma get_settles_as_hydration_example :
  let body := JObj [("$uri", JStr "/user/1"); ("first_name", JStr "Ann")] in
  let w1 := (get "/user/1" no_options users).2 in
  let w2 := run toCamelCase [Respond 0 body] w1 in
  let w3 := drain toCamelCase 9 w2 in
  microtasks w2 = [JFetch (KGetThen "/user/1") 0 (inl body)] ∧
  (_fromPotionJSON body (set_ledger (delete "/user/1") (set_microtasks (λ _, []) w2))).1
    = Return 5 ∧
  promises w3 !! 5 = Some (Fulfilled (VInst 0)) ∧
  promises w3 !! 0 = Some (Fulfilled (VInst 0)) ∧
  microtasks w3 = [].
Proof. vm_compute. split_and!; reflexivity. Qed.

Lemma mutation_settles_as_hydration_witness :
  let body := JObj [("$uri", JStr "/user/1"); ("first_name", JStr "Ann")] in
  let data := Some (JObj [("first_name", JStr "Ann")]) in
  let evs := [Respond 0 body; Tick; Tick; Tick; Tick; Tick; Tick; Tick] in
  let p := length (promises users) in
  let f := length (fetches users) in
  let w1 := (update ann data users).2 in
  let w2 := run toCamelCase evs w1 in
  let hydration json evs1 rest :=
    _fromPotionJSON json (set_microtasks (λ _, rest) (run toCamelCase evs1 w1)) in
  let continuation json evs1 rest :=
    (∃ evs2, evs = evs1 ++ Tick :: evs2) ∧ Respond f json ∈ evs1 ∧
    microtasks (run toCamelCase evs1 w1) = JFetch KHydrate p (inl json) :: rest in
  (∀ x, settled_with w2 p x →
     (∃ e, x = inr e ∧ Fail f e ∈ evs) ∨
     (∃ json evs1 rest, continuation json evs1 rest ∧
        match hydration json evs1 rest with
        | (Return q, _) => q ≠ p ∧ settled_with w2 q x
        | (Throw e, _) => x = inr e
        end)) ∧
  (is_pending w2 p → microtasks w2 = [] →
     awaits w2 f KHydrate p ∨
     (∃ q json evs1 rest, continuation json evs1 rest ∧
        (hydration json evs1 rest).1 = Return q ∧ q ≠ p ∧ is_pending w2 q)).
Proof.
  intros body data evs.
  apply (mutation_settles_as_hydration toCamelCase users ann "" data
           (update ann data users).2 evs reachable_users).
  left. vm_compute. reflexivity.
Defined.

Section Removal.
Variable tc : string → string.

(** X23: once the continuation of a [get()] has run on the response,
    the ledger never holds the promise of that [get()] again, whatever
    the hydration of the response does -- also when it throws or its
    promise is rejected: a later [get()] of the same uri never returns
    that promise. *)
Theorem processed_response_leaves_ledger (w : World) (u : string)
    (o : PotionRequestOptions) (evs1 evs2 : list event) (json : json) (rest : list job) :
  reachable tc w →
  cache_get u w = None → _promises w !! u = None →
  let p := length (promises w) in
  let w1 := (get u o w).2 in
  microtasks (run tc evs1 w1) = JFetch (KGetThen u) p (inl json) :: rest →
  let w2 := run tc (evs1 ++ Tick :: evs2) w1 in
  (∀ u', _promises w2 !! u' ≠ Some p) ∧
  (∀ u' o', (get u' o' w2).1 ≠ Return p).
Proof.
  intros Hreach Hc Hl p w1 Hm w2.
  pose proof (reachable_ledger_bound tc w Hreach) as Hlb.
  assert (ledger_only (KGetThen u) p w1) as HL.
  { subst w1. rewrite (get_miss _ _ _ Hc Hl). cbn [snd]. split.
    - cbn [promises set_ledger set_fetches set_promises]. rewrite length_app. simpl. lia.
    - intros u'. cbn [_promises set_ledger set_fetches set_promises]. intros Hu'.
      apply lookup_insert_Some in Hu' as [[-> _]|[_ Hu']]; [done|].
      apply Hlb in Hu'. unfold p in Hu'. lia. }
  apply (ledger_only_run tc _ _ evs1) in HL.
  assert (ledger_only KHydrate p w2) as [Hb Hnone].
  { subst w2. rewrite run_app. simpl. apply ledger_only_run.
    rewrite (tick_cons _ _ _ _ Hm).
    set (w0 := set_microtasks (λ _, rest) (run tc evs1 w1)).
    assert (ledger_only KHydrate p (set_ledger (delete u) w0)) as H0.
    { destruct HL as [Hb HL]. split; [done|]. intros u' Hu'. simpl in Hu'.
      apply lookup_delete_Some in Hu' as [Hne Hu']. apply HL in Hu'. congruence. }
    apply (ledger_only_fromPotionJSON KHydrate p json) in H0.
    cbn [run_job run_fcallback]. unfold bind, modify, ret. cbn [fst snd].
    destruct (_fromPotionJSON json (set_ledger (delete u) w0)) as [[q|e] wc];
      cbn [snd resolve_with] in *.
    - case_decide.
      + eapply ledger_only_same; [apply settle_ledger| |exact H0]. by rewrite settle_length.
      + exact H0.
    - eapply ledger_only_same; [apply settle_ledger| |exact H0]. by rewrite settle_length. }
  split.
  - intros u' Hu'. by apply Hnone in Hu'.
  - intros u' o'. destruct (cache_get u' w2) as [i|] eqn:Hc2.
    + rewrite (get_cached _ _ _ _ Hc2). simpl. intros [= H]. lia.
    + destruct (_promises w2 !! u') as [q|] eqn:Hl2.
      * rewrite (get_pending _ _ _ _ Hc2 Hl2). simpl. intros [= ->]. by apply Hnone in Hl2.
      * rewrite (get_miss _ _ _ Hc2 Hl2). simpl. intros [= H]. lia.
Qed.

End Removal.

Lemma processed_response_leaves_ledger_witness :
  let u := "/user/1" in
  let json := JObj [("$uri", JStr "/ghost/1")] in
  let evs1 := [Respond 0 json] in
  let evs2 := [Tick; Tick] in
  let p := length (promises users) in
  let w2 := run toCamelCase (evs1 ++ Tick :: evs2) (get u no_options users).2 in
  (∀ u', _promises w2 !! u' ≠ Some p) ∧
  (∀ u' o', (get u' o' w2).1 ≠ Return p).
Proof.
  intros u json evs1 evs2.
  apply (processed_response_leaves_ledger toCamelCase users u no_options evs1 evs2 json []
           reachable_users); vm_compute; reflexivity.
Defined.

(** A response that the hydrator rejects: the promise of the [get()] is
    rejected and the ledger is empty, so the next [get()] of the uri
    makes a new transport call -- unlike after a failure of the
    transport. *)
Lemma processed_response_leaves_ledger_example :
  let w2 := run toCamelCase [Respond 0 (JObj [("$uri", JStr "/ghost/1")]); Tick]
              (get "/user/1" no_options users).2 in
  promises w2 !! 0 =
    Some (Rejected (Error "Uninterpretable or unknown resource URI: /ghost/1")) ∧
  _promises w2 = ∅ ∧
  (get "/user/1" no_options w2).1 = Return 1 ∧
  length (fetches (get "/user/1" no_options w2).2) = 2.
Proof. vm_compute. split_and!; reflexivity. Qed.

(** ** References are requested *)

Lemma ledgered_ext w0 refs w w' : ext w w' → ledgered w0 refs w → ledgered w0 refs w'.
Proof.
  intros [_ F] H ref r Hin Hr Hc. destruct (H ref r Hin Hr Hc) as [p Hp].
  exists p. by apply F.
Qed.

Lemma ledgered_nil w0 w : ledgered w0 [] w.
Proof. intros ref r Hin. by apply elem_of_nil in Hin. Qed.

Lemma ledgered_bind {A} w0 (l : list A) (g : A → list string) (bs : list nat) w :
  Forall2 (λ x (_ : nat), ledgered w0 (g x) w) l bs → ledgered w0 (l ≫= g) w.
Proof.
  intros HF ref r Hin. apply list_elem_of_bind in Hin as (x & Hin & Hx).
  apply list_elem_of_lookup_1 in Hx as [i Hi].
  destruct (Forall2_lookup_l _ _ _ _ _ HF Hi) as (b & _ & H). by apply H.
Qed.

Lemma fromPotionJSON_ledgered j :
  ∀ w0 w d w1, ext w0 w → _fromPotionJSON j w = (Return d, w1) →
               ledgered w0 (references j) w1.
Proof.
  induction j as [| | | |items IH|props IH] using json_ind'; intros w0 w d w1 He;
    try (intros _; apply ledgered_nil).
  - simpl. unfold bind.
    destruct (traverse _fromPotionJSON items w) as [[ps|e] wa] eqn:Ht; [|done].
    intros Hall.
    destruct (traverse_Forall2 _fromPotionJSON (λ w', ext w0 w')
                (λ j (_ : nat) w', ledgered w0 (references j) w') items)
      with (w := w) (bs := ps) (w' := wa) as (_ & _ & HF); [..|done|done|].
    { intros j w' _ H. etrans; [exact H|apply ext_fromPotionJSON]. }
    { intros j w' _. apply ext_fromPotionJSON. }
    { intros j w' b w'' Hin H Hj.
      by apply (proj1 (Forall_forall _ _) IH j Hin w0 w' b w''). }
    { intros j b w' w'' H He'. by eapply ledgered_ext. }
    eapply ledgered_ext; [|by eapply ledgered_bind].
    pose proof (ext_promise_all ps wa) as H. by rewrite Hall in H.
  - set (f := λ '(key, v), h ←M _fromPotionJSON v; then_ h (KPair key)).
    assert (∀ kv w', ext w' (f kv w').2) as Hext.
    { intros [key v] w'. unfold f, bind.
      pose proof (ext_fromPotionJSON v w') as H1.
      destruct (_fromPotionJSON v w') as [[h|e] wh]; [|done].
      etrans; [exact H1|]. apply ext_then. }
    set (g := λ kv : string * json, let '(key, v) := kv in references v).
    assert (∀ kv w' b w'', kv ∈ props → ext w0 w' → f kv w' = (Return b, w'') →
              ledgered w0 (g kv) w'') as Hfield.
    { intros [key v] w' b w'' Hin H. unfold f, bind.
      destruct (_fromPotionJSON v w') as [[h|e] wh] eqn:Hh; [|done]. intros Hth.
      eapply ledgered_ext.
      - pose proof (ext_then h (KPair key) wh) as H1. by rewrite Hth in H1.
      - by apply (proj1 (Forall_forall _ _) IH (key, v) Hin w0 w' h wh). }
    assert (∀ w' d' w'', ext w0 w' →
              (ps ←M traverse f props; a ←M promise_all ps; then_ a KObject) w' = (Return d', w'') →
              ledgered w0 (props ≫= g) w'') as Hplain.
    { intros w' d' w'' H. unfold bind.
      destruct (traverse f props w') as [[ps|e] wa] eqn:Ht; [|done].
      destruct (promise_all ps wa) as [[a|e] wb] eqn:Hall; [|done]. intros Hth.
      destruct (traverse_Forall2 f (λ w', ext w0 w')
                  (λ kv (_ : nat) w', ledgered w0 (g kv) w') props)
        with (w := w') (bs := ps) (w' := wa) as (_ & _ & HF); [..|done|done|].
      { intros kv w2 _ H2. etrans; [exact H2|apply Hext]. }
      { intros kv w2 _. apply Hext. }
      { intros kv w2 b w3 Hin H2. by apply Hfield. }
      { intros kv b w2 w3 H2 He'. by eapply ledgered_ext. }
      eapply ledgered_ext; [|eapply ledgered_ext].
      - pose proof (ext_then a KObject wb) as H1. by rewrite Hth in H1.
      - pose proof (ext_promise_all ps wa) as H1. by rewrite Hall in H1.
      - by eapply ledgered_bind. }
    assert (∀ ref, (r ←M parseURI_M ref; get (uri r) no_options) w = (Return d, w1) →
              ledgered w0 [ref] w1) as Hstub.
    { intros ref. unfold bind, parseURI_M.
      rewrite (parseURI_config w0 w) by apply He.
      destruct (parseURI w0 ref) as [r|e] eqn:Hr; [|done].
      intros Hget ref' r' Hin Hr' Hc. apply list_elem_of_singleton in Hin as ->.
      rewrite Hr in Hr'. injection Hr' as <-.
      assert (cache_get (uri r) w = None) as Hc'.
      { unfold cache_get in *. by rewrite (ext_cache _ _ _ (proj2 He)). }
      destruct (_promises w !! uri r) as [p|] eqn:Hl.
      - rewrite (get_pending _ _ _ _ Hc' Hl) in Hget. injection Hget as <- <-. by eexists.
      - rewrite (get_miss _ _ _ Hc' Hl) in Hget. injection Hget as <- <-.
        cbn [_promises set_ledger set_fetches set_promises]. rewrite lookup_insert_eq.
        by eexists. }
    simpl. fold f g.
    destruct (JsObject.get "$uri" props) as [[| | |raw| |]|] eqn:Huri;
      try (destruct (length props =? 1); [|by apply Hplain];
           destruct (JsObject.get "$ref" props) as [[| | |ref| |]|] eqn:Href;
           try (destruct (JsObject.get "$date" props);
                [intros _; apply ledgered_nil | by apply Hplain]);
           apply Hstub).
    unfold bind at 1. unfold parseURI_M. destruct (parseURI w raw) as [r|e]; [|done].
    set (f' := λ '(key, v),
                 if String.eqb key "$uri"
                 then promise_resolve (VArr [VStr key; VStr (uri r)])
                 else h ←M _fromPotionJSON v; then_ h (KPair key)).
    set (g' := λ kv : string * json,
                 let '(key, v) := kv in
                 if String.eqb key "$uri" then [] else references v).
    unfold bind.
    destruct (traverse f' props w) as [[ps|e] wa] eqn:Ht; [|done].
    destruct (promise_all ps wa) as [[a|e] wb] eqn:Hall; [|done]. intros Hth.
    destruct (traverse_Forall2 f' (λ w', ext w0 w')
                (λ kv (_ : nat) w', ledgered w0 (g' kv) w') props)
      with (w := w) (bs := ps) (w' := wa) as (_ & _ & HF); [..|done|done|].
    { intros [key v] w2 _ H2. etrans; [exact H2|]. unfold f'.
      destruct (String.eqb key "$uri"); [apply ext_promise_resolve|apply (Hext (key, v))]. }
    { intros [key v] w2 _. unfold f'.
      destruct (String.eqb key "$uri"); [apply ext_promise_resolve|apply (Hext (key, v))]. }
    { intros [key v] w2 b w3 Hin H2. unfold f', g'.
      destruct (String.eqb key "$uri"); [intros _; apply ledgered_nil|].
      by apply (Hfield (key, v)). }
    { intros kv b w2 w3 H2 He'. by eapply ledgered_ext. }
    eapply ledgered_ext; [|eapply ledgered_ext].
    + pose proof (ext_then a (KInstance (resource r) (uri r)) wb) as H1. by rewrite Hth in H1.
    + pose proof (ext_promise_all ps wa) as H1. by rewrite Hall in H1.
    + by eapply ledgered_bind.
Qed.

Global Instance requests_reflexive : Reflexive requests.
Proof. intros w. split; [reflexivity|]. intros u p Hu. by left. Qed.

Lemma prefixed_config w w' u : _prefix w' = _prefix w → prefixed w' u = prefixed w u.
Proof. intros H. unfold prefixed. by rewrite H. Qed.

Global Instance requests_transitive : Transitive requests.
Proof.
  intros w1 w2 w3 [E12 R12] [E23 R23]. split; [by etrans|].
  intros u p Hu.
  destruct (grow_fetches _ _ _ (proj1 E12)) as (fs12 & Hf12 & _).
  destruct (grow_fetches _ _ _ (proj1 E23)) as (fs23 & Hf23 & _).
  destruct (R23 u p Hu) as [H2|(H2 & f & o & Hlen & Hf)].
  - destruct (R12 u p H2) as [H1|(H1 & f & o & Hlen & Hf)]; [by left|right].
    split; [done|]. exists f, o. split; [done|]. rewrite Hf23. by apply lookup_app_l_Some.
  - right. split.
    + destruct (_promises w1 !! u) as [p1|] eqn:H1; [|done].
      apply (ext_ledger _ _ _ (proj2 E12)) in H1. congruence.
    + exists f, o. split.
      * rewrite Hf12, length_app in Hlen. lia.
      * by rewrite <- (prefixed_config w1 w2 u (ext_prefix _ _ _ (proj2 E12))).
Qed.

Lemma requests_same w w' : ext w w' → _promises w' = _promises w → requests w w'.
Proof. intros He Hl. split; [done|]. intros u p Hu. left. by rewrite <- Hl. Qed.

Lemma requests_get u o : preserves requests (get u o).
Proof.
  intros w. split; [apply ext_get|]. intros u' p.
  destruct (cache_get u w) as [i|] eqn:Hc.
  { rewrite (get_cached _ _ _ _ Hc). by left. }
  destruct (_promises w !! u) as [q|] eqn:Hl.
  { rewrite (get_pending _ _ _ _ Hc Hl). by left. }
  rewrite (get_miss _ _ _ Hc Hl). cbn [snd _promises fetches set_ledger set_fetches set_promises].
  intros [[<- <-]|[_ Hu']]%lookup_insert_Some; [right|by left].
  split; [done|]. exists (length (fetches w)), o. split; [done|].
  by apply list_lookup_middle.
Qed.

Lemma requests_fromPotionJSON j : preserves requests (_fromPotionJSON j).
Proof.
  apply preserves_fromPotionJSON; try apply _.
  - intros v w. apply requests_same; [apply ext_promise_resolve|done].
  - intros p k w. apply requests_same; [apply ext_then|apply same_gets_then].
  - intros ps w. apply requests_same; [apply ext_promise_all|apply same_gets_promise_all].
  - apply requests_get.
Qed.

(** X24: hydration asks for every reference of the document, at any
    depth, as soon as it is called: once it has returned, the ledger has
    an entry for the uri of every reference stub that the cache does not
    hold -- the entry it had, or a new one that came with a transport
    call, with method GET, for the uri. *)
Theorem references_requested (w : World) (j : json) (d : nat) (w1 : World)
    (ref : string) (r : ParsedURI) :
  _fromPotionJSON j w = (Return d, w1) →
  ref ∈ references j → parseURI w ref = Return r → cache_get (uri r) w = None →
  ∃ p, _promises w1 !! uri r = Some p ∧
       (_promises w !! uri r = Some p ∨
        (_promises w !! uri r = None ∧
         ∃ f o, length (fetches w) ≤ f ∧
                fetches w1 !! f = Some {| fetch_uri := prefixed w (uri r);
                                          fetch_options := with_method GET o;
                                          fetch_state := FPending [(KGetThen (uri r), p)] |})).
Proof.
  intros Hh Hin Hr Hc.
  destruct (fromPotionJSON_ledgered j w w d w1 ltac:(reflexivity) Hh ref r Hin Hr Hc) as [p Hp].
  exists p. split; [done|].
  pose proof (requests_fromPotionJSON j w) as [_ R]. rewrite Hh in R. by apply R.
Qed.

Lemma references_requested_witness :
  let body := JObj [("$uri", JStr "/user/1");
                    ("friends", JArr [JObj [("$ref", JStr "/user/2")];
                                      JObj [("$ref", JStr "/user/1")]])] in
  let w1 := (_fromPotionJSON body users).2 in
  ∃ p, _promises w1 !! "/user/1" = Some p ∧
       (_promises users !! "/user/1" = Some p ∨
        (_promises users !! "/user/1" = None ∧
         ∃ f o, length (fetches users) ≤ f ∧
                fetches w1 !! f = Some {| fetch_uri := prefixed users "/user/1";
                                          fetch_options := with_method GET o;
                                          fetch_state := FPending [(KGetThen "/user/1", p)] |})).
Proof.
  intros body w1.
  apply (references_requested users body 6 w1 "/user/1"
           {| uri := "/user/1"; resource := "User"; params := ["1"] |}).
  - vm_compute. reflexivity.
  - vm_compute. apply list_elem_of_further, list_elem_of_here.
  - vm_compute. reflexivity.
  - vm_compute. reflexivity.
Defined.

(** An entity that refers to itself: the body at hand is not used for the
    reference, a transport call is made for the uri of the entity itself;
    answered with the same body, that call leads to the next one, and
    nothing is ever constructed. *)
Lemma self_reference_example :
  let body := JObj [("$uri", JStr "/user/1");
                    ("best_friend", JObj [("$ref", JStr "/user/1")])] in
  let w1 := (get "/user/1" no_options users).2 in
  let w2 := drain toCamelCase 20 (run toCamelCase [Respond 0 body] w1) in
  let w3 := drain toCamelCase 20 (run toCamelCase [Respond 1 body] w2) in
  fetch_uri <$> fetches w2 = ["/user/1"; "/user/1"] ∧
  fetch_uri <$> fetches w3 = ["/user/1"; "/user/1"; "/user/1"] ∧
  promises w3 !! 0 = Some (Pending []) ∧
  microtasks w3 = [] ∧ heap w3 = [].
Proof. vm_compute. split_and!; reflexivity. Qed.
